(** * six4-btw: the label scoring engine and the resilient vision client

    A shallow embedding of [backend/src/services/ratingService.js] and
    [backend/src/services/visionService.js].

    Conventions of the embedding.
    - A JavaScript string is a Rocq [string] read as a sequence of UTF-16
      code units below 256 (one [ascii] per code unit), so [String.length]
      is [.length] and [String.get] is [charAt].
    - A JavaScript number is a rational ([Q]) where the source computes
      with fractions (confidences, similarities) and an integer ([Z])
      where the source only ever holds integers (points, counters,
      millisecond time stamps).  A product of two numbers is the IEEE 754
      double nearest to the exact product ([times]: round to nearest,
      ties to even), a rational that is not itself a double being read
      as the double nearest to it, as a decimal literal is.  [NaN] and
      the infinities are values of [JsValue], which the dictionary
      object can hold; the scoring functions are modelled on
      dictionaries of numbers, and a product beyond the range of the
      finite doubles ([overflows]) is outside the model.
    - A thrown exception is the left summand of a sum type.
    - Logging ([console.log], the [retryLog] and [retryInfo] records) and
      the [processedAt] / [debug] fields of the rating result are left
      out: nothing depends on them. *)

From Stdlib Require Import ZArith QArith Qround Qabs String Ascii List Bool Lia Sorted.
From stdpp Require Import base option list gmap strings fin_maps.
Import ListNotations.

Local Open Scope string_scope.
Local Open Scope Z_scope.

(* ===================================================================== *)
(** * JavaScript strings *)
(* ===================================================================== *)

Module JSString.

(** [String.prototype.toLowerCase] on code units below 256: the Basic
    Latin capitals and the Latin-1 capitals other than the
    multiplication sign move up by 32. *)
Definition lower_unit (c : ascii) : ascii :=
  let n := N_of_ascii c in
  if ((65 <=? n)%N && (n <=? 90)%N)
     || ((192 <=? n)%N && (n <=? 222)%N && negb (n =? 215)%N)
  then ascii_of_N (n + 32) else c.

Fixpoint toLowerCase (s : string) : string :=
  match s with
  | EmptyString => EmptyString
  | String c s' => String (lower_unit c) (toLowerCase s')
  end.

(** White space and line terminators below 256: TAB, LF, VT, FF, CR,
    SPACE and NO-BREAK SPACE. *)
Definition is_space (c : ascii) : bool :=
  let n := N_of_ascii c in
  ((9 <=? n)%N && (n <=? 13)%N) || (n =? 32)%N || (n =? 160)%N.

Fixpoint trimStart (s : string) : string :=
  match s with
  | EmptyString => EmptyString
  | String c s' => if is_space c then trimStart s' else s
  end.

Fixpoint trimEnd (s : string) : string :=
  match s with
  | EmptyString => EmptyString
  | String c s' =>
      match trimEnd s' with
      | EmptyString => if is_space c then EmptyString else String c EmptyString
      | t => String c t
      end
  end.

Definition trim (s : string) : string := trimEnd (trimStart s).

(** [s.includes(pat)]: [pat] occurs in [s] as a contiguous substring. *)
Fixpoint includes (s pat : string) : bool :=
  if String.prefix pat s then true
  else match s with
       | EmptyString => false
       | String _ s' => includes s' pat
       end.

(** [s.split(sep)] for a one-unit separator. *)
Fixpoint split (sep : ascii) (s : string) : list string :=
  match s with
  | EmptyString => [EmptyString]
  | String c s' =>
      if Ascii.eqb c sep then EmptyString :: split sep s'
      else match split sep s' with
           | w :: ws => String c w :: ws
           | [] => [String c EmptyString]
           end
  end.

(** [arr.join(sep)]. *)
Definition join (sep : string) (l : list string) : string :=
  String.concat sep l.

(** A falsy string is the empty string. *)
Definition truthy (s : string) : bool := negb (String.eqb s "").

End JSString.

(* ===================================================================== *)
(** * Data exchanged between the two services *)
(* ===================================================================== *)

(** An entity annotation of the vision provider: a label or an OCR span.
    A field the provider left out ([undefined]) is [None]. *)
Record Annotation := mkAnnotation {
  description : option string;
  score : option Q
}.

(** What [annotateImage] resolves to (first element of the response). *)
Record AnnotateResponse := mkResponse {
  labelAnnotations : option (list Annotation);
  textAnnotations : option (list Annotation)
}.

(** What [analyzeImage] resolves to. *)
Record Analysis := mkAnalysis {
  labels : list Annotation;
  analysisTextAnnotations : list Annotation
}.

(* ===================================================================== *)
(** * The vision client: retry, timeout and circuit breaker *)
(* ===================================================================== *)

Module VisionService.
Import JSString.

Inductive CircuitState := CLOSED | HALF_OPEN | OPEN.

Record CircuitBreaker := mkCircuitBreaker {
  state : CircuitState;
  failureCount : Z;
  failureThreshold : Z;
  resetTimeout : Z;
  lastFailureTime : option Z;          (* [null] is [None] *)
  successCount : Z;
  halfOpenSuccessThreshold : Z
}.

(** Field assignments [this.circuitBreaker.f = v]. *)
Definition set_state (s : CircuitState) (cb : CircuitBreaker) :=
  mkCircuitBreaker s (failureCount cb) (failureThreshold cb) (resetTimeout cb)
    (lastFailureTime cb) (successCount cb) (halfOpenSuccessThreshold cb).
Definition set_failureCount (n : Z) (cb : CircuitBreaker) :=
  mkCircuitBreaker (state cb) n (failureThreshold cb) (resetTimeout cb)
    (lastFailureTime cb) (successCount cb) (halfOpenSuccessThreshold cb).
Definition set_lastFailureTime (t : option Z) (cb : CircuitBreaker) :=
  mkCircuitBreaker (state cb) (failureCount cb) (failureThreshold cb)
    (resetTimeout cb) t (successCount cb) (halfOpenSuccessThreshold cb).
Definition set_successCount (n : Z) (cb : CircuitBreaker) :=
  mkCircuitBreaker (state cb) (failureCount cb) (failureThreshold cb)
    (resetTimeout cb) (lastFailureTime cb) n (halfOpenSuccessThreshold cb).

(** The breaker the constructor installs. *)
Definition initialCircuitBreaker : CircuitBreaker :=
  {| state := CLOSED; failureCount := 0; failureThreshold := 5;
     resetTimeout := 60000; lastFailureTime := None;
     successCount := 0; halfOpenSuccessThreshold := 2 |}.

(** [now - null] is [now]: [null] converts to 0. *)
Definition toNumber (t : option Z) : Z := default 0 t.

(** [checkCircuitBreaker()], with [now] the value of [Date.now()]:
    the breaker after the call and the state it returns. *)
Definition checkCircuitBreaker (now : Z) (cb : CircuitBreaker)
  : CircuitBreaker * CircuitState :=
  let cb' :=
    match state cb with
    | OPEN =>
        if resetTimeout cb <=? now - toNumber (lastFailureTime cb)
        then set_successCount 0 (set_state HALF_OPEN cb)
        else cb
    | HALF_OPEN => cb
    | CLOSED => cb
    end in
  (cb', state cb').

(** [recordSuccess()]. *)
Definition recordSuccess (cb : CircuitBreaker) : CircuitBreaker :=
  match state cb with
  | HALF_OPEN =>
      let cb := set_successCount (successCount cb + 1) cb in
      if halfOpenSuccessThreshold cb <=? successCount cb
      then set_successCount 0 (set_failureCount 0 (set_state CLOSED cb))
      else cb
  | CLOSED => set_failureCount 0 cb
  | OPEN => cb
  end.

(** [recordFailure()], with [now] the value of [Date.now()]. *)
Definition recordFailure (now : Z) (cb : CircuitBreaker) : CircuitBreaker :=
  let cb := set_failureCount (failureCount cb + 1) cb in
  let cb := set_lastFailureTime (Some now) cb in
  match state cb with
  | HALF_OPEN => set_successCount 0 (set_state OPEN cb)
  | CLOSED =>
      if failureThreshold cb <=? failureCount cb then set_state OPEN cb else cb
  | OPEN => cb
  end.

(** A JavaScript [Error]: its message and its optional [code]. *)
Record JsError := mkError { message : string; code : option string }.

Definition nonRetryableCodes : list string :=
  ["UNAUTHENTICATED"; "PERMISSION_DENIED"; "INVALID_ARGUMENT"; "QUOTA_EXCEEDED"].

Definition code_is (e : JsError) (c : string) : bool :=
  match code e with
  | Some c' => String.eqb c' c
  | None => false
  end.

(** [isNonRetryableError(error)]. *)
Definition isNonRetryableError (e : JsError) : bool :=
  existsb (fun c => includes (message e) c || code_is e c) nonRetryableCodes.

(** [transformError(error)]. *)
Definition transformError (e : JsError) : JsError :=
  if includes (message e) "timeout"
  then mkError "Vision API request timed out" (Some "VISION_TIMEOUT")
  else if includes (message e) "UNAUTHENTICATED"
  then mkError "Vision API authentication failed" (Some "VISION_AUTH_ERROR")
  else if includes (message e) "QUOTA_EXCEEDED"
  then mkError "Vision API quota exceeded" (Some "VISION_QUOTA_ERROR")
  else if includes (message e) "PERMISSION_DENIED"
  then mkError "Vision API permission denied" (Some "VISION_PERMISSION_ERROR")
  else mkError "Vision API service error" (Some "VISION_SERVICE_ERROR").

(** ** The service object and the world it runs in *)

(** How the provider settles one [annotateImage] call, and after how
    many milliseconds. *)
Inductive Settlement :=
| Resolves (r : AnnotateResponse)
| Rejects (e : JsError).

Record Reply := mkReply { settlement : Settlement; latency : Z }.

(** The mutable state: the service's fields, a logical clock read by
    [Date.now()], the number of provider calls made so far and the
    delays slept so far (oldest first). *)
Record St := mkSt {
  client : bool;                        (* [this.client !== null] *)
  maxRetries : Z;
  retryDelay : Z;
  timeout : Z;
  circuitBreaker : CircuitBreaker;
  clock : Z;
  calls : nat;
  sleeps : list Z
}.

(** The service after its constructor, at time [t0]. *)
Definition newService (t0 : Z) : St :=
  {| client := true; maxRetries := 3; retryDelay := 1000; timeout := 30000;
     circuitBreaker := initialCircuitBreaker;
     clock := t0; calls := 0; sleeps := [] |}.

Definition set_circuitBreaker (cb : CircuitBreaker) (s : St) : St :=
  mkSt (client s) (maxRetries s) (retryDelay s) (timeout s) cb
       (clock s) (calls s) (sleeps s).
Definition advance (d : Z) (s : St) : St :=
  mkSt (client s) (maxRetries s) (retryDelay s) (timeout s) (circuitBreaker s)
       (clock s + d) (calls s) (sleeps s).
Definition count_call (s : St) : St :=
  mkSt (client s) (maxRetries s) (retryDelay s) (timeout s) (circuitBreaker s)
       (clock s) (S (calls s)) (sleeps s).
Definition log_sleep (d : Z) (s : St) : St :=
  mkSt (client s) (maxRetries s) (retryDelay s) (timeout s) (circuitBreaker s)
       (clock s) (calls s) (sleeps s ++ [d]).

(** Asynchronous methods: a state transformer that settles with an
    error (rejection) or a value. *)
Definition M (A : Type) : Type := St -> (JsError + A) * St.

Definition ret {A} (a : A) : M A := fun s => (inr a, s).
Definition throw {A} (e : JsError) : M A := fun s => (inl e, s).
Definition bind {A B} (m : M A) (k : A -> M B) : M B :=
  fun s => match m s with
           | (inr a, s') => k a s'
           | (inl e, s') => (inl e, s')
           end.
Definition try_catch {A} (m : M A) (h : JsError -> M A) : M A :=
  fun s => match m s with
           | (inr a, s') => (inr a, s')
           | (inl e, s') => h e s'
           end.
Definition get : M St := fun s => (inr s, s).
Definition modify (f : St -> St) : M unit := fun s => (inr tt, f s).

#[local] Instance M_ret : MRet M := @ret.
#[local] Instance M_bind : MBind M := fun A B k m => bind m k.

(** [await this.sleep(ms)]. *)
Definition sleep (ms : Z) : M unit :=
  modify (fun s => log_sleep ms (advance ms s)).

Section WithProvider.

(** The provider: how the [k]-th call of [annotateImage] (counted
    from 0 over the life of the service) settles. *)
Variable provider : nat -> Reply.

(** [Promise.race([this.client.annotateImage(request),
    this.createTimeoutPromise()])]: the provider wins when it
    settles before the timeout fires. *)
Definition raceAnnotate : M AnnotateResponse :=
  s ← get;
  let reply := provider (calls s) in
  modify count_call;;
  if latency reply <? timeout s
  then modify (advance (latency reply));;
       match settlement reply with
       | Resolves r => ret r
       | Rejects e => throw e
       end
  else modify (advance (timeout s));;
       throw (mkError "Vision API request timeout" None).

(** The function [analyzeImage] hands to [executeWithRetry]. *)
Definition attemptOnce : M Analysis :=
  try_catch
    (r ← raceAnnotate;
     ret {| labels := default [] (labelAnnotations r);
            analysisTextAnnotations := default [] (textAnnotations r) |})
    (fun error => throw (transformError error)).

(** The [for] loop of [executeWithRetry]: [fuel] is the number of
    iterations left, [maxRetries - attempt + 1]; it ends in [inl]
    when the loop runs out, with the last error if there is one. *)
Fixpoint retryLoop {A} (fn : M A) (fuel : nat) (attempt : Z)
    (lastError : option JsError) : M (option JsError + A) :=
  match fuel with
  | O => ret (inl lastError)
  | S fuel' =>
      try_catch (r ← fn; ret (inr r))
        (fun error =>
           if isNonRetryableError error then throw error
           else
             s ← get;
             (if attempt <? maxRetries s
              then sleep (retryDelay s * 2 ^ (attempt - 1))
              else ret tt);;
             retryLoop fn fuel' (attempt + 1) (Some error))
  end.

(** [executeWithRetry(fn)].  After the loop [transformError(lastError)]
    reads [lastError.message], a [TypeError] when no attempt was made. *)
Definition executeWithRetry {A} (fn : M A) : M A :=
  s ← get;
  r ← retryLoop fn (Z.to_nat (maxRetries s)) 1 None;
  match r with
  | inr a => ret a
  | inl (Some lastError) => throw (transformError lastError)
  | inl None =>
      throw (mkError "Cannot read properties of undefined (reading 'message')" None)
  end.

(** The argument of [analyzeImage]. *)
Inductive ImageArg := IsBuffer (content : list Byte.byte) | NotBuffer.

Definition circuitOpenError : JsError :=
  mkError "Vision service circuit breaker is OPEN - service temporarily unavailable"
          (Some "VISION_CIRCUIT_OPEN").

(** [analyzeImage(imageBuffer)]. *)
Definition analyzeImage (imageBuffer : ImageArg) : M Analysis :=
  s ← get;
  let '(cb, circuitState) := checkCircuitBreaker (clock s) (circuitBreaker s) in
  modify (set_circuitBreaker cb);;
  match circuitState with
  | OPEN => throw circuitOpenError
  | _ =>
      if negb (client s) then throw (mkError "Vision client not initialized" None)
      else match imageBuffer with
           | NotBuffer => throw (mkError "Invalid image buffer provided" None)
           | IsBuffer _ =>
               try_catch
                 (result ← executeWithRetry attemptOnce;
                  modify (fun s => set_circuitBreaker
                                     (recordSuccess (circuitBreaker s)) s);;
                  ret result)
                 (fun error =>
                    modify (fun s => set_circuitBreaker
                                       (recordFailure (clock s) (circuitBreaker s)) s);;
                    throw error)
           end
  end.

End WithProvider.

(** [isReady()]. *)
Definition isReady (s : St) : bool := client s.

End VisionService.

(* ===================================================================== *)
(** * JavaScript objects used as dictionaries *)
(* ===================================================================== *)

Module JSObject.

(** An ordinary object with string keys, as the list of its own
    properties in enumeration order: array indices first, ascending,
    then the other keys in creation order. *)

Definition digit (c : ascii) : option N :=
  let n := N_of_ascii c in
  if ((48 <=? n) && (n <=? 57))%N then Some (n - 48)%N else None.

Fixpoint digits (acc : N) (s : string) : option N :=
  match s with
  | EmptyString => Some acc
  | String c s' =>
      match digit c with
      | Some d => digits (acc * 10 + d)%N s'
      | None => None
      end
  end.

(** The key is a canonical array index (below 2^32 - 1). *)
Definition array_index (k : string) : option N :=
  match k with
  | EmptyString => None
  | String c rest =>
      if Ascii.eqb c "0" && negb (String.eqb rest "") then None
      else match digits 0 k with
           | Some n => if (n <? 4294967295)%N then Some n else None
           | None => None
           end
  end.

Section Values.
Context {V : Type}.

(** [o.hasOwnProperty(k)] together with [o[k]] for an own key. *)
Fixpoint obj_get (k : string) (o : list (string * V)) : option V :=
  match o with
  | [] => None
  | (k', v) :: o' => if String.eqb k k' then Some v else obj_get k o'
  end.

Definition obj_has (k : string) (o : list (string * V)) : bool :=
  match obj_get k o with Some _ => true | None => false end.

Fixpoint obj_replace (k : string) (v : V) (o : list (string * V)) :=
  match o with
  | [] => []
  | (k', v') :: o' =>
      if String.eqb k k' then (k', v) :: o' else (k', v') :: obj_replace k v o'
  end.

Fixpoint obj_insert_index (n : N) (k : string) (v : V) (o : list (string * V)) :=
  match o with
  | [] => [(k, v)]
  | (k', v') :: o' =>
      match array_index k' with
      | Some n' =>
          if (n' <? n)%N then (k', v') :: obj_insert_index n k v o'
          else (k, v) :: o
      | None => (k, v) :: o
      end
  end.

(** [o[k] = v] for a value that is not an object: an existing key
    keeps its place, a new key is created in enumeration order, and
    the key [__proto__] reaches the prototype setter, which ignores
    the value and creates nothing. *)
Definition obj_set (k : string) (v : V) (o : list (string * V)) :=
  if String.eqb k "__proto__" then o
  else if obj_has k o then obj_replace k v o
  else match array_index k with
       | Some n => obj_insert_index n k v o
       | None => (o ++ [(k, v)])%list
       end.

(** An object literal: properties are defined left to right, a
    repeated key overwriting the earlier value. *)
Definition of_literal (l : list (string * V)) : list (string * V) :=
  fold_left (fun o kv => obj_set (fst kv) (snd kv) o) l [].

End Values.

(** The lower-case members every object inherits from
    [Object.prototype]; [o[k]] finds them when [k] is not an own key. *)
Definition inherited (k : string) : bool :=
  String.eqb k "constructor" || String.eqb k "__proto__".

End JSObject.

(* ===================================================================== *)
(** * The rating service *)
(* ===================================================================== *)

Module RatingService.
Import JSString JSObject.

Inductive Exn :=
| TypeError (what : string)
| Error (msg : string).

#[local] Instance Res_ret : MRet (sum Exn) := fun A a => inr a.
#[local] Instance Res_bind : MBind (sum Exn) :=
  fun A B k m => match m with inl e => inl e | inr a => k a end.

(** [Math.round]: the nearest integer, halves going up. *)
Definition Math_round (x : Q) : Z := Qfloor (x + 0.5).

Definition Qgtb (x y : Q) : bool := negb (Qle_bool x y).
Definition Qltb (x y : Q) : bool := negb (Qle_bool y x).

(** ** Double-precision arithmetic *)

(** [2^e] for any integer [e]. *)
Definition pow2 (e : Z) : Q :=
  if 0 <=? e then inject_Z (2 ^ e) else / inject_Z (2 ^ (- e)).

(** [floor (log2 a)] for a positive rational [a]. *)
Definition binade (a : Q) : Z :=
  let e := Z.log2 (Qnum a) - Z.log2 (Z.pos (Qden a)) in
  if Qle_bool (pow2 e) a then e else e - 1.

(** The nearest integer, a tie going to the even one. *)
Definition roundEven (x : Q) : Z :=
  let below := Qfloor x in
  match (x - inject_Z below ?= 1 # 2)%Q with
  | Lt => below
  | Gt => below + 1
  | Eq => if Z.even below then below else below + 1
  end.

(** The double nearest to [q], round to nearest with ties to even: 53
    significant bits, and no bit below [2^-1074]. *)
Definition double (q : Q) : Q :=
  if Qeq_bool q 0 then 0%Q
  else
    let quantum := pow2 (Z.max (binade (Qabs q) - 52) (-1074)) in
    (inject_Z (roundEven (q / quantum)) * quantum)%Q.

(** [x * y] on numbers. *)
Definition times (x y : Q) : Q := double (double x * double y).

(** The exact result [x] rounds to a double beyond the finite ones:
    the source gets [Infinity]. *)
Definition overflows (x : Q) : bool := Qle_bool (pow2 1024) (Qabs (double x)).

(** The double quote, for template strings. *)
Definition dquote : string := String "034"%char EmptyString.

(** ** The keyword dictionary *)

(** The object literal of the constructor, key by key as written. *)
Definition performativeItemsLiteral : list (string * Q) :=
  [
    ("matcha", 15); ("tote bag", 12); ("book", 10); ("beanie", 8);
    ("sunglasses", 7); ("labubu", 20); ("toy", 15); ("figurine", 18);
    ("collectible", 16); ("doll", 14); ("plush", 12);
    ("stuffed animal", 10); ("stanley cup", 18); ("airpods", 9);
    ("macbook", 11); ("film camera", 14); ("coffee", 6); ("latte", 8);
    ("cappuccino", 7); ("espresso", 6); ("croissant", 9); ("avocado", 10);
    ("toast", 8); ("bagel", 7); ("smoothie", 9); ("acai bowl", 12);
    ("granola", 8); ("yoga mat", 11); ("meditation", 9); ("journal", 10);
    ("notebook", 8); ("planner", 9); ("succulent", 7); ("plant", 6);
    ("monstera", 10); ("fiddle leaf fig", 12); ("pampas grass", 11);
    ("candle", 8); ("diffuser", 9); ("crystals", 10); ("sage", 8);
    ("incense", 7); ("vintage", 9); ("thrift", 8); ("sustainable", 10);
    ("organic", 8); ("vegan", 9); ("gluten free", 7); ("kombucha", 9);
    ("green juice", 10); ("protein shake", 6); ("workout", 7); ("gym", 5);
    ("pilates", 9); ("barre", 8); ("hiking", 7); ("nature", 6);
    ("sunset", 8); ("golden hour", 12); ("aesthetic", 15);
    ("minimalist", 11); ("scandinavian", 10); ("boho", 9);
    ("cottagecore", 11); ("dark academia", 13); ("light academia", 12);
    ("soft girl", 10); ("clean girl", 11); ("that girl", 14);
    ("tote bag", 18); ("canvas bag", 16); ("new yorker", 20);
    ("bookstore bag", 19); ("carhartt", 17); ("beanie", 12);
    ("workwear", 14); ("film camera", 16); ("vintage camera", 18);
    ("analog camera", 17); ("blundstone", 19); ("chelsea boots", 16);
    ("leather boots", 14); ("boots", 8); ("minimalist jewelry", 15);
    ("silver ring", 12); ("chain necklace", 13); ("simple jewelry", 11);
    ("a24", 22); ("wes anderson", 21); ("greta gerwig", 20);
    ("indie film", 18); ("arthouse", 17); ("criterion", 19);
    ("vinyl records", 16); ("record player", 15); ("turntable", 14);
    ("vinyl", 13); ("records", 11); ("natural wine", 18);
    ("organic wine", 16); ("biodynamic", 17); ("craft beer", 12);
    ("local brewery", 14); ("ipa", 10); ("pour over coffee", 17);
    ("chemex", 18); ("v60", 19); ("coffee dripper", 16);
    ("coffee filter", 12); ("bouldering", 15); ("climbing", 10);
    ("rock climbing", 12); ("climbing shoes", 13); ("feminist", 16);
    ("ally", 15); ("therapy", 14); ("boundaries", 17);
    ("emotional bandwidth", 18); ("holding space", 19); ("oat milk", 16);
    ("oat latte", 17); ("plant milk", 14); ("non dairy", 12);
    ("vulnerability", 15); ("authentic", 13); ("mindfulness", 14);
    ("philosophy", 16); ("podcast", 11); ("intellectual", 15);
    ("taylor swift", 18); ("clairo", 20); ("phoebe bridgers", 19);
    ("mitski", 18); ("fiona apple", 17); ("joni mitchell", 16);
    ("bjork", 15); ("lana del rey", 14); ("solange", 16);
    ("frank ocean", 17); ("japanese breakfast", 18); ("soccer mommy", 17);
    ("snail mail", 16); ("boygenius", 19); ("lucy dacus", 17);
    ("julien baker", 18); ("big thief", 16); ("angel olsen", 15);
    ("cat power", 14); ("beach house", 15); ("grimes", 13);
    ("st vincent", 16); ("perfume genius", 17); ("gym selfie", 8);
    ("protein powder", 6); ("gaming setup", 7); ("mechanical keyboard", 5);
    ("crypto", 9); ("nft", 10); ("tesla", 12); ("rolex", 11);
    ("supreme", 9); ("jordan", 8); ("sneakers", 4); ("beard oil", 6);
    ("whiskey", 5); ("cigar", 7); ("motorcycle", 8); ("watch", 6);
    ("cologne", 4); ("suit", 5); ("tie", 3); ("briefcase", 4);
    ("green tea", 15); ("tea", 8); ("coffee cup", 12); ("espresso cup", 14);
    ("latte art", 16); ("beverage", 5); ("juice", 7); ("green juice", 12);
    ("smoothie", 9); ("drink", 4); ("avocado toast", 15); ("sourdough", 11);
    ("pastry", 6); ("croissant", 10); ("bowl", 5); ("acai", 14);
    ("quinoa", 12); ("kale", 11); ("food", 3); ("organic", 9); ("local", 8);
    ("handbag", 10); ("messenger bag", 14); ("canvas bag", 16); ("bag", 6);
    ("purse", 8); ("backpack", 4); ("leather bag", 11); ("eyewear", 6);
    ("glasses", 5); ("reading glasses", 12); ("vintage glasses", 15);
    ("hat", 5); ("cap", 4); ("knit hat", 10); ("wool hat", 11);
    ("wristwatch", 12); ("vintage watch", 16); ("jewelry", 8);
    ("necklace", 6); ("silver jewelry", 12); ("bracelet", 5); ("ring", 4);
    ("wedding ring", 2); ("shoes", 4); ("leather shoes", 8); ("boots", 7);
    ("dress shoes", 5); ("sneakers", 3); ("footwear", 3);
    ("water bottle", 8); ("bottle", 5); ("tumbler", 10); ("headphones", 7);
    ("earbuds", 8); ("wireless earphones", 9); ("laptop", 8);
    ("computer", 6); ("apple", 10); ("iphone", 9); ("smartphone", 6);
    ("phone", 4); ("tablet", 5); ("ipad", 8); ("camera", 8);
    ("vintage camera", 12); ("polaroid", 11); ("photography", 6);
    ("lens", 5); ("exercise mat", 9); ("yoga", 8); ("dumbbell", 6);
    ("weight", 5); ("fitness", 4); ("supplement", 8); ("shaker bottle", 7);
    ("houseplant", 8); ("potted plant", 7); ("flower", 4); ("vase", 5);
    ("pot", 3); ("scented candle", 9); ("essential oil", 8); ("crystal", 9);
    ("gemstone", 8); ("gaming", 8); ("video game", 6); ("controller", 7);
    ("keyboard", 6); ("mouse", 4); ("headset", 7); ("monitor", 5);
    ("pc", 6); ("gaming chair", 9); ("car", 8); ("luxury car", 15);
    ("sports car", 12); ("vehicle", 5); ("luxury watch", 16);
    ("expensive watch", 14); ("formal wear", 8); ("dress shirt", 7);
    ("leather bag", 9); ("beer", 7); ("alcohol", 6); ("bourbon", 9);
    ("wine", 5); ("cocktail", 6); ("protein", 8); ("whey protein", 9);
    ("supplement bottle", 7); ("gym equipment", 6); ("barbell", 7);
    ("weight plate", 5); ("beard", 6); ("mustache", 5); ("perfume", 6);
    ("grooming", 5); ("razor", 4); ("shaving", 3); ("cigarette", 5);
    ("smoking", 4); ("tobacco", 6); ("bike", 6); ("bicycle", 4);
    ("scooter", 5); ("vinyl record", 14); ("record", 10); ("turntable", 15);
    ("record player", 13); ("vintage stereo", 12); ("speaker", 6);
    ("audio equipment", 8); ("headphones", 7); ("earbuds", 6); ("music", 4);
    ("album", 8); ("cd", 5); ("cassette", 11); ("tape", 9); ("book", 10);
    ("novel", 12); ("poetry", 14); ("literature", 15); ("paperback", 8);
    ("hardcover", 9); ("bookmark", 7); ("reading", 6); ("library", 8);
    ("bookstore", 12); ("independent bookstore", 16); ("nike", 8);
    ("adidas", 7); ("apple logo", 10); ("brand", 5); ("logo", 4)
  ]%Q.

(** [this.performativeItems] after the constructor. *)
Definition performativeItems : list (string * Q) :=
  of_literal performativeItemsLiteral.

Definition scoreMessages : list (Z * string) :=
  [(0, "Refreshingly authentic - no performative signaling detected!");
   (5, "Barely registering on the aesthetic consciousness scale");
   (15, "Subtle hints of curated lifestyle choices");
   (25, "Some performative awareness emerging");
   (35, "Entering soft boy adjacent territory");
   (45, "Moderate indie aesthetic energy");
   (55, "Solidly in the 'that guy who reads' zone");
   (65, "Strong performative cultural signaling");
   (75, "Peak indie boy energy with literary pretensions");
   (85, "Maximum cultural capital flexing detected");
   (95, "Elite performative male status achieved");
   (100, "Transcendent level of curated masculinity - you've become the aesthetic!")].

(** ** Matches and detected items *)

Inductive MatchType := exact | semantic | partial | text | text_partial.

Module Match.
Record t := mk {
  keyword : string;
  matchType : MatchType;
  matchScore : Q;
  adjustedPoints : Z
}.
End Match.

Module Item.
Record t := mk {
  item : string;
  points : Z;
  confidence : Q;
  matchType : MatchType;
  originalLabel : string;
  matchScore : option Q              (* absent on text items *)
}.
End Item.

(** ** Semantic generalisation *)

(** The elements of [allLabels.map(l => l.description || l)]: the
    description when it is truthy, the label object otherwise. *)
Definition describe (l : Annotation) : string + Annotation :=
  match description l with
  | Some d => if truthy d then inl d else inr l
  | None => inr l
  end.

Record Mapping := mkMapping {
  map_keyword : string;
  map_score : Q;
  condition : option (string -> list (string + Annotation) -> Exn + bool)
}.

(** [(text) => text.includes(t1) || text.includes(t2) ...]. *)
Definition textHas (terms : list string)
    (text : string) (_ : list (string + Annotation)) : Exn + bool :=
  inr (existsb (includes text) terms).

(** [(text, allLabels) => allLabels.some(l => [...].includes(l.toLowerCase()))];
    a label object has no [toLowerCase]. *)
Fixpoint musicContext_some (allLabels : list (string + Annotation)) : Exn + bool :=
  match allLabels with
  | [] => inr false
  | inl l :: rest =>
      if existsb (String.eqb (toLowerCase l))
           ["music"; "performance"; "singer"; "musician"; "artist"]
      then inr true else musicContext_some rest
  | inr _ :: _ => inl (TypeError "l.toLowerCase is not a function")
  end.

Definition musicContext (_ : string) (allLabels : list (string + Annotation))
  : Exn + bool := musicContext_some allLabels.

Definition semanticMapLiteral : list (string * list Mapping) :=
  [
    ("beverage",
     [mkMapping "matcha" 0.4 (Some (textHas ["green"; "tea"]));
      mkMapping "coffee" 0.7 None;
      mkMapping "oat milk" 0.4 (Some (textHas ["milk"]))]);
    ("drink",
     [mkMapping "matcha" 0.3 (Some (textHas ["green"; "tea"]));
      mkMapping "kombucha" 0.3 None;
      mkMapping "green juice" 0.4 None;
      mkMapping "coffee" 0.6 None]);
    ("coffee cup",
     [mkMapping "pour over coffee" 0.8 None;
      mkMapping "coffee" 0.9 None]);
    ("tea",
     [mkMapping "matcha" 0.9 None;
      mkMapping "green tea" 0.8 None]);
    ("green tea",
     [mkMapping "matcha" 0.9 None]);
    ("latte",
     [mkMapping "matcha latte" 0.6 (Some (textHas ["green"; "matcha"]));
      mkMapping "oat latte" 0.7 None]);
    ("bag",
     [mkMapping "tote bag" 0.7 None;
      mkMapping "canvas bag" 0.6 None]);
    ("handbag",
     [mkMapping "tote bag" 0.8 None;
      mkMapping "canvas bag" 0.7 None]);
    ("eyewear",
     [mkMapping "sunglasses" 0.9 None]);
    ("sunglasses",
     [mkMapping "sunglasses" 1.0 None]);
    ("hat",
     [mkMapping "beanie" 0.6 None]);
    ("toy",
     [mkMapping "labubu" 0.4 None;
      mkMapping "designer toy" 0.7 None;
      mkMapping "collectible" 0.6 None]);
    ("figurine",
     [mkMapping "labubu" 0.5 None;
      mkMapping "collectible figure" 0.8 None;
      mkMapping "art toy" 0.7 None]);
    ("doll",
     [mkMapping "labubu" 0.6 None;
      mkMapping "designer toy" 0.5 None]);
    ("collectible",
     [mkMapping "labubu" 0.4 None;
      mkMapping "art toy" 0.6 None]);
    ("laptop",
     [mkMapping "macbook" 0.7 (Some (textHas ["apple"; "mac"]))]);
    ("headphones",
     [mkMapping "airpods" 0.6 (Some (textHas ["wireless"; "apple"]))]);
    ("water bottle",
     [mkMapping "stanley cup" 0.4 None;
      mkMapping "tumbler" 0.6 None]);
    ("camera",
     [mkMapping "film camera" 0.7 (Some (textHas ["vintage"; "analog"]));
      mkMapping "vintage camera" 0.8 None]);
    ("plant",
     [mkMapping "monstera" 0.3 None;
      mkMapping "fiddle leaf fig" 0.2 None;
      mkMapping "succulent" 0.4 None]);
    ("houseplant",
     [mkMapping "monstera" 0.4 None;
      mkMapping "fiddle leaf fig" 0.3 None;
      mkMapping "succulent" 0.5 None]);
    ("food",
     [mkMapping "avocado toast" 0.3 (Some (textHas ["avocado"; "toast"]));
      mkMapping "croissant" 0.4 None;
      mkMapping "acai bowl" 0.3 None]);
    ("pastry",
     [mkMapping "croissant" 0.8 None]);
    ("exercise mat",
     [mkMapping "yoga mat" 0.9 None]);
    ("supplement",
     [mkMapping "protein shake" 0.6 None;
      mkMapping "protein powder" 0.7 None]);
    ("music",
     [mkMapping "vinyl records" 0.4 None;
      mkMapping "indie music" 0.5 None]);
    ("album",
     [mkMapping "vinyl record" 0.7 None;
      mkMapping "indie album" 0.6 None]);
    ("record",
     [mkMapping "vinyl record" 0.8 None]);
    ("audio equipment",
     [mkMapping "turntable" 0.7 None;
      mkMapping "record player" 0.8 None]);
    ("person",
     [mkMapping "indie artist" 0.2 (Some musicContext)]);
    ("woman",
     [mkMapping "female artist" 0.3 (Some musicContext)]);
    ("performer",
     [mkMapping "indie artist" 0.6 None]);
    ("musician",
     [mkMapping "indie artist" 0.7 None]);
    ("singer",
     [mkMapping "indie artist" 0.7 None]);
    ("artist",
     [mkMapping "indie artist" 0.5 None]);
    ("book",
     [mkMapping "feminist literature" 0.3 (Some (textHas ["feminist"; "women"]));
      mkMapping "indie literature" 0.4 None;
      mkMapping "poetry" 0.3 None]);
    ("novel",
     [mkMapping "literary fiction" 0.6 None;
      mkMapping "indie novel" 0.5 None]);
    ("literature",
     [mkMapping "feminist literature" 0.5 None;
      mkMapping "contemporary literature" 0.4 None])
  ]%Q.

Definition semanticMap : list (string * list Mapping) :=
  of_literal semanticMapLiteral.

Record SemanticMatch := mkSemantic {
  sem_keyword : string;
  sem_score : Q;
  sem_points : Q
}.

(** The [forEach] over the mappings of one generic label. *)
Fixpoint collectMappings (items : list (string * Q)) (labelText : string)
    (allLabels : list (string + Annotation)) (mappings : list Mapping)
  : Exn + list SemanticMatch :=
  match mappings with
  | [] => inr []
  | mapping :: rest =>
      holds ← match condition mapping with
              | None => inr true
              | Some c => c labelText allLabels
              end;
      more ← collectMappings items labelText allLabels rest;
      inr (if holds : bool
           then mkSemantic (map_keyword mapping) (map_score mapping)
                  (default 0%Q (obj_get (map_keyword mapping) items)) :: more
           else more)
  end.

(** [getSemanticMatches(labelText, allLabels)].  [semanticMap[labelText]]
    on an inherited key is truthy and has no [forEach]. *)
Definition getSemanticMatches (items : list (string * Q)) (labelText : string)
    (allLabels : list Annotation) : Exn + list SemanticMatch :=
  matches ← match obj_get labelText semanticMap with
            | Some mappings =>
                collectMappings items labelText (map describe allLabels) mappings
            | None =>
                if inherited labelText
                then inl (TypeError "semanticMap[labelText].forEach is not a function")
                else inr []
            end;
  inr (filter (fun m => Qgtb (sem_points m) 0 = true) matches).

(** ** Edit distance *)

(** [s.charAt(i)]; out of range ([None]) stands for the empty string. *)
Definition charAt (s : string) (i : nat) : option ascii := String.get i s.

Definition same_unit (a b : option ascii) : bool := bool_decide (a = b).

(** [matrix[i][j]]: the array of rows as a finite map on (row, column). *)
Definition cell (matrix : gmap (nat * nat) nat) (i j : nat) : nat :=
  matrix !!! (i, j).

(** The body of the inner loop of [levenshteinDistance]. *)
Definition fillCell (str1 str2 : string) (i : nat)
    (matrix : gmap (nat * nat) nat) (j : nat) : gmap (nat * nat) nat :=
  if same_unit (charAt str2 (i - 1)) (charAt str1 (j - 1))
  then <[(i, j) := cell matrix (i - 1) (j - 1)]> matrix
  else <[(i, j) := Nat.min (cell matrix (i - 1) (j - 1) + 1)
                     (Nat.min (cell matrix i (j - 1) + 1)
                              (cell matrix (i - 1) j + 1))]> matrix.

Definition fillRow (str1 str2 : string)
    (matrix : gmap (nat * nat) nat) (i : nat) : gmap (nat * nat) nat :=
  fold_left (fillCell str1 str2 i) (seq 1 (String.length str1)) matrix.

Definition initMatrix (str1 str2 : string) : gmap (nat * nat) nat :=
  let matrix := fold_left (fun m i => <[(i, 0%nat) := i]> m)
                  (seq 0 (S (String.length str2))) ∅ in
  fold_left (fun m j => <[(0%nat, j) := j]> m)
    (seq 0 (S (String.length str1))) matrix.

(** [levenshteinDistance(str1, str2)]. *)
Definition levenshteinDistance (str1 str2 : string) : nat :=
  let matrix := fold_left (fillRow str1 str2)
                  (seq 1 (String.length str2)) (initMatrix str1 str2) in
  cell matrix (String.length str2) (String.length str1).

(** The recurrence the matrix is filled by: entry ([i], [j]) in terms
    of the entries above and to the left.  Used to reason about
    [levenshteinDistance]; the source has no such function. *)
Fixpoint distanceTable (str1 str2 : string) (i : nat) : nat -> nat :=
  match i with
  | O => fun j => j
  | S i' =>
      fix row (j : nat) : nat :=
        match j with
        | O => S i'
        | S j' =>
            if same_unit (charAt str2 i') (charAt str1 j')
            then distanceTable str1 str2 i' j'
            else Nat.min (distanceTable str1 str2 i' j' + 1)
                   (Nat.min (row j' + 1) (distanceTable str1 str2 i' (S j') + 1))
        end
  end.

(** [calculateStringSimilarity(str1, str2)]. *)
Definition calculateStringSimilarity (str1 str2 : string) : Q :=
  let longer :=
    if (String.length str2 <? String.length str1)%nat then str1 else str2 in
  let shorter :=
    if (String.length str2 <? String.length str1)%nat then str2 else str1 in
  if (String.length longer =? 0)%nat then 1.0
  else
    let distance := levenshteinDistance longer shorter in
    (inject_Z (Z.of_nat (String.length longer) - Z.of_nat distance)
     / inject_Z (Z.of_nat (String.length longer)))%Q.

(** ** [findMatches] *)

(** [matches.sort((a, b) => b.matchScore - a.matchScore)]: a stable
    sort, larger scores first. *)
Fixpoint insertByScore (m : Match.t) (sorted : list Match.t) : list Match.t :=
  match sorted with
  | [] => [m]
  | m' :: rest =>
      if Qgtb (Match.matchScore m') (Match.matchScore m)
      then m' :: insertByScore m rest
      else m :: sorted
  end.

Definition sortByScore (matches : list Match.t) : list Match.t :=
  fold_right insertByScore [] matches.

(** The fuzzy pass over [Object.entries(this.performativeItems)]. *)
Definition partialMatches (items : list (string * Q)) (labelText : string)
    (confidence : Q) : list Match.t :=
  flat_map (fun kv =>
              let keyword := fst kv in
              let points := snd kv in
              let similarity := calculateStringSimilarity labelText keyword in
              if Qgtb similarity 0.5
              then [Match.mk keyword partial similarity
                      (Math_round (times (times points confidence) similarity))]
              else [])
           items.

(** [findMatches(labelText, confidence, allLabels)]. *)
Definition findMatches (items : list (string * Q)) (labelText : string)
    (confidence : Q) (allLabels : list Annotation) : Exn + list Match.t :=
  match obj_get labelText items with
  | Some weight =>
      inr [Match.mk labelText exact 1.0 (Math_round (times weight confidence))]
  | None =>
      semanticMatches ← getSemanticMatches items labelText allLabels;
      let matches :=
        map (fun m => Match.mk (sem_keyword m) semantic (sem_score m)
                        (Math_round (times (times (sem_points m) confidence)
                                              (sem_score m))))
            semanticMatches in
      let matches :=
        if (length matches =? 0)%nat
        then partialMatches items labelText confidence
        else matches in
      inr (take 3 (sortByScore matches))
  end.

(** ** Text patterns *)

Definition textPatterns : list (string * Z) :=
  of_literal [
    ("new yorker", 20); ("the new yorker", 20); ("criterion", 19);
    ("a24", 22); ("penguin classics", 18); ("verso", 17); ("mcsweeney", 16);
    ("blue bottle", 16); ("intelligentsia", 15); ("stumptown", 14);
    ("counter culture", 13); ("whole foods", 12); ("trader joe", 10);
    ("patagonia", 14); ("everlane", 15); ("uniqlo", 11); ("muji", 13);
    ("cos", 12); ("arket", 11); ("apple", 10); ("macbook", 12);
    ("iphone", 8); ("airpods", 9); ("david foster wallace", 20);
    ("zadie smith", 18); ("elena ferrante", 17);
    (("knausg" ++ String "229"%char "rd"), 19); ("karl ove", 19);
    ("sally rooney", 16); ("ocean vuong", 15); ("joan didion", 17);
    ("susan sontag", 18); ("haruki murakami", 14); ("normal people", 16);
    ("conversations with friends", 15); ("my struggle", 19);
    ("outline", 17); ("transit", 16); ("kudos", 16);
    ("simone de beauvoir", 19); ("the second sex", 19); ("bell hooks", 18);
    ("all about love", 17); ("feminism is for everybody", 18);
    ("audre lorde", 18); ("sister outsider", 17); ("roxane gay", 16);
    ("bad feminist", 16); ("hunger", 15); ("chimamanda ngozi adichie", 17);
    ("we should all be feminists", 17); ("americanah", 16);
    ("margaret atwood", 15); ("the handmaids tale", 16); ("cat's eye", 14);
    ("sylvia plath", 17); ("the bell jar", 17); ("ariel", 16);
    ("virginia woolf", 18); ("a room of one's own", 18);
    ("mrs dalloway", 16); ("to the lighthouse", 15); ("toni morrison", 17);
    ("beloved", 16); ("the bluest eye", 15); ("song of solomon", 15);
    ("maya angelou", 15); ("i know why the caged bird sings", 15);
    ("adrienne rich", 16); ("diving into the wreck", 16);
    ("naomi wolf", 14); ("the beauty myth", 14); ("gloria steinem", 15);
    ("my life on the road", 14); ("rebecca solnit", 17);
    ("men explain things to me", 18); ("hope in the dark", 16);
    ("maggie nelson", 18); ("the argonauts", 18); ("bluets", 17);
    ("anne carson", 19); ("autobiography of red", 19); ("nox", 18);
    ("jenny holzer", 16); ("truisms", 16); ("kathy acker", 17);
    ("blood and guts in high school", 17); ("chris kraus", 18);
    ("i love dick", 18); ("eileen myles", 17); ("chelsea girls", 17);
    ("jia tolentino", 16); ("trick mirror", 16); ("ottessa moshfegh", 15);
    ("my education", 15); ("eileen", 14); ("rachel cusk", 17);
    ("outline trilogy", 17); ("a life's work", 16); ("jenny offill", 16);
    ("dept of speculation", 16); ("weather", 15); ("lydia davis", 17);
    ("the collected stories", 17); ("sheila heti", 16);
    ("how should a person be", 16); ("motherhood", 15);
    ("miranda july", 16); ("the first bad man", 16);
    ("no one belongs here more than you", 15); ("n+1", 19);
    ("paris review", 18); ("granta", 17); ("london review", 18);
    ("artforum", 16); ("frieze", 15); ("monocle", 14); ("pitchfork", 15);
    ("the fader", 14); ("rolling stone", 10); ("taylor swift", 18);
    ("clairo", 20); ("claire cottrill", 20); ("phoebe bridgers", 19);
    ("mitski", 18); ("fiona apple", 17); ("joni mitchell", 16);
    ("bjork", 15); ("lana del rey", 14); ("solange", 16);
    ("japanese breakfast", 18); ("soccer mommy", 17); ("snail mail", 16);
    ("boygenius", 19); ("lucy dacus", 17); ("julien baker", 18);
    ("big thief", 16); ("angel olsen", 15); ("cat power", 14);
    ("beach house", 15); ("grimes", 13); ("st vincent", 16);
    ("perfume genius", 17); ("weyes blood", 16); ("king woman", 15);
    ("frankie cosmos", 15); ("girlpool", 16); ("y la bamba", 14);
    ("waxahatchee", 17); ("courtney barnett", 15); ("sharon van etten", 16);
    ("patti smith", 17); ("kim deal", 16); ("kim gordon", 17);
    ("thurston moore", 15); ("sonic youth", 16); ("labubu", 20);
    ("pop mart", 18); ("sonny angel", 16); ("molly", 15); ("kaws", 17);
    ("bearbrick", 16); ("funko", 12); ("designer toy", 18); ("art toy", 17);
    ("collectible figure", 16); ("matcha", 15); ("matcha latte", 17);
    ("green tea latte", 16); ("ceremonial matcha", 18);
    ("oat milk matcha", 19); ("sub pop", 16); ("matador", 17);
    ("merge", 15); ("domino", 14); ("rough trade", 16); ("4ad", 17);
    ("kranky", 15); ("constellation", 16); ("thrill jockey", 15);
    ("drag city", 16)
  ].

(** [annotation.description || '']. *)
Definition descriptionOrEmpty (a : Annotation) : string :=
  default "" (description a).

(** A value inside a template string. *)
Definition interpolate (d : option string) : string :=
  default "undefined" d.

(** [processTextAnnotations(textAnnotations)]. *)
Definition processTextAnnotations (textAnnotations : list Annotation)
  : list Item.t :=
  let allText :=
    toLowerCase (join " " (map descriptionOrEmpty textAnnotations)) in
  flat_map
    (fun entry =>
       let pattern := fst entry in
       let points := snd entry in
       if includes allText pattern
       then [Item.mk pattern points 0.9 text
               ("Text: " ++ dquote ++ pattern ++ dquote) None]
       else
         let patternWords := split " " pattern in
         if (length patternWords =? 1)%nat
         then flat_map
                (fun annotation =>
                   let text := toLowerCase (descriptionOrEmpty annotation) in
                   if includes text pattern
                      && (String.length text <=? String.length pattern + 3)%nat
                   then [Item.mk pattern (Math_round (inject_Z points * 0.8)) 0.8
                           text_partial
                           ("Text: " ++ dquote
                              ++ interpolate (description annotation) ++ dquote)
                           None]
                   else [])
                textAnnotations
         else [])
    textPatterns.

(** ** Contextual adjustments *)

Definition synergies : list (list string * Z * string) :=
  [(["tote bag"; "book"], 8, "Literary aesthetic combo");
   (["film camera"; "vintage"], 6, "Nostalgic photography aesthetic");
   (["matcha"; "oat milk"], 5, "Peak alternative beverage combo");
   (["beanie"; "tote bag"], 4, "Indie boy starter pack");
   (["macbook"; "coffee"], 3, "Digital nomad aesthetic");
   (["yoga mat"; "plant"], 4, "Wellness lifestyle combo");
   (["vinyl"; "clairo"], 7, "Indie music connoisseur aesthetic");
   (["book"; "feminist"], 6, "Performative feminist reading");
   (["tote bag"; "feminist literature"], 8,
    "Peak performative male feminist aesthetic");
   (["coffee"; "book"; "female author"], 5, "Intellectual feminist ally vibes");
   (["vinyl records"; "female artist"], 6,
    "Supporting female musicians (performatively)")].

(** [synergy.items.every(item => itemNames.some(detected =>
    detected.includes(item) || item.includes(detected)))]. *)
Definition hasAllItems (itemNames : list string) (items : list string) : bool :=
  forallb (fun item =>
             existsb (fun detected => includes detected item || includes item detected)
                     itemNames)
          items.

(** Each penalty: the terms its condition looks for in the label
    texts, the (negative) penalty and the reason. *)
Definition contextPenalties : list (list string * Z * string) :=
  [(["gym"; "workout"; "fitness"; "muscle"; "bodybuilding"], -5,
    "Traditional gym culture detected");
   (["gaming"; "video game"; "controller"; "xbox"; "playstation"], -3,
    "Gaming culture detected");
   (["suit"; "tie"; "formal"; "business"], -4, "Corporate aesthetic detected")].

(** [allLabelTexts.some(label => terms.some(term => label.includes(term)))]. *)
Definition penaltyCondition (allLabelTexts : list string) (terms : list string) : bool :=
  existsb (fun label => existsb (fun term => includes label term) terms)
          allLabelTexts.

Definition categories : list (string * list string) :=
  [("beverages", ["matcha"; "coffee"; "tea"; "kombucha"; "oat milk"]);
   ("fashion", ["tote bag"; "beanie"; "sunglasses"; "boots"]);
   ("tech", ["macbook"; "airpods"; "film camera"]);
   ("lifestyle", ["yoga mat"; "plant"; "book"; "candle"]);
   ("music", ["vinyl"; "clairo"; "phoebe bridgers"; "mitski"; "taylor swift";
              "record player"]);
   ("literature", ["feminist"; "sally rooney"; "joan didion"; "susan sontag";
                   "book"; "novel"]);
   ("cultural", ["new yorker"; "criterion"; "a24"; "pitchfork"; "paris review"])].

(** [allLabels.map(label => label.description.toLowerCase())]: a label
    without a description has nothing to call [toLowerCase] on. *)
Fixpoint labelTexts (allLabels : list Annotation) : Exn + list string :=
  match allLabels with
  | [] => inr []
  | label :: rest =>
      match description label with
      | None =>
          inl (TypeError "Cannot read properties of undefined (reading 'toLowerCase')")
      | Some d => texts ← labelTexts rest; inr (toLowerCase d :: texts)
      end
  end.

Definition synergyBonus (itemNames : list string) : Z * list string :=
  fold_left (fun acc synergy =>
               if hasAllItems itemNames (fst (fst synergy))
               then (fst acc + snd (fst synergy), snd acc ++ [snd synergy])%list
               else acc)
            synergies (0, []).

Definition penaltyTotal (allLabelTexts : list string) (acc : Z * list string)
  : Z * list string :=
  fold_left (fun acc penalty =>
               if penaltyCondition allLabelTexts (fst (fst penalty))
               then (fst acc + snd (fst penalty), snd acc ++ [snd penalty])%list
               else acc)
            contextPenalties acc.

Definition categoriesRepresented (itemNames : list string) : list string :=
  map fst
    (List.filter (fun category =>
                    existsb (fun item => existsb (String.eqb item) itemNames)
                            (snd category))
                 categories).

Definition highConfidenceItems (detectedItems : list Item.t) : list Item.t :=
  List.filter (fun item => Qgtb (Item.confidence item) 0.85
                           && (10 <=? Item.points item))
              detectedItems.

(** [calculateContextualAdjustments(detectedItems, allLabels)]: the
    adjustment and the reason. *)
Definition calculateContextualAdjustments (detectedItems : list Item.t)
    (allLabels : list Annotation) : Exn + (Z * string) :=
  let itemNames := map Item.item detectedItems in
  allLabelTexts ← labelTexts allLabels;
  let acc := synergyBonus itemNames in
  let acc := penaltyTotal allLabelTexts acc in
  let represented := length (categoriesRepresented itemNames) in
  let acc :=
    if (3 <=? represented)%nat
    then (fst acc + 6, snd acc ++ ["Multi-category performative lifestyle"])%list
    else if (represented =? 2)%nat
    then (fst acc + 3, snd acc ++ ["Cross-category aesthetic awareness"])%list
    else acc in
  let acc :=
    if (2 <=? length (highConfidenceItems detectedItems))%nat
    then (fst acc + 4,
          snd acc ++ ["High-confidence performative items detected"])%list
    else acc in
  let reason := join "; " (snd acc) in
  inr (Math_round (inject_Z (fst acc)),
       if truthy reason then reason else "No contextual adjustments").

(** ** The verdict *)

(** [Object.keys(this.scoreMessages).map(Number).sort((a, b) => b - a)]. *)
Fixpoint insertDescending (x : Z) (sorted : list Z) : list Z :=
  match sorted with
  | [] => [x]
  | y :: rest => if x <? y then y :: insertDescending x rest else x :: sorted
  end.

Definition scoreRanges : list Z :=
  fold_right insertDescending [] (map fst scoreMessages).

Definition messageAt (threshold : Z) : string :=
  default "undefined"
    (snd <$> List.find (fun entry => fst entry =? threshold) scoreMessages).

(** [generateMessage(score)]. *)
Definition generateMessage (score : Z) : string :=
  match List.find (fun threshold => threshold <=? score) scoreRanges with
  | Some threshold => messageAt threshold
  | None => messageAt 0
  end.

(** ** [calculateRating] *)

(** The locals the two passes of [calculateRating] update.  Of the
    [usedKeywords] map only the key set is ever consulted. *)
Record Scan := mkScan {
  totalScore : Z;
  usedKeywords : gset string;
  detectedItems : list Item.t
}.

(** The body of [textMatches.forEach]. *)
Definition addTextMatch (st : Scan) (m : Item.t) : Scan :=
  let keywordKey := "text:" ++ Item.item m in
  if bool_decide (keywordKey ∈ usedKeywords st) then st
  else {| totalScore := totalScore st + Item.points m;
          usedKeywords := {[keywordKey]} ∪ usedKeywords st;
          detectedItems := (detectedItems st ++ [m])%list |}.

(** The body of [matches.forEach] for the label [description]. *)
Definition addLabelMatch (description labelText : string) (confidence : Q)
    (st : Scan) (m : Match.t) : Scan :=
  let keywordKey := "label:" ++ Match.keyword m ++ ":" ++ labelText in
  if bool_decide (keywordKey ∈ usedKeywords st) then st
  else {| totalScore := totalScore st + Match.adjustedPoints m;
          usedKeywords := {[keywordKey]} ∪ usedKeywords st;
          detectedItems :=
            (detectedItems st
               ++ [Item.mk (Match.keyword m) (Match.adjustedPoints m) confidence
                     (Match.matchType m) description
                     (Some (Match.matchScore m))])%list |}.

(** The body of [labels.forEach]. *)
Definition processLabel (items : list (string * Q)) (labels : list Annotation)
    (st : Scan) (label : Annotation) : Exn + Scan :=
  match description label with
  | None => inr st
  | Some d =>
      if negb (truthy d) then inr st
      else
        let labelText := trim (toLowerCase d) in
        let confidence := default 0%Q (score label) in
        matches ← findMatches items labelText confidence labels;
        inr (fold_left (addLabelMatch d labelText confidence) matches st)
  end.

Fixpoint forEachLabel (items : list (string * Q)) (labels : list Annotation)
    (rest : list Annotation) (st : Scan) : Exn + Scan :=
  match rest with
  | [] => inr st
  | label :: rest' =>
      st' ← processLabel items labels st label;
      forEachLabel items labels rest' st'
  end.

(** The first argument of [calculateRating]. *)
Inductive LabelsArg := NotAnArray | LabelArray (labels : list Annotation).

(** [options.textAnnotations] when it is an array. *)
Record Options := mkOptions { optTextAnnotations : option (list Annotation) }.

(** Both passes: OCR matches first, then the labels in input order. *)
Definition scan (items : list (string * Q)) (labels : list Annotation)
    (options : Options) : Exn + Scan :=
  let st := mkScan 0 ∅ [] in
  let st :=
    match optTextAnnotations options with
    | Some textAnnotations =>
        fold_left addTextMatch (processTextAnnotations textAnnotations) st
    | None => st
    end in
  forEachLabel items labels labels st.

Module OutItem.
Record t := mk {
  item : string;
  points : Z;
  confidence : Q;
  matchType : MatchType;
  originalLabel : option string
}.
End OutItem.

Record Metadata := mkMetadata {
  totalLabelsProcessed : nat;
  performativeItemsFound : nat;
  rawScore : Z;
  cappedScore : Z
}.

Record RatingResult := mkResult {
  result_score : Z;
  message : string;
  result_detectedItems : list OutItem.t;
  metadata : Metadata
}.

Definition outItem (item : Item.t) : OutItem.t :=
  OutItem.mk (Item.item item) (Item.points item)
    (inject_Z (Math_round (times (Item.confidence item) 100)) / 100)%Q
    (Item.matchType item)
    (if truthy (Item.originalLabel item) then Some (Item.originalLabel item)
     else None).

(** [calculateRating(labels, options)] on the dictionary [items]. *)
Definition calculateRating (items : list (string * Q)) (labels : LabelsArg)
    (options : Options) : Exn + RatingResult :=
  match labels with
  | NotAnArray => inl (Error "Labels must be an array")
  | LabelArray labels =>
      st ← scan items labels options;
      contextAdjustment ← calculateContextualAdjustments (detectedItems st) labels;
      let totalScore := totalScore st + fst contextAdjustment in
      let finalScore := Z.min totalScore 100 in
      inr {| result_score := finalScore;
             message := generateMessage finalScore;
             result_detectedItems := map outItem (detectedItems st);
             metadata :=
               {| totalLabelsProcessed := length labels;
                  performativeItemsFound := length (detectedItems st);
                  rawScore := totalScore;
                  cappedScore := finalScore |} |}
  end.

(** ** Updating the dictionary *)

(** A property value: a finite number, [NaN], [Infinity] or
    [-Infinity] (all of type number), or a value of another type. *)
Inductive JsValue :=
| JsNumber (q : Q)
| JsNaN
| JsInfinity (positive : bool)
| NotANumber.

(** [score < 0] and [score > 100] on a value of type number; both
    are false of [NaN]. *)
Definition belowZero (value : JsValue) : bool :=
  match value with
  | JsNumber score => Qltb score 0
  | JsInfinity positive => negb positive
  | JsNaN | NotANumber => false
  end.

Definition aboveHundred (value : JsValue) : bool :=
  match value with
  | JsNumber score => Qgtb score 100
  | JsInfinity positive => positive
  | JsNaN | NotANumber => false
  end.

(** [typeof score !== 'number']. *)
Definition notOfTypeNumber (value : JsValue) : bool :=
  match value with
  | NotANumber => true
  | _ => false
  end.

(** The argument of [updatePerformativeItems]: a non-null object, by
    its entries in enumeration order, or anything else. *)
Inductive NewItemsArg := NotAnObject | ObjectOf (entries : list (string * JsValue)).

Definition invalidScore (item : string) : Exn :=
  Error ("Invalid score for item " ++ dquote ++ item ++ dquote
         ++ ": must be a number between 0 and 100").

(** The [for ... of Object.entries(newItems)] loop on the dictionary
    object [items]: the exception it ends with, if any, and the
    dictionary it leaves. *)
Fixpoint updateLoop (entries : list (string * JsValue))
    (items : list (string * JsValue))
  : option Exn * list (string * JsValue) :=
  match entries with
  | [] => (None, items)
  | (item, score) :: rest =>
      if notOfTypeNumber score || belowZero score || aboveHundred score
      then (Some (invalidScore item), items)
      else updateLoop rest (obj_set (toLowerCase item) score items)
  end.

(** [updatePerformativeItems(newItems)] on the dictionary [items]. *)
Definition updatePerformativeItems (newItems : NewItemsArg)
    (items : list (string * JsValue)) : option Exn * list (string * JsValue) :=
  match newItems with
  | NotAnObject => (Some (Error "New items must be an object"), items)
  | ObjectOf entries => updateLoop entries items
  end.

(** ** Introspection *)

(** [getPerformativeItems()]: a shallow copy of the dictionary. *)
Definition getPerformativeItems (items : list (string * Q)) : list (string * Q) :=
  items.

(** [Math.max(...scores)] and [Math.min(...scores)]; on no arguments
    they are [-Infinity] and [Infinity], here [None]. *)
Definition Math_max (scores : list Q) : option Q :=
  match scores with
  | [] => None
  | s :: rest => Some (fold_left (fun m x => if Qltb m x then x else m) rest s)
  end.

Definition Math_min (scores : list Q) : option Q :=
  match scores with
  | [] => None
  | s :: rest => Some (fold_left (fun m x => if Qltb x m then x else m) rest s)
  end.

Record ScoreDistribution := mkDistribution {
  low : nat;
  medium : nat;
  high : nat;
  veryHigh : nat
}.

(** The result of [getStatistics()]; [averageScore] is [None] where
    the source computes [NaN] (an empty dictionary). *)
Record Statistics := mkStatistics {
  totalItems : nat;
  averageScore : option Q;
  maxScore : option Q;
  minScore : option Q;
  scoreDistribution : ScoreDistribution
}.

Definition countScores (p : Q -> bool) (scores : list Q) : nat :=
  length (List.filter p scores).

(** [getStatistics()] on the dictionary [items]. *)
Definition getStatistics (items : list (string * Q)) : Statistics :=
  let scores := map snd items in
  let itemCount := length scores in
  let averageScore :=
    if (itemCount =? 0)%nat then None
    else Some (fold_left Qplus scores 0 / inject_Z (Z.of_nat itemCount))%Q in
  {| totalItems := itemCount;
     averageScore :=
       (fun a => inject_Z (Math_round (a * 100)) / 100)%Q <$> averageScore;
     maxScore := Math_max scores;
     minScore := Math_min scores;
     scoreDistribution :=
       {| low := countScores (fun s => Qle_bool s 5) scores;
          medium := countScores (fun s => Qgtb s 5 && Qle_bool s 10) scores;
          high := countScores (fun s => Qgtb s 10 && Qle_bool s 15) scores;
          veryHigh := countScores (fun s => Qgtb s 15) scores |} |}.

Record Validation := mkValidation {
  isValid : bool;
  performativeItemsCount : nat;
  scoreMessagesCount : nat;
  hasValidScores : bool
}.

(** [typeof score === 'number' && score >= 0 && score <= 100]. *)
Definition scoreInRange (value : JsValue) : bool :=
  match value with
  | JsNumber score => Qle_bool 0 score && Qle_bool score 100
  | JsNaN | JsInfinity _ | NotANumber => false
  end.

(** [validateConfiguration()] on the dictionary object [items]. *)
Definition validateConfiguration (items : list (string * JsValue)) : Validation :=
  let itemCount := length items in
  let messageCount := length scoreMessages in
  {| isValid := (0 <? itemCount)%nat && (0 <? messageCount)%nat;
     performativeItemsCount := itemCount;
     scoreMessagesCount := messageCount;
     hasValidScores := forallb scoreInRange (map snd items) |}.

(** The dictionary object whose values are the numbers of [items], and
    the numbers of a dictionary object when all its values are finite
    numbers: the scoring functions are modelled on these. *)
Definition stored (items : list (string * Q)) : list (string * JsValue) :=
  map (fun entry => (fst entry, JsNumber (snd entry))) items.

Fixpoint numbers (items : list (string * JsValue)) : option (list (string * Q)) :=
  match items with
  | [] => Some []
  | (key, JsNumber score) :: rest =>
      rest' ← numbers rest; Some ((key, score) :: rest')
  | _ => None
  end.

End RatingService.

(* ===================================================================== *)
(** * Notions used to state the properties *)
(* ===================================================================== *)

Section VisionNotions.
Import VisionService.

(** A run of failed calls, recorded at the given times. *)
Definition recordFailures (times : list Z) (cb : CircuitBreaker) : CircuitBreaker :=
  fold_left (fun cb t => recordFailure t cb) times cb.

(** A run of [n] successful calls. *)
Definition recordSuccesses (n : nat) (cb : CircuitBreaker) : CircuitBreaker :=
  Nat.iter n recordSuccess cb.

(** A run of [n] calls of [analyzeImage] on an empty buffer. *)
Definition runCalls (provider : nat -> Reply) (n : nat) (s : St) : St :=
  Nat.iter n (fun s => snd (analyzeImage provider (IsBuffer []) s)) s.

(** The breaker as the tests force it open, last failure at time 1000. *)
Definition openBreaker : CircuitBreaker :=
  {| state := OPEN; failureCount := 5; failureThreshold := 5;
     resetTimeout := 60000; lastFailureTime := Some 1000;
     successCount := 0; halfOpenSuccessThreshold := 2 |}.

Definition halfOpenBreaker : CircuitBreaker :=
  set_successCount 0 (set_state HALF_OPEN openBreaker).

Definition unavailable : Reply :=
  {| settlement := Rejects (mkError "Service unavailable" None); latency := 120 |}.

(** The provider rejecting every call with an authentication error, as
    in the test "should not retry on non-retryable errors". *)
Definition unauthenticated : Reply :=
  {| settlement := Rejects (mkError "UNAUTHENTICATED: Invalid credentials"
                                    (Some "UNAUTHENTICATED"));
     latency := 80 |}.

End VisionNotions.

Section Contributions.
Import JSString RatingService.

(** What identifies a contribution to the score. *)
Definition triple (d : Item.t) : MatchType * string * string :=
  (Item.matchType d, Item.item d, Item.originalLabel d).

(** The deduplication key [calculateRating] uses for a contribution
    with the given triple. *)
Definition keyOf (t : MatchType * string * string) : string :=
  match t with
  | (ty, keyword, source) =>
      match ty with
      | text | text_partial => "text:" ++ keyword
      | _ => "label:" ++ keyword ++ ":" ++ trim (toLowerCase source)
      end
  end.

Definition sumPoints (ds : list Item.t) : Z :=
  fold_right (fun d acc => Item.points d + acc) 0 ds.

Definition isTextType (ty : MatchType) : Prop := ty = text \/ ty = text_partial.
Definition isLabelType (ty : MatchType) : Prop :=
  ty = exact \/ ty = semantic \/ ty = partial.

(** What the two passes maintain: the running total is the sum of the
    recorded contributions, their keys are pairwise distinct and all
    in [usedKeywords]. *)
Definition scanInvariant (st : Scan) : Prop :=
  totalScore st = sumPoints (detectedItems st)
  /\ List.NoDup (map (fun d => keyOf (triple d)) (detectedItems st))
  /\ (forall d, In d (detectedItems st) -> keyOf (triple d) ∈ usedKeywords st).

End Contributions.

Section DictionaryUpdates.
Import JSString JSObject RatingService.

(** A weight [updatePerformativeItems] accepts: of type number, not
    below 0 and not above 100; [NaN] is such a weight. *)
Definition validScore (value : JsValue) : bool :=
  negb (notOfTypeNumber value || belowZero value || aboveHundred value).

(** The entries enumerated before the first one with an invalid weight. *)
Fixpoint validPrefix (entries : list (string * JsValue)) : list (string * JsValue) :=
  match entries with
  | [] => []
  | (item, value) :: rest =>
      if validScore value then (item, value) :: validPrefix rest else []
  end.

(** The key of the first entry with an invalid weight. *)
Fixpoint firstInvalid (entries : list (string * JsValue)) : option string :=
  match entries with
  | [] => None
  | (item, value) :: rest =>
      if validScore value then firstInvalid rest else Some item
  end.

(** Assigning each entry, in order, under its lower-cased key. *)
Definition mergeEntries (entries : list (string * JsValue))
    (items : list (string * JsValue)) : list (string * JsValue) :=
  fold_left (fun o entry => obj_set (toLowerCase (fst entry)) (snd entry) o)
            entries items.

(** The weight of the last entry whose lower-cased key is [k]. *)
Fixpoint lastWeight (k : string) (entries : list (string * JsValue))
  : option JsValue :=
  match entries with
  | [] => None
  | (item, score) :: rest =>
      match lastWeight k rest with
      | Some later => Some later
      | None => if String.eqb k (toLowerCase item) then Some score else None
      end
  end.

End DictionaryUpdates.

Section Scenarios.
Import RatingService.

(** A label as the provider returns it. *)
Definition label (text : string) (confidence : Q) : Annotation :=
  mkAnnotation (Some text) (Some confidence).

Definition noOptions : Options := mkOptions None.

(** Scenario B of the specification. *)
Definition scenarioB : list Annotation := [label "matcha" 1.0; label "tote bag" 1.0].

(** What a detected item shows of itself. *)
Definition summary (i : OutItem.t) : string * MatchType * Z :=
  (OutItem.item i, OutItem.matchType i, OutItem.points i).

(** A label match of the result recorded with the description [d]. *)
Definition labelMatchFor (d : string) (o : OutItem.t) : bool :=
  match OutItem.matchType o with
  | exact | semantic | partial => bool_decide (OutItem.originalLabel o = Some d)
  | text | text_partial => false
  end.

End Scenarios.

Section MatchNotions.
Import JSObject RatingService.

(** A match that does not score higher than the one before it. *)
Definition notHigher (before after : Match.t) : Prop :=
  (Match.matchScore after <= Match.matchScore before)%Q.

(** The generic labels of the semantic table, checked against the
    installed dictionary: the label is a key of it, or none of its
    specific keywords has a positive weight in it. *)
Definition shadowedOrEmpty (entry : string * list Mapping) : bool :=
  obj_has (fst entry) performativeItems
  || forallb (fun mapping =>
                negb (Qgtb (default 0%Q (obj_get (map_keyword mapping)
                                           performativeItems)) 0))
             (snd entry).

End MatchNotions.

Section TextNotions.
Import JSString RatingService.

(** The item reported for a phrase of the text dictionary found in the
    text. *)
Definition textItem (entry : string * Z) : Item.t :=
  Item.mk (fst entry) (snd entry) 0.9 text
    ("Text: " ++ dquote ++ fst entry ++ dquote) None.

(** The lower-cased concatenation of the spans that the phrases are
    looked up in. *)
Definition allTextOf (textAnnotations : list Annotation) : string :=
  toLowerCase (join " " (map descriptionOrEmpty textAnnotations)).

(** No string occurs twice in the list. *)
Fixpoint distinctStrings (l : list string) : bool :=
  match l with
  | [] => true
  | s :: rest => negb (existsb (String.eqb s) rest) && distinctStrings rest
  end.

End TextNotions.

Section AdjustmentNotions.

(** The most a list of bonus rules can add, and the most it can take. *)
Definition mostAdded {R} (amount : R -> Z) (rules : list R) : Z :=
  fold_right (fun r total => Z.max 0 (amount r) + total) 0 rules.

Definition mostTaken {R} (amount : R -> Z) (rules : list R) : Z :=
  fold_right (fun r total => Z.min 0 (amount r) + total) 0 rules.

End AdjustmentNotions.

Section RetryNotions.
Import VisionService.

(** How one provider reply ends an attempt made with timeout [tmo]. *)
Definition fails (tmo : Z) (r : Reply) : Prop :=
  (exists e, settlement r = Rejects e) \/ tmo <= latency r.

Definition succeeds (tmo : Z) (r : Reply) (response : AnnotateResponse) : Prop :=
  settlement r = Resolves response /\ latency r < tmo.

(** What an attempt returns on the response [response]. *)
Definition analysisOf (response : AnnotateResponse) : Analysis :=
  {| labels := default [] (labelAnnotations response);
     analysisTextAnnotations := default [] (textAnnotations response) |}.

(** The delays before attempts 2, 3, ..., [n + 1]. *)
Definition backoff (retryDelay : Z) (n : nat) : list Z :=
  map (fun i => retryDelay * 2 ^ Z.of_nat i) (seq 0 n).

Definition sumZ (l : list Z) : Z := fold_right Z.add 0 l.

(** The time each of [n] attempts takes, the first one being provider
    call number [first]: that of the reply, or the timeout. *)
Definition attemptTimes (provider : nat -> Reply) (tmo : Z) (first n : nat) : list Z :=
  map (fun i => Z.min (latency (provider (first + i)%nat)) tmo) (seq 0 n).

Definition serviceError : JsError :=
  mkError "Vision API service error" (Some "VISION_SERVICE_ERROR").

(** The errors [analyzeImage] can reject with. *)
Definition rejections : list JsError :=
  [circuitOpenError;
   mkError "Vision client not initialized" None;
   mkError "Invalid image buffer provided" None;
   serviceError;
   mkError "Cannot read properties of undefined (reading 'message')" None].

(** The fields no method assigns after the constructor. *)
Definition sameConfig (s s' : St) : Prop :=
  client s' = client s /\ maxRetries s' = maxRetries s
  /\ retryDelay s' = retryDelay s /\ timeout s' = timeout s.

(** What the three breaker methods maintain. *)
Definition breakerInvariant (cb : CircuitBreaker) : Prop :=
  0 <= failureCount cb
  /\ match state cb with
     | CLOSED => failureCount cb < failureThreshold cb /\ successCount cb = 0
     | OPEN => lastFailureTime cb <> None /\ successCount cb = 0
     | HALF_OPEN =>
         lastFailureTime cb <> None
         /\ 0 <= successCount cb < halfOpenSuccessThreshold cb
     end.

(** A response with one label, and a provider that answers with it
    after [n] rejected calls. *)
Definition oneLabel : AnnotateResponse :=
  mkResponse (Some [mkAnnotation (Some "Matcha") (Some 0.9%Q)]) None.

Definition recoversAfter (n : nat) (k : nat) : Reply :=
  if (k <? n)%nat then unavailable else mkReply (Resolves oneLabel) 250.

(** A provider that never answers in time. *)
Definition hangs : Reply := mkReply (Resolves oneLabel) 45000.

End RetryNotions.

Section ThrowNotions.
Import RatingService.

(** A condition of the semantic table that returns on every list of
    label texts. *)
Definition safeCondition (c : string -> list (string + Annotation) -> Exn + bool) : Prop :=
  forall text allLabels,
    Forall (fun described => exists d, described = inl d) allLabels ->
    exists holds, c text allLabels = inr holds.

Definition safeMappings (mappings : list Mapping) : Prop :=
  Forall (fun mapping => forall c, condition mapping = Some c -> safeCondition c) mappings.

End ThrowNotions.

(* ===================================================================== *)
(** * The vision client: circuit breaker and retries *)
(* ===================================================================== *)

Section CircuitBreakerLaws.
Import VisionService.

Lemma recordFailure_thresholds now cb :
  failureThreshold (recordFailure now cb) = failureThreshold cb
  /\ halfOpenSuccessThreshold (recordFailure now cb) = halfOpenSuccessThreshold cb
  /\ resetTimeout (recordFailure now cb) = resetTimeout cb.
Proof.
  destruct cb as [[] fc ft rt lt sc hs]; unfold recordFailure; simpl;
    try destruct (ft <=? fc + 1); auto.
Qed.

Lemma closed_failures_below times : forall cb,
  state cb = CLOSED ->
  failureCount cb + Z.of_nat (length times) < failureThreshold cb ->
  state (recordFailures times cb) = CLOSED
  /\ failureCount (recordFailures times cb) = failureCount cb + Z.of_nat (length times)
  /\ failureThreshold (recordFailures times cb) = failureThreshold cb.
Proof.
  induction times as [|t times IH]; intros cb Hst Hlt.
  - simpl in *. repeat split; [assumption | lia].
  - cbn [recordFailures fold_left]. fold (recordFailures times (recordFailure t cb)).
    assert (Hstep : state (recordFailure t cb) = CLOSED
                    /\ failureCount (recordFailure t cb) = failureCount cb + 1
                    /\ failureThreshold (recordFailure t cb) = failureThreshold cb).
    { destruct cb as [st fc ft rt lt sc hs]; simpl in *; subst st.
      unfold recordFailure; simpl.
      cbn [length] in Hlt.
      destruct (Z.leb_spec ft (fc + 1)); simpl; [lia|auto]. }
    destruct Hstep as (H1 & H2 & H3).
    destruct (IH (recordFailure t cb)) as (I1 & I2 & I3); auto.
    { rewrite H2, H3. cbn [length] in Hlt. lia. }
    rewrite I1, I2, I3, H2, H3. cbn [length]. repeat split; lia.
Qed.

Lemma closed_failure_reaching now cb :
  state cb = CLOSED ->
  failureThreshold cb <= failureCount cb + 1 ->
  state (recordFailure now cb) = OPEN.
Proof.
  destruct cb as [st fc ft rt lt sc hs]; simpl; intros -> Hle.
  unfold recordFailure; simpl.
  destruct (Z.leb_spec ft (fc + 1)); simpl; [reflexivity | lia].
Qed.

Lemma recordFailures_snoc times t cb :
  recordFailures (times ++ [t]) cb = recordFailure t (recordFailures times cb).
Proof. unfold recordFailures. now rewrite fold_left_app. Qed.

Lemma half_open_success_below cb :
  state cb = HALF_OPEN ->
  successCount cb + 1 < halfOpenSuccessThreshold cb ->
  state (recordSuccess cb) = HALF_OPEN
  /\ successCount (recordSuccess cb) = successCount cb + 1
  /\ halfOpenSuccessThreshold (recordSuccess cb) = halfOpenSuccessThreshold cb.
Proof.
  destruct cb as [st fc ft rt lt sc hs]; simpl; intros -> Hlt.
  unfold recordSuccess; simpl.
  destruct (Z.leb_spec hs (sc + 1)); simpl; [lia | auto].
Qed.

Lemma half_open_successes_below n : forall cb,
  state cb = HALF_OPEN ->
  successCount cb + Z.of_nat n < halfOpenSuccessThreshold cb ->
  state (recordSuccesses n cb) = HALF_OPEN
  /\ successCount (recordSuccesses n cb) = successCount cb + Z.of_nat n
  /\ halfOpenSuccessThreshold (recordSuccesses n cb) = halfOpenSuccessThreshold cb.
Proof.
  induction n as [|n IH]; intros cb Hst Hlt.
  - simpl. repeat split; [assumption | lia].
  - destruct (IH cb Hst) as (I1 & I2 & I3); [lia|].
    change (recordSuccesses (S n) cb) with (recordSuccess (recordSuccesses n cb)).
    destruct (half_open_success_below (recordSuccesses n cb)) as (J1 & J2 & J3);
      [assumption | lia |].
    rewrite J1, J2, J3, I2, I3. repeat split; lia.
Qed.

Lemma half_open_success_reaching cb :
  state cb = HALF_OPEN ->
  halfOpenSuccessThreshold cb <= successCount cb + 1 ->
  state (recordSuccess cb) = CLOSED
  /\ failureCount (recordSuccess cb) = 0
  /\ successCount (recordSuccess cb) = 0.
Proof.
  destruct cb as [st fc ft rt lt sc hs]; simpl; intros -> Hle.
  unfold recordSuccess; simpl.
  destruct (Z.leb_spec hs (sc + 1)); simpl; [auto | lia].
Qed.

End CircuitBreakerLaws.

Section ResilientClient.
Import VisionService.

Ltac unfold_M :=
  unfold sleep in *;
  unfold mbind, M_bind, bind, mret, M_ret, ret, throw, try_catch, get, modify in *.

Variable provider : nat -> Reply.

(** One race against the timeout is one provider call; it leaves the
    configuration and the breaker alone. *)
Lemma raceAnnotate_effect s :
  let s' := snd (raceAnnotate provider s) in
  calls s' = S (calls s) /\ circuitBreaker s' = circuitBreaker s
  /\ maxRetries s' = maxRetries s /\ client s' = client s.
Proof.
  unfold raceAnnotate. unfold_M. simpl.
  destruct (latency (provider (calls s)) <? timeout s); simpl.
  - destruct (settlement (provider (calls s))); simpl; auto.
  - auto.
Qed.

Lemma attemptOnce_effect s :
  let s' := snd (attemptOnce provider s) in
  calls s' = S (calls s) /\ circuitBreaker s' = circuitBreaker s
  /\ maxRetries s' = maxRetries s /\ client s' = client s.
Proof.
  pose proof (raceAnnotate_effect s) as H. simpl in H.
  unfold attemptOnce. unfold_M.
  destruct (raceAnnotate provider s) as [[e|r] s1]; simpl in *; exact H.
Qed.

(** The retry loop never undoes a provider call. *)
Lemma retryLoop_calls_mono fuel : forall attempt lastError s,
  (calls s <= calls (snd (retryLoop (attemptOnce provider) fuel attempt lastError s)))%nat.
Proof.
  induction fuel as [|fuel IH]; intros attempt lastError s; simpl.
  - unfold_M. simpl. lia.
  - pose proof (attemptOnce_effect s) as (Hc & _). unfold_M.
    destruct (attemptOnce provider s) as [[e|r] s1]; simpl in *; [|lia].
    destruct (isNonRetryableError e); simpl; [lia|].
    destruct (attempt <? maxRetries s1).
    + specialize (IH (attempt + 1) (Some e)
                     (log_sleep (retryDelay s1 * 2 ^ (attempt - 1))
                        (advance (retryDelay s1 * 2 ^ (attempt - 1)) s1))).
      simpl in IH. lia.
    + specialize (IH (attempt + 1) (Some e) s1). lia.
Qed.

Lemma retryLoop_calls_some fuel attempt lastError s :
  (0 < fuel)%nat ->
  (calls s < calls (snd (retryLoop (attemptOnce provider) fuel attempt lastError s)))%nat.
Proof.
  destruct fuel as [|fuel]; [lia|]. intros _. simpl.
  pose proof (attemptOnce_effect s) as (Hc & _). unfold_M.
  destruct (attemptOnce provider s) as [[e|r] s1]; simpl in *; [|lia].
  destruct (isNonRetryableError e); simpl; [lia|].
  destruct (attempt <? maxRetries s1).
  - pose proof (retryLoop_calls_mono fuel (attempt + 1) (Some e)
                     (log_sleep (retryDelay s1 * 2 ^ (attempt - 1))
                        (advance (retryDelay s1 * 2 ^ (attempt - 1)) s1))) as H.
    simpl in H. lia.
  - pose proof (retryLoop_calls_mono fuel (attempt + 1) (Some e) s1). lia.
Qed.

Lemma executeWithRetry_calls_some s :
  0 < maxRetries s ->
  (calls s < calls (snd (executeWithRetry (attemptOnce provider) s)))%nat.
Proof.
  intros Hpos. unfold executeWithRetry. unfold_M.
  pose proof (retryLoop_calls_some (Z.to_nat (maxRetries s)) 1 None s) as H.
  destruct (retryLoop (attemptOnce provider) (Z.to_nat (maxRetries s)) 1 None s)
    as [[e|[[e|]|a]] s1]; simpl in *; apply H; lia.
Qed.

Lemma set_circuitBreaker_same s : set_circuitBreaker (circuitBreaker s) s = s.
Proof. now destruct s. Qed.

(** A call that finds the breaker anything but OPEN reaches the provider. *)
Lemma analyzeImage_allowed_through s cb st content :
  checkCircuitBreaker (clock s) (circuitBreaker s) = (cb, st) ->
  st <> OPEN -> client s = true -> 0 < maxRetries s ->
  (calls s < calls (snd (analyzeImage provider (IsBuffer content) s)))%nat.
Proof.
  intros Hchk Hst Hcl Hpos. unfold analyzeImage. unfold_M. rewrite Hchk.
  assert (Hgo : (calls s < calls (snd (executeWithRetry (attemptOnce provider)
                                        (set_circuitBreaker cb s))))%nat).
  { apply (executeWithRetry_calls_some (set_circuitBreaker cb s)). exact Hpos. }
  destruct st; try congruence; simpl; rewrite Hcl; simpl;
    destruct (executeWithRetry (attemptOnce provider) (set_circuitBreaker cb s))
      as [[e|a] s1]; simpl in *; exact Hgo.
Qed.

(** No error that went through [transformError] is classified as
    non-retryable: the five messages and codes it produces are none of
    the provider's. *)
Lemma transformed_error_is_retryable e :
  isNonRetryableError (transformError e) = false.
Proof.
  unfold transformError.
  repeat (match goal with |- context [if ?b then _ else _] => destruct b end);
    reflexivity.
Qed.

(** A reply that makes the attempt fail: a rejection, or one that
    comes after the timeout. *)
Let failing (tmo : Z) (r : Reply) : Prop :=
  (exists e, settlement r = Rejects e) \/ tmo <= latency r.

Lemma attemptOnce_failing s :
  failing (timeout s) (provider (calls s)) ->
  exists e d, attemptOnce provider s
              = (inl (transformError e), advance d (count_call s)).
Proof.
  intros Hfail. unfold attemptOnce, raceAnnotate. unfold_M. simpl.
  destruct (Z.ltb_spec (latency (provider (calls s))) (timeout s)) as [Hfast|Hslow].
  - destruct Hfail as [(e & He)|Hlate]; [|lia].
    rewrite He. simpl. now exists e, (latency (provider (calls s))).
  - simpl. now exists (mkError "Vision API request timeout" None), (timeout s).
Qed.

(** Whatever the provider's errors are, the loop runs to its end: the
    number of calls made is the number of iterations. *)
Lemma retryLoop_runs_out fuel : forall attempt lastError s,
  (forall k, failing (timeout s) (provider k)) ->
  let out := retryLoop (attemptOnce provider) fuel attempt lastError s in
  calls (snd out) = (calls s + fuel)%nat
  /\ exists last, fst out = inr (inl last).
Proof.
  induction fuel as [|fuel IH]; intros attempt lastError s Hfail; cbv zeta.
  - simpl. unfold_M. simpl. split; [lia | now exists lastError].
  - destruct (attemptOnce_failing s (Hfail (calls s))) as (e & d & Hone).
    simpl. unfold_M. rewrite Hone, transformed_error_is_retryable.
    cbn [maxRetries retryDelay advance count_call].
    destruct (attempt <? maxRetries s);
      match goal with
      | |- context [retryLoop _ fuel (attempt + 1) ?le ?s2] =>
          destruct (IH (attempt + 1) le s2) as (Hcalls & last & Hlast);
            [exact Hfail|]
      end;
      cbv zeta in Hcalls, Hlast; rewrite Hcalls; simpl;
      (split; [lia | now exists last]).
Qed.

(** What [executeWithRetry] itself does with an error it classifies as
    non-retryable: one attempt, the error rethrown as it is. *)
Lemma executeWithRetry_fail_fast {A} (fn : M A) s e s1 :
  0 < maxRetries s ->
  fn s = (inl e, s1) -> isNonRetryableError e = true ->
  executeWithRetry fn s = (inl e, s1).
Proof.
  intros Hpos Hfn Hnr. unfold executeWithRetry. unfold_M.
  destruct (Z.to_nat (maxRetries s)) as [|fuel] eqn:Hfuel; [lia|].
  simpl. unfold_M. rewrite Hfn, Hnr. reflexivity.
Qed.

End ResilientClient.

Section VisionProperties.
Import VisionService.

(** C4: circuit breaker transition laws.  (a) From CLOSED with a clear
  failure count, a run of recorded failures leaves the breaker CLOSED
  while the run is shorter than [failureThreshold] and OPEN when it
  reaches it.  (b) From OPEN, once [resetTimeout] has elapsed since
  [lastFailureTime], the check made by the next call moves the breaker
  to HALF_OPEN and the call reaches the provider.  (c) From HALF_OPEN
  (entered with a clear success count), a run of successes leaves it
  HALF_OPEN while shorter than [halfOpenSuccessThreshold] and CLOSED
  with both counters at 0 when it reaches it.  (d) From HALF_OPEN one
  failure gives OPEN. *)
Theorem circuit_breaker_transition_laws (cb : CircuitBreaker)
  (Hft : 0 < failureThreshold cb) (Hhs : 0 < halfOpenSuccessThreshold cb) :
(state cb = CLOSED -> failureCount cb = 0 ->
 forall times : list Z,
   (Z.of_nat (length times) < failureThreshold cb ->
    state (recordFailures times cb) = CLOSED)
   /\ (Z.of_nat (length times) = failureThreshold cb ->
       state (recordFailures times cb) = OPEN))
/\ (state cb = OPEN ->
    forall (provider : nat -> Reply) (s : St) (content : list Byte.byte),
      circuitBreaker s = cb ->
      resetTimeout cb <= clock s - toNumber (lastFailureTime cb) ->
      checkCircuitBreaker (clock s) cb
        = (set_successCount 0 (set_state HALF_OPEN cb), HALF_OPEN)
      /\ (client s = true -> 0 < maxRetries s ->
          (calls s < calls (snd (analyzeImage provider (IsBuffer content) s)))%nat))
/\ (state cb = HALF_OPEN -> successCount cb = 0 ->
    forall n : nat,
      (Z.of_nat n < halfOpenSuccessThreshold cb ->
       state (recordSuccesses n cb) = HALF_OPEN)
      /\ (Z.of_nat n = halfOpenSuccessThreshold cb ->
          state (recordSuccesses n cb) = CLOSED
          /\ failureCount (recordSuccesses n cb) = 0
          /\ successCount (recordSuccesses n cb) = 0))
/\ (state cb = HALF_OPEN ->
    forall now : Z, state (recordFailure now cb) = OPEN).
Proof.
repeat apply conj.
- intros Hst Hfc times. split.
  + intros Hlt. apply closed_failures_below; [assumption | lia].
  + intros Hlen.
    destruct times as [|t times _] using rev_ind; [simpl in Hlen; lia|].
    rewrite length_app, Nat2Z.inj_add in Hlen. simpl in Hlen.
    rewrite recordFailures_snoc.
    destruct (closed_failures_below times cb Hst) as (H1 & H2 & H3); [lia|].
    apply closed_failure_reaching; [assumption | lia].
- intros Hst provider s content Hcb Hel.
  assert (Hchk : checkCircuitBreaker (clock s) cb
                 = (set_successCount 0 (set_state HALF_OPEN cb), HALF_OPEN)).
  { unfold checkCircuitBreaker. rewrite Hst.
    destruct (Z.leb_spec (resetTimeout cb) (clock s - toNumber (lastFailureTime cb)));
      [reflexivity | lia]. }
  split; [exact Hchk|]. intros Hcl Hpos.
  eapply analyzeImage_allowed_through; [rewrite Hcb; exact Hchk | discriminate | assumption..].
- intros Hst Hsc n. split.
  + intros Hlt. apply half_open_successes_below; [assumption | lia].
  + intros Hn. destruct n as [|n]; [simpl in Hn; lia|].
    change (recordSuccesses (S n) cb) with (recordSuccess (recordSuccesses n cb)).
    destruct (half_open_successes_below n cb Hst) as (H1 & H2 & H3); [lia|].
    apply half_open_success_reaching; [assumption | lia].
- intros Hst now. destruct cb as [st fc ft rt lt sc hs]; simpl in *; subst st.
  reflexivity.
Qed.

Lemma circuit_breaker_transition_laws_witness :
(state (recordFailures [10; 20; 30; 40] initialCircuitBreaker) = CLOSED
 /\ state (recordFailures [10; 20; 30; 40; 50] initialCircuitBreaker) = OPEN)
/\ (checkCircuitBreaker 61000 openBreaker = (halfOpenBreaker, HALF_OPEN)
    /\ (calls (set_circuitBreaker openBreaker (newService 61000))
        < calls (snd (analyzeImage (fun _ => unavailable) (IsBuffer [])
                        (set_circuitBreaker openBreaker (newService 61000)))))%nat)
/\ (state (recordSuccesses 1 halfOpenBreaker) = HALF_OPEN
    /\ state (recordSuccesses 2 halfOpenBreaker) = CLOSED
    /\ failureCount (recordSuccesses 2 halfOpenBreaker) = 0
    /\ successCount (recordSuccesses 2 halfOpenBreaker) = 0)
/\ state (recordFailure 70000 halfOpenBreaker) = OPEN.
Proof.
assert (Hi : 0 < failureThreshold initialCircuitBreaker
             /\ 0 < halfOpenSuccessThreshold initialCircuitBreaker)
  by (simpl; lia).
assert (Ho : 0 < failureThreshold openBreaker
             /\ 0 < halfOpenSuccessThreshold openBreaker) by (simpl; lia).
assert (Hh : 0 < failureThreshold halfOpenBreaker
             /\ 0 < halfOpenSuccessThreshold halfOpenBreaker) by (simpl; lia).
destruct (circuit_breaker_transition_laws initialCircuitBreaker (proj1 Hi) (proj2 Hi))
  as (A & _).
destruct (circuit_breaker_transition_laws openBreaker (proj1 Ho) (proj2 Ho))
  as (_ & B & _).
destruct (circuit_breaker_transition_laws halfOpenBreaker (proj1 Hh) (proj2 Hh))
  as (_ & _ & C & D).
repeat apply conj.
- apply (A eq_refl eq_refl [10; 20; 30; 40]). simpl; lia.
- apply (A eq_refl eq_refl [10; 20; 30; 40; 50]). reflexivity.
- apply (B eq_refl (fun _ => unavailable)
           (set_circuitBreaker openBreaker (newService 61000)) [] eq_refl).
  simpl; lia.
- apply (B eq_refl (fun _ => unavailable)
           (set_circuitBreaker openBreaker (newService 61000)) [] eq_refl);
    [simpl; lia | reflexivity | simpl; lia].
- apply (C eq_refl eq_refl 1%nat). simpl; lia.
- apply (C eq_refl eq_refl 2%nat). reflexivity.
- apply (C eq_refl eq_refl 2%nat). reflexivity.
- apply (C eq_refl eq_refl 2%nat). reflexivity.
- apply (D eq_refl 70000).
Defined.

(** C9: while the breaker is OPEN and less than [resetTimeout] has
  passed since [lastFailureTime], [analyzeImage] rejects with the
  circuit-open error and the whole state is as before: no provider
  call, no change to any breaker field, no failure recorded. *)
Theorem analyzeImage_open_rejects_unchanged
  (provider : nat -> Reply) (imageBuffer : ImageArg) (s : St)
  (Hopen : state (circuitBreaker s) = OPEN)
  (Hearly : clock s - toNumber (lastFailureTime (circuitBreaker s))
            < resetTimeout (circuitBreaker s)) :
analyzeImage provider imageBuffer s = (inl circuitOpenError, s).
Proof.
unfold analyzeImage, checkCircuitBreaker.
unfold mbind, M_bind, bind, get, modify, throw. rewrite Hopen.
destruct (Z.leb_spec (resetTimeout (circuitBreaker s))
            (clock s - toNumber (lastFailureTime (circuitBreaker s)))); [lia|].
rewrite Hopen. simpl. now rewrite set_circuitBreaker_same.
Qed.

Lemma analyzeImage_open_rejects_unchanged_witness :
let s := set_circuitBreaker openBreaker (newService 30000) in
analyzeImage (fun _ => unavailable) (IsBuffer []) s = (inl circuitOpenError, s)
/\ calls s = 0%nat /\ circuitBreaker s = openBreaker.
Proof.
intros s. split; [|split; reflexivity].
apply (analyzeImage_open_rejects_unchanged (fun _ => unavailable) (IsBuffer []) s).
- reflexivity.
- simpl. lia.
Defined.

(** C5: what the code does with a non-retryable provider error:
  [analyzeImage] hands [executeWithRetry] the error already rewritten
  by [transformError], which the classification no longer recognises;
  the provider is called [maxRetries] times, with delays 1000 and 2000,
  and the error surfaced is the generic service error. *)
Theorem analyzeImage_retries_unauthenticated :
let '(r, s') := analyzeImage (fun _ => unauthenticated) (IsBuffer []) (newService 0) in
r = inl (mkError "Vision API service error" (Some "VISION_SERVICE_ERROR"))
/\ calls s' = 3%nat
/\ sleeps s' = [1000; 2000]
/\ isNonRetryableError (mkError "UNAUTHENTICATED: Invalid credentials"
                                (Some "UNAUTHENTICATED")) = true
/\ isNonRetryableError (transformError (mkError "UNAUTHENTICATED: Invalid credentials"
                                                (Some "UNAUTHENTICATED"))) = false.
Proof. vm_compute. repeat split. Qed.

(** Every other failure: three attempts, delays [retryDelay * 2^(attempt-1)]. *)
Lemma analyzeImage_retries_unavailable :
let '(r, s') := analyzeImage (fun _ => unavailable) (IsBuffer []) (newService 0) in
r = inl (mkError "Vision API service error" (Some "VISION_SERVICE_ERROR"))
/\ calls s' = 3%nat
/\ sleeps s' = [1000 * 2 ^ (1 - 1); 1000 * 2 ^ (2 - 1)]
/\ failureCount (circuitBreaker s') = 1.
Proof. vm_compute. repeat split. Qed.

(** Scenario E: five calls that fail on an unavailable provider open the
  circuit, after fifteen provider calls; the sixth call is rejected at
  once and the provider is not called again. *)
Lemma five_failed_calls_open_the_circuit :
let s5 := runCalls (fun _ => unavailable) 5 (newService 0) in
state (circuitBreaker s5) = OPEN
/\ calls s5 = 15%nat
/\ analyzeImage (fun _ => unavailable) (IsBuffer []) s5 = (inl circuitOpenError, s5).
Proof. vm_compute. repeat split. Qed.

End VisionProperties.

(* ===================================================================== *)
(** * Edit distance and string similarity *)
(* ===================================================================== *)

Section EditDistance.
Import JSString RatingService.

Variables str1 str2 : string.

Lemma distanceTable_0 j : distanceTable str1 str2 0 j = j.
Proof. reflexivity. Qed.

Lemma distanceTable_S_0 i : distanceTable str1 str2 (S i) 0 = S i.
Proof. reflexivity. Qed.

Lemma distanceTable_S_S i j :
  distanceTable str1 str2 (S i) (S j) =
  if same_unit (charAt str2 i) (charAt str1 j)
  then distanceTable str1 str2 i j
  else Nat.min (distanceTable str1 str2 i j + 1)
         (Nat.min (distanceTable str1 str2 (S i) j + 1)
                  (distanceTable str1 str2 i (S j) + 1)).
Proof. reflexivity. Qed.

(** Writing a run of cells [f i := g i] into the matrix. *)
Lemma fold_insert_hit (f : nat -> nat * nat) (g : nat -> nat) (i : nat) :
  (forall a, f a = f i -> a = i) ->
  forall (l : list nat) (m : gmap (nat * nat) nat),
    In i l \/ m !! f i = Some (g i) ->
    fold_left (fun m a => <[f a := g a]> m) l m !! f i = Some (g i).
Proof.
  intros Hinj. induction l as [|a l IH]; intros m H; simpl.
  - destruct H as [[]|H]; exact H.
  - apply IH. destruct H as [[->|H]|H].
    + right. apply lookup_insert_eq.
    + now left.
    + right. destruct (decide (f a = f i)) as [E|N].
      * rewrite (Hinj a E). apply lookup_insert_eq.
      * now rewrite lookup_insert_ne.
Qed.

Lemma fold_insert_miss (f : nat -> nat * nat) (g : nat -> nat) (k : nat * nat) :
  forall (l : list nat) (m : gmap (nat * nat) nat),
    (forall a, In a l -> f a <> k) ->
    fold_left (fun m a => <[f a := g a]> m) l m !! k = m !! k.
Proof.
  induction l as [|a l IH]; intros m H; simpl; [reflexivity|].
  rewrite IH by (intros b Hb; apply H; now right).
  apply lookup_insert_ne, H. now left.
Qed.

(** After the two initialisation loops: row 0 and column 0. *)
Lemma initMatrix_row (j : nat) :
  (j <= String.length str1)%nat ->
  initMatrix str1 str2 !! (0%nat, j) = Some j.
Proof.
  intros Hj. unfold initMatrix.
  apply (fold_insert_hit (fun j => (0%nat, j)) (fun j => j) j).
  - intros a E. congruence.
  - left. apply in_seq. lia.
Qed.

Lemma initMatrix_column (i : nat) :
  (i <= String.length str2)%nat ->
  initMatrix str1 str2 !! (i, 0%nat) = Some i.
Proof.
  intros Hi. destruct i as [|i]; [apply initMatrix_row; lia|].
  unfold initMatrix. rewrite fold_insert_miss by (intros a _; congruence).
  apply (fold_insert_hit (fun i => (i, 0%nat)) (fun i => i) (S i)).
  - intros a E. congruence.
  - left. apply in_seq. lia.
Qed.

Lemma cell_lookup (m : gmap (nat * nat) nat) (i j x : nat) :
  m !! (i, j) = Some x -> cell m i j = x.
Proof. intros H. unfold cell. now apply lookup_total_correct. Qed.

(** One pass of the inner loop completes row [S i] from row [i]. *)
Lemma fillRow_prefix (i : nat) (m : gmap (nat * nat) nat) :
  (forall j, (j <= String.length str1)%nat ->
             m !! (i, j) = Some (distanceTable str1 str2 i j)) ->
  m !! (S i, 0%nat) = Some (S i) ->
  forall k, (k <= String.length str1)%nat ->
    let m' := fold_left (fillCell str1 str2 (S i)) (seq 1 k) m in
    (forall j, (j <= k)%nat ->
               m' !! (S i, j) = Some (distanceTable str1 str2 (S i) j))
    /\ (forall r c, r <> S i -> m' !! (r, c) = m !! (r, c)).
Proof.
  intros Hprev Hzero. induction k as [|k IH]; intros Hk; cbv zeta.
  - simpl. split; [|reflexivity]. intros j Hj. assert (j = 0%nat) as -> by lia. exact Hzero.
  - destruct IH as [IHrow IHrest]; [lia|].
    rewrite seq_S, fold_left_app. simpl.
    set (mk := fold_left (fillCell str1 str2 (S i)) (seq 1 k) m) in *.
    assert (Hdiag : cell mk i k = distanceTable str1 str2 i k).
    { apply cell_lookup. rewrite IHrest by lia. apply Hprev. lia. }
    assert (Hleft : cell mk (S i) k = distanceTable str1 str2 (S i) k).
    { apply cell_lookup. apply IHrow. lia. }
    assert (Hup : cell mk i (S k) = distanceTable str1 str2 i (S k)).
    { apply cell_lookup. rewrite IHrest by lia. apply Hprev. lia. }
    assert (Hnew : fillCell str1 str2 (S i) mk (S k)
                   = <[(S i, S k) := distanceTable str1 str2 (S i) (S k)]> mk).
    { unfold fillCell. rewrite distanceTable_S_S.
      replace (S i - 1)%nat with i by lia. replace (S k - 1)%nat with k by lia.
      rewrite Hdiag, Hleft, Hup.
      destruct (same_unit (charAt str2 i) (charAt str1 k)); reflexivity. }
    rewrite Hnew. split.
    + intros j Hj. destruct (decide (j = S k)) as [->|Hne].
      * apply lookup_insert_eq.
      * rewrite lookup_insert_ne by congruence. apply IHrow. lia.
    + intros r c Hr. rewrite lookup_insert_ne by congruence. now apply IHrest.
Qed.

(** The outer loop fills the rows in order. *)
Lemma fillRows_prefix (k : nat) :
  (k <= String.length str2)%nat ->
  let m := fold_left (fillRow str1 str2) (seq 1 k) (initMatrix str1 str2) in
  (forall i j, (i <= k)%nat -> (j <= String.length str1)%nat ->
               m !! (i, j) = Some (distanceTable str1 str2 i j))
  /\ (forall i, (k < i <= String.length str2)%nat -> m !! (i, 0%nat) = Some i).
Proof.
  induction k as [|k IH]; intros Hk; cbv zeta.
  - simpl. split.
    + intros i j Hi Hj. assert (i = 0%nat) as -> by lia. now apply initMatrix_row.
    + intros i Hi. apply initMatrix_column. lia.
  - destruct IH as [IHdone IHtodo]; [lia|].
    rewrite seq_S, fold_left_app. simpl.
    set (mk := fold_left (fillRow str1 str2) (seq 1 k) (initMatrix str1 str2)) in *.
    destruct (fillRow_prefix k mk) with (k := String.length str1) as [Hrow Hrest].
    { intros j Hj. apply IHdone; lia. }
    { apply IHtodo. lia. }
    { lia. }
    fold (fillRow str1 str2 mk (S k)) in Hrow, Hrest. split.
    + intros i j Hi Hj. destruct (decide (i = S k)) as [->|Hne].
      * now apply Hrow.
      * rewrite Hrest by exact Hne. apply IHdone; lia.
    + intros i Hi. rewrite Hrest by lia. apply IHtodo. lia.
Qed.

(** The matrix algorithm computes the recurrence. *)
Lemma levenshteinDistance_table :
  levenshteinDistance str1 str2
  = distanceTable str1 str2 (String.length str2) (String.length str1).
Proof.
  unfold levenshteinDistance. apply cell_lookup.
  apply (fillRows_prefix (String.length str2)); lia.
Qed.

End EditDistance.

Section Symmetry.
Import JSString RatingService.

Lemma same_unit_sym a b : same_unit a b = same_unit b a.
Proof. unfold same_unit. apply bool_decide_ext. split; congruence. Qed.

(** Transposing the table swaps the roles of the two strings. *)
Lemma distanceTable_transpose str1 str2 i :
  forall j, distanceTable str1 str2 i j = distanceTable str2 str1 j i.
Proof.
  induction i as [|i IHi]; intros j.
  - destruct j; reflexivity.
  - induction j as [|j IHj]; [reflexivity|].
    rewrite !distanceTable_S_S, same_unit_sym.
    rewrite (IHi j), (IHi (S j)), IHj.
    destruct (same_unit (charAt str1 j) (charAt str2 i)); lia.
Qed.

Lemma levenshteinDistance_sym str1 str2 :
  levenshteinDistance str1 str2 = levenshteinDistance str2 str1.
Proof. rewrite !levenshteinDistance_table. apply distanceTable_transpose. Qed.

End Symmetry.

Section SimilarityProperty.
Import RatingService.

(** C10: [calculateStringSimilarity] does not depend on the order of
  its two arguments. *)
Theorem calculateStringSimilarity_comm (a b : string) :
calculateStringSimilarity a b = calculateStringSimilarity b a.
Proof.
unfold calculateStringSimilarity.
destruct (Nat.ltb_spec (String.length b) (String.length a)) as [Hba|Hba];
  destruct (Nat.ltb_spec (String.length a) (String.length b)) as [Hab|Hab];
  try lia; try reflexivity.
assert (Hlen : String.length a = String.length b) by lia.
rewrite Hlen, (levenshteinDistance_sym b a). reflexivity.
Qed.

End SimilarityProperty.

(* ===================================================================== *)
(** * Deduplication in [calculateRating] *)
(* ===================================================================== *)

Section Deduplication.
Import JSString JSObject RatingService.

Lemma sumPoints_snoc ds d : sumPoints (ds ++ [d]) = sumPoints ds + Item.points d.
Proof. induction ds as [|x ds IH]; simpl; [lia | rewrite IH; lia]. Qed.

Lemma NoDup_map_snoc {A B} (f : A -> B) (l : list A) (x : A) :
  List.NoDup (map f l) -> ~ In (f x) (map f l) -> List.NoDup (map f (l ++ [x])).
Proof.
  intros Hnd Hnew. rewrite map_app. simpl. apply List.NoDup_app.
  - exact Hnd.
  - constructor; [intros [] | constructor].
  - intros y Hy [<-|[]]. contradiction.
Qed.

(** Recording a contribution under a fresh key keeps the invariant. *)
Lemma record_fresh st d :
  scanInvariant st ->
  keyOf (triple d) ∉ usedKeywords st ->
  scanInvariant {| totalScore := totalScore st + Item.points d;
                   usedKeywords := {[keyOf (triple d)]} ∪ usedKeywords st;
                   detectedItems := detectedItems st ++ [d] |}.
Proof.
  intros (Hsum & Hnd & Hused) Hfresh.
  repeat split; cbn [totalScore usedKeywords detectedItems].
  - rewrite sumPoints_snoc, Hsum. reflexivity.
  - apply NoDup_map_snoc; [exact Hnd|].
    intros Hin. apply (proj1 (@in_map_iff _ _ _ _ _)) in Hin as (d' & Hk & Hd').
    apply Hfresh. rewrite <- Hk. now apply Hused.
  - intros d' Hd'. apply in_app_iff in Hd' as [Hd'|[<-|[]]].
    + apply elem_of_union_r. now apply Hused.
    + apply elem_of_union_l, elem_of_singleton. reflexivity.
Qed.

Lemma addTextMatch_invariant st m :
  isTextType (Item.matchType m) -> scanInvariant st -> scanInvariant (addTextMatch st m).
Proof.
  intros Hty Hinv. unfold addTextMatch.
  assert (Hkey : "text:" ++ Item.item m = keyOf (triple m)).
  { unfold keyOf, triple. destruct Hty as [-> | ->]; reflexivity. }
  rewrite Hkey. case_bool_decide as Hused; [exact Hinv|].
  now apply record_fresh.
Qed.

Lemma addLabelMatch_invariant description confidence st m :
  isLabelType (Match.matchType m) -> scanInvariant st ->
  scanInvariant (addLabelMatch description (trim (toLowerCase description))
                   confidence st m).
Proof.
  intros Hty Hinv. unfold addLabelMatch.
  set (d := Item.mk (Match.keyword m) (Match.adjustedPoints m) confidence
              (Match.matchType m) description (Some (Match.matchScore m))).
  assert (Hkey : "label:" ++ Match.keyword m ++ ":" ++ trim (toLowerCase description)
                 = keyOf (triple d)).
  { unfold keyOf, triple, d. simpl. destruct Hty as [-> | [-> | ->]]; reflexivity. }
  rewrite Hkey. case_bool_decide as Hused; [exact Hinv|].
  now apply (record_fresh st d).
Qed.

(** The match types each matcher produces. *)
Lemma processTextAnnotations_types textAnnotations m :
  In m (processTextAnnotations textAnnotations) -> isTextType (Item.matchType m).
Proof.
  unfold processTextAnnotations. intros Hin.
  apply (proj1 (@in_flat_map _ _ _ _ _)) in Hin as ([pattern points] & _ & Hin). cbn [fst snd] in Hin.
  destruct (includes _ pattern).
  - destruct Hin as [<-|[]]. now left.
  - destruct (_ =? 1)%nat; [|destruct Hin].
    apply (proj1 (@in_flat_map _ _ _ _ _)) in Hin as (annotation & _ & Hin).
    destruct (_ && _); [|destruct Hin].
    destruct Hin as [<-|[]]. now right.
Qed.

Lemma In_insertByScore m x l : In m (insertByScore x l) -> m = x \/ In m l.
Proof.
  induction l as [|y l IH]; simpl.
  - intros [<-|[]]. now left.
  - destruct (Qgtb _ _); simpl.
    + intros [<-|H]; [right; now left|].
      destruct (IH H) as [->|H']; [now left | right; now right].
    + intros [<-|H]; [now left | now right].
Qed.

Lemma In_sortByScore m l : In m (sortByScore l) -> In m l.
Proof.
  induction l as [|x l IH]; simpl; [tauto|].
  intros H. destruct (In_insertByScore _ _ _ H) as [->|H']; [now left|].
  right. now apply IH.
Qed.

Lemma In_take {A} (x : A) n l : In x (take n l) -> In x l.
Proof.
  intros H. apply list_elem_of_In. apply list_elem_of_In in H.
  now apply (subseteq_take n l).
Qed.

Lemma findMatches_types items labelText confidence allLabels matches m :
  findMatches items labelText confidence allLabels = inr matches ->
  In m matches -> isLabelType (Match.matchType m).
Proof.
  unfold findMatches. destruct (obj_get labelText items) as [w|].
  - intros [= <-] [<-|[]]. now left.
  - destruct (getSemanticMatches items labelText allLabels) as [e|sem]; simpl;
      [discriminate|].
    intros [= <-] Hin. apply In_take, In_sortByScore in Hin.
    destruct (_ =? 0)%nat.
    + unfold partialMatches in Hin.
      apply (proj1 (@in_flat_map _ _ _ _ _)) in Hin as ([keyword points] & _ & Hin). cbn [fst snd] in Hin.
      destruct (Qgtb _ _); [|destruct Hin].
      destruct Hin as [<-|[]]. right; now right.
    + apply (proj1 (@in_map_iff _ _ _ _ _)) in Hin as (s & <- & _). right; now left.
Qed.

Lemma fold_addTextMatch_invariant ms : forall st,
  (forall m, In m ms -> isTextType (Item.matchType m)) ->
  scanInvariant st -> scanInvariant (fold_left addTextMatch ms st).
Proof.
  induction ms as [|m ms IH]; intros st Hty Hinv; simpl; [exact Hinv|].
  apply IH; [intros m' Hm'; apply Hty; now right|].
  apply addTextMatch_invariant; [apply Hty; now left | exact Hinv].
Qed.

Lemma fold_addLabelMatch_invariant description confidence ms : forall st,
  (forall m, In m ms -> isLabelType (Match.matchType m)) ->
  scanInvariant st ->
  scanInvariant (fold_left (addLabelMatch description
                              (trim (toLowerCase description)) confidence) ms st).
Proof.
  induction ms as [|m ms IH]; intros st Hty Hinv; simpl; [exact Hinv|].
  apply IH; [intros m' Hm'; apply Hty; now right|].
  apply addLabelMatch_invariant; [apply Hty; now left | exact Hinv].
Qed.

Lemma processLabel_invariant items labels st label st' :
  processLabel items labels st label = inr st' ->
  scanInvariant st -> scanInvariant st'.
Proof.
  unfold processLabel. destruct (description label) as [d|]; [|now intros [= <-]].
  destruct (negb (truthy d)); [now intros [= <-]|].
  destruct (findMatches items (trim (toLowerCase d)) (default 0%Q (score label)) labels)
    as [e|matches] eqn:Hfind; simpl; [discriminate|].
  intros [= <-] Hinv. apply fold_addLabelMatch_invariant; [|exact Hinv].
  intros m Hm. eapply findMatches_types; eauto.
Qed.

Lemma forEachLabel_invariant items labels rest : forall st st',
  forEachLabel items labels rest st = inr st' ->
  scanInvariant st -> scanInvariant st'.
Proof.
  induction rest as [|label rest IH]; intros st st'; simpl.
  - now intros [= <-].
  - destruct (processLabel items labels st label) as [e|st1] eqn:Hone; simpl;
      [discriminate|].
    intros Hrest Hinv. apply (IH st1 st' Hrest).
    eapply processLabel_invariant; eauto.
Qed.

Lemma scan_invariant items labels options st :
  scan items labels options = inr st -> scanInvariant st.
Proof.
  unfold scan. intros Hscan. eapply forEachLabel_invariant; [exact Hscan|].
  assert (Hinit : scanInvariant (mkScan 0 ∅ [])).
  { repeat split; simpl; [constructor | intros d []]. }
  destruct (optTextAnnotations options) as [textAnnotations|]; [|exact Hinit].
  apply fold_addTextMatch_invariant; [|exact Hinit].
  intros m. apply processTextAnnotations_types.
Qed.

(** Distinct keys mean distinct triples: the key is a function of the triple. *)
Lemma distinct_keys_distinct_triples ds :
  List.NoDup (map (fun d => keyOf (triple d)) ds) -> List.NoDup (map triple ds).
Proof.
  intros H. apply (List.NoDup_map_inv keyOf). now rewrite map_map.
Qed.

End Deduplication.

Section DeduplicationProperty.
Import RatingService.

(** C6: whenever [calculateRating] returns, the raw score is the sum of
  the points of the recorded contributions plus the contextual
  adjustment, and no two recorded contributions share the triple
  (match type, keyword, source text): each triple is counted once. *)
Theorem each_triple_contributes_once
  (items : list (string * Q)) (labels : list Annotation) (options : Options)
  (r : RatingResult)
  (Hreturns : calculateRating items (LabelArray labels) options = inr r) :
exists (st : Scan) (adjustment : Z * string),
  scan items labels options = inr st
  /\ calculateContextualAdjustments (detectedItems st) labels = inr adjustment
  /\ List.NoDup (map triple (detectedItems st))
  /\ rawScore (metadata r) = sumPoints (detectedItems st) + fst adjustment
  /\ result_detectedItems r = map outItem (detectedItems st).
Proof.
unfold calculateRating in Hreturns.
destruct (scan items labels options) as [e|st] eqn:Hscan; simpl in Hreturns;
  [discriminate|].
destruct (calculateContextualAdjustments (detectedItems st) labels)
  as [e|adjustment] eqn:Hadj; simpl in Hreturns; [discriminate|].
injection Hreturns as <-. exists st, adjustment.
destruct (scan_invariant _ _ _ _ Hscan) as (Hsum & Hnd & _).
split; [reflexivity|]. split; [exact Hadj|].
split; [now apply distinct_keys_distinct_triples|].
split; [cbn [rawScore metadata]; now rewrite Hsum | reflexivity].
Qed.

End DeduplicationProperty.

(* ===================================================================== *)
(** * The text pattern matcher *)
(* ===================================================================== *)

Section Substrings.
Import JSString.

Lemma append_nil (b : string) : "" ++ b = b.
Proof. reflexivity. Qed.

Lemma append_cons (x : ascii) (a b : string) : String x a ++ b = String x (a ++ b).
Proof. reflexivity. Qed.

Lemma append_assoc (a b c : string) : (a ++ b) ++ c = a ++ (b ++ c).
Proof.
  induction a as [|x a IH]; [reflexivity|]. now rewrite !append_cons, IH.
Qed.

Lemma append_empty_r (a : string) : a ++ "" = a.
Proof.
  induction a as [|x a IH]; [reflexivity|]. now rewrite append_cons, IH.
Qed.

Lemma prefix_append (p : string) : forall s,
  String.prefix p s = true <-> exists r, s = p ++ r.
Proof.
  induction p as [|x p IH]; intros s.
  - split; [intros _; now exists s | intros _; now destruct s].
  - destruct s as [|y s]; simpl.
    + split; [discriminate | intros (r & Hr); discriminate].
    + destruct (ascii_dec x y) as [->|Hne].
      * rewrite IH. split; intros (r & Hr); exists r;
          rewrite ?append_cons in *; congruence.
      * split; [discriminate | intros (r & Hr)].
        rewrite append_cons in Hr. congruence.
Qed.

Lemma includes_unfold (s p : string) :
  includes s p =
  if String.prefix p s then true
  else match s with
       | EmptyString => false
       | String _ s' => includes s' p
       end.
Proof. destruct s; reflexivity. Qed.

(** [includes] is the substring relation. *)
Lemma includes_occurs (p s : string) :
  includes s p = true <-> exists l r, s = l ++ p ++ r.
Proof.
  induction s as [|x s IH]; rewrite includes_unfold.
  - destruct (String.prefix p "") eqn:Hpre.
    + apply prefix_append in Hpre as (r & Hr). split; [|reflexivity].
      intros _. now exists "", r.
    + split; [discriminate|]. intros (l & r & Hs).
      destruct l; [|discriminate]. rewrite append_nil in Hs.
      assert (String.prefix p "" = true) by (apply prefix_append; now exists r).
      congruence.
  - destruct (String.prefix p (String x s)) eqn:Hpre.
    + apply prefix_append in Hpre as (r & Hr). split; [|reflexivity].
      intros _. now exists "", r.
    + rewrite IH. split.
      * intros (l & r & ->). now exists (String x l), r.
      * intros (l & r & Hs). destruct l as [|y l].
        -- rewrite append_nil in Hs.
           assert (String.prefix p (String x s) = true)
             by (apply prefix_append; now exists r).
           congruence.
        -- rewrite append_cons in Hs. injection Hs as _ ->. now exists l, r.
Qed.

Lemma toLowerCase_append (a b : string) :
  toLowerCase (a ++ b) = toLowerCase a ++ toLowerCase b.
Proof.
  induction a as [|x a IH]; [reflexivity|].
  rewrite append_cons. simpl. now rewrite IH.
Qed.

Lemma join_cons (sep x y : string) (ds : list string) :
  join sep (x :: y :: ds) = x ++ sep ++ join sep (y :: ds).
Proof. reflexivity. Qed.

(** A joined element occurs in the joined string. *)
Lemma join_occurs (sep d : string) (ds : list string) :
  In d ds -> exists l r, join sep ds = l ++ d ++ r.
Proof.
  induction ds as [|x ds IH]; [intros []|].
  intros [->|Hin].
  - destruct ds as [|y ds].
    + exists "", "". unfold join. simpl. now rewrite append_empty_r.
    + rewrite join_cons. now exists "", (sep ++ join sep (y :: ds)).
  - destruct (IH Hin) as (l & r & Hjoin).
    destruct ds as [|y ds]; [destruct Hin|].
    rewrite join_cons, Hjoin.
    exists (x ++ sep ++ l), r. now rewrite !append_assoc.
Qed.

(** What one span contains, the concatenation of all spans contains. *)
Lemma span_in_allText (pattern d : string) (ds : list string) :
  In d ds ->
  includes (toLowerCase d) pattern = true ->
  includes (toLowerCase (join " " ds)) pattern = true.
Proof.
  intros Hin Hinc. apply includes_occurs in Hinc as (l' & r' & Hd).
  destruct (join_occurs " " d ds Hin) as (l & r & Hjoin).
  apply includes_occurs. rewrite Hjoin, !toLowerCase_append, Hd.
  exists (toLowerCase l ++ l'), (r' ++ toLowerCase r).
  now rewrite !append_assoc.
Qed.

End Substrings.

Section TextPatterns.
Import JSString RatingService.

(** The branch for single spans is never taken with a matching span:
    a phrase one span contains is in the concatenated text already. *)
Lemma text_partial_unreachable textAnnotations m :
  In m (processTextAnnotations textAnnotations) -> Item.matchType m = text.
Proof.
  unfold processTextAnnotations. generalize textPatterns. intros patterns Hin.
  apply (proj1 (@in_flat_map _ _ _ _ _)) in Hin as ([pattern points] & _ & Hin).
  cbn [fst snd] in Hin.
  destruct (includes _ pattern) eqn:Hall.
  - destruct Hin as [<-|[]]. reflexivity.
  - destruct (_ =? 1)%nat; [|destruct Hin].
    apply (proj1 (@in_flat_map _ _ _ _ _)) in Hin as (annotation & Hann & Hin).
    destruct (includes (toLowerCase (descriptionOrEmpty annotation)) pattern) eqn:Hone;
      [|destruct Hin].
    exfalso.
    assert (includes (toLowerCase (join " " (map descriptionOrEmpty textAnnotations)))
              pattern = true) as Habs.
    { apply (span_in_allText pattern (descriptionOrEmpty annotation)); [|exact Hone].
      now apply in_map. }
    congruence.
Qed.

End TextPatterns.

Section TextPatternProperty.
Import JSString RatingService.

(** C7: the items [processTextAnnotations] returns are exactly these:
  for each phrase of the text dictionary that occurs in the lower-cased
  concatenation of the spans, one [text] item at the phrase's full
  weight with confidence 0.9; for a phrase that does not, and only if
  it is a single word, one [text-partial] item per span that contains
  it and is at most three units longer, at 80% of the weight (rounded)
  with confidence 0.8.  A phrase of several words gives no
  [text-partial] item. *)
Theorem processTextAnnotations_matches (textAnnotations : list Annotation) (m : Item.t) :
let allText := toLowerCase (join " " (map descriptionOrEmpty textAnnotations)) in
In m (processTextAnnotations textAnnotations) <->
exists pattern points,
  In (pattern, points) textPatterns
  /\ ((includes allText pattern = true
       /\ m = Item.mk pattern points 0.9 text
                ("Text: " ++ dquote ++ pattern ++ dquote) None)
      \/ (includes allText pattern = false
          /\ length (split " " pattern) = 1%nat
          /\ exists annotation,
              In annotation textAnnotations
              /\ includes (toLowerCase (descriptionOrEmpty annotation)) pattern = true
              /\ (String.length (toLowerCase (descriptionOrEmpty annotation))
                  <= String.length pattern + 3)%nat
              /\ m = Item.mk pattern (Math_round (inject_Z points * 0.8)) 0.8
                       text_partial
                       ("Text: " ++ dquote
                          ++ interpolate (description annotation) ++ dquote)
                       None)).
Proof.
intros allText. unfold processTextAnnotations. fold allText.
generalize textPatterns. intros patterns. split.
- intros Hin.
  apply (proj1 (@in_flat_map _ _ _ _ _)) in Hin as ([pattern points] & Hpat & Hin).
  cbn [fst snd] in Hin. exists pattern, points. split; [exact Hpat|].
  destruct (includes allText pattern) eqn:Hall.
  + left. destruct Hin as [<-|[]]. now split.
  + right. split; [reflexivity|].
    destruct (Nat.eqb_spec (length (split " " pattern)) 1) as [Hone|Hmany];
      [|destruct Hin].
    split; [exact Hone|].
    apply (proj1 (@in_flat_map _ _ _ _ _)) in Hin as (annotation & Hann & Hin).
    exists annotation. split; [exact Hann|].
    destruct (includes (toLowerCase (descriptionOrEmpty annotation)) pattern);
      [|destruct Hin].
    destruct (Nat.leb_spec (String.length (toLowerCase (descriptionOrEmpty annotation)))
                (String.length pattern + 3)) as [Hlen|Hlen]; [|destruct Hin].
    destruct Hin as [<-|[]]. now repeat split.
- intros (pattern & points & Hpat & Hcase).
  apply (proj2 (@in_flat_map _ _ _ _ _)). exists (pattern, points).
  split; [exact Hpat|]. cbn [fst snd].
  destruct Hcase as [(Hall & ->) | (Hall & Hone & annotation & Hann & Hinc & Hlen & ->)];
    rewrite Hall.
  + now left.
  + rewrite Hone. cbn [Nat.eqb].
    apply (proj2 (@in_flat_map _ _ _ _ _)). exists annotation.
    split; [exact Hann|]. rewrite Hinc.
    destruct (Nat.leb_spec (String.length (toLowerCase (descriptionOrEmpty annotation)))
                (String.length pattern + 3)); [now left | lia].
Qed.

End TextPatternProperty.

(* ===================================================================== *)
(** * Updating the dictionary *)
(* ===================================================================== *)

Section ObjectLaws.
Import JSObject.
Context {V : Type}.

Lemma obj_has_get (k : string) (o : list (string * V)) :
  obj_has k o = false <-> obj_get k o = None.
Proof. unfold obj_has. destruct (obj_get k o); split; congruence. Qed.

Lemma obj_get_replace (k k' : string) (v : V) (o : list (string * V)) :
  obj_has k' o = true ->
  obj_get k (obj_replace k' v o) = if String.eqb k k' then Some v else obj_get k o.
Proof.
  unfold obj_has. induction o as [|[k0 v0] o IH]; simpl; [discriminate|].
  destruct (String.eqb_spec k' k0) as [->|Hne]; simpl.
  - intros _. destruct (String.eqb_spec k k0); reflexivity.
  - intros Hhas. rewrite (IH Hhas).
    destruct (String.eqb_spec k k0) as [E0|N0];
      destruct (String.eqb_spec k k') as [E1|N1]; congruence.
Qed.

Lemma obj_get_insert_index (k k' : string) (n : N) (v : V) (o : list (string * V)) :
  obj_get k' o = None ->
  obj_get k (obj_insert_index n k' v o)
  = if String.eqb k k' then Some v else obj_get k o.
Proof.
  induction o as [|[k0 v0] o IH]; simpl.
  - intros _. destruct (String.eqb k k'); reflexivity.
  - destruct (String.eqb_spec k' k0) as [->|Hne]; [discriminate|]. intros Hnone.
    destruct (array_index k0) as [n'|]; [destruct (n' <? n)%N|]; simpl;
      rewrite ?(IH Hnone);
      destruct (String.eqb_spec k k0) as [E0|N0];
      destruct (String.eqb_spec k k') as [E1|N1]; congruence.
Qed.

Lemma obj_get_snoc (k k' : string) (v : V) (o : list (string * V)) :
  obj_get k' o = None ->
  obj_get k (o ++ [(k', v)]) = if String.eqb k k' then Some v else obj_get k o.
Proof.
  induction o as [|[k0 v0] o IH]; simpl.
  - intros _. destruct (String.eqb k k'); reflexivity.
  - destruct (String.eqb_spec k' k0) as [->|Hne]; [discriminate|]. intros Hnone.
    rewrite (IH Hnone).
    destruct (String.eqb_spec k k0) as [E0|N0];
      destruct (String.eqb_spec k k') as [E1|N1]; congruence.
Qed.

(** Reading after an assignment. *)
Lemma obj_get_set (k k' : string) (v : V) (o : list (string * V)) :
  k' <> "__proto__" ->
  obj_get k (obj_set k' v o) = if String.eqb k k' then Some v else obj_get k o.
Proof.
  intros Hproto. unfold obj_set.
  destruct (String.eqb_spec k' "__proto__") as [|_]; [contradiction|].
  destruct (obj_has k' o) eqn:Hhas.
  - now apply obj_get_replace.
  - apply obj_has_get in Hhas.
    destruct (array_index k'); [now apply obj_get_insert_index | now apply obj_get_snoc].
Qed.

Lemma obj_set_proto (v : V) (o : list (string * V)) : obj_set "__proto__" v o = o.
Proof. reflexivity. Qed.

End ObjectLaws.

Section UpdateLaws.
Import JSString JSObject RatingService.

Lemma updateLoop_effect entries : forall items,
  updateLoop entries items
  = (invalidScore <$> firstInvalid entries, mergeEntries (validPrefix entries) items).
Proof.
  induction entries as [|[item value] entries IH]; intros items; [reflexivity|].
  cbn [updateLoop firstInvalid validPrefix]. unfold validScore.
  destruct (notOfTypeNumber value || belowZero value || aboveHundred value);
    [reflexivity|].
  cbn [negb]. rewrite IH. reflexivity.
Qed.



Lemma mergeEntries_get k entries : forall items,
  k <> "__proto__" ->
  obj_get k (mergeEntries entries items)
  = match lastWeight k entries with
    | Some score => Some score
    | None => obj_get k items
    end.
Proof.
  unfold mergeEntries.
  induction entries as [|[item score] entries IH]; intros items Hk; [reflexivity|].
  cbn [fold_left fst snd lastWeight]. rewrite IH by exact Hk.
  destruct (lastWeight k entries); [reflexivity|].
  destruct (String.eqb_spec k (toLowerCase item)) as [->|Hne].
  - rewrite obj_get_set by exact Hk. now rewrite String.eqb_refl.
  - destruct (String.eqb_spec (toLowerCase item) "__proto__") as [->|Hp].
    + now rewrite obj_set_proto.
    + rewrite obj_get_set by exact Hp.
      destruct (String.eqb_spec k (toLowerCase item)); [contradiction | reflexivity].
Qed.



(** Reading a dictionary of numbers as a dictionary object. *)
Lemma obj_get_stored k items :
  obj_get k (stored items) = JsNumber <$> obj_get k items.
Proof.
  induction items as [|[k0 w0] items IH]; [reflexivity|].
  cbn [stored map obj_get fst snd]. fold (stored items).
  destruct (String.eqb k k0); [reflexivity | exact IH].
Qed.

Lemma numbers_stored o items : numbers o = Some items -> o = stored items.
Proof.
  revert items. induction o as [|[k v] o IH]; intros items; cbn [numbers].
  - now intros [= <-].
  - destruct v as [score| | |]; try discriminate.
    destruct (numbers o) as [rest|]; [|discriminate].
    intros [= <-]. cbn [stored map fst snd]. now rewrite (IH rest eq_refl).
Qed.

End UpdateLaws.

Section UpdateProperty.
Import JSString JSObject RatingService.


End UpdateProperty.

(* ===================================================================== *)
(** * Scoring *)
(* ===================================================================== *)

Section ScoringProperties.
Import JSString JSObject RatingService.

(** Products as the source computes them: [15 * 0.7] is the double
  10.5 and rounds to 11, [50 * 0.57] is the double below 28.5 and
  rounds to 28; the partial match of "coffe" with "coffee" at
  confidence 0.7 has 3 points; and the confidence 0.145 is reported as
  0.14. *)
Lemma double_products :
Math_round (times 15 0.7) = 11
/\ Math_round (times 50 0.57) = 28
/\ map (fun m => (Match.keyword m, Match.adjustedPoints m))
     (partialMatches [("coffee", 6%Q)] "coffe" 0.7) = [("coffee", 3)]
/\ Math_round (times 0.145 100) = 14
/\ Qeq_bool (double (1 # 3)) (6004799503160661 # 18014398509481984) = true.
Proof. vm_compute. repeat split. Qed.

(** What the text pass records are the text matches it is given. *)
Lemma fold_addTextMatch_items ms : forall st d,
In d (detectedItems (fold_left addTextMatch ms st)) ->
In d (detectedItems st) \/ In d ms.
Proof.
induction ms as [|m ms IH]; intros st d; cbn [fold_left]; [now left|].
intros Hd. destruct (IH _ _ Hd) as [Hin|Hin]; [|right; now right].
unfold addTextMatch in Hin. case_bool_decide; [now left|].
cbn [detectedItems] in Hin. apply in_app_iff in Hin as [Hin|[<-|[]]];
  [now left | right; now left].
Qed.

(** What the label pass records for a label are the matches
  [findMatches] returns for it. *)
Lemma fold_addLabelMatch_items description labelText confidence ms : forall st d,
In d (detectedItems (fold_left (addLabelMatch description labelText confidence) ms st)) ->
In d (detectedItems st)
\/ exists m, In m ms
             /\ d = Item.mk (Match.keyword m) (Match.adjustedPoints m) confidence
                      (Match.matchType m) description (Some (Match.matchScore m)).
Proof.
induction ms as [|m ms IH]; intros st d; cbn [fold_left]; [now left|].
intros Hd. destruct (IH _ _ Hd) as [Hin|(m' & Hm' & ->)];
  [|right; exists m'; split; [now right | reflexivity]].
unfold addLabelMatch in Hin. case_bool_decide; [now left|].
cbn [detectedItems] in Hin. apply in_app_iff in Hin as [Hin|[<-|[]]]; [now left|].
right. exists m. split; [now left | reflexivity].
Qed.

Lemma forEachLabel_items items labels rest : forall st st' d,
forEachLabel items labels rest st = inr st' ->
In d (detectedItems st') ->
In d (detectedItems st)
\/ exists l text matches m,
     In l rest /\ description l = Some text /\ truthy text = true
     /\ findMatches items (trim (toLowerCase text)) (default 0%Q (score l)) labels
        = inr matches
     /\ In m matches
     /\ d = Item.mk (Match.keyword m) (Match.adjustedPoints m) (default 0%Q (score l))
              (Match.matchType m) text (Some (Match.matchScore m)).
Proof.
induction rest as [|l rest IH]; intros st st' d; cbn [forEachLabel].
- intros [= <-]. now left.
- destruct (processLabel items labels st l) as [e|st1] eqn:Hone;
    cbn [mbind Res_bind]; [discriminate|].
  intros Hrest Hd. destruct (IH _ _ _ Hrest Hd) as [Hin|(l' & text & ms & m & Hl' & Hrec)].
  + unfold processLabel in Hone. destruct (description l) as [text|] eqn:Htext.
    * destruct (truthy text) eqn:Htruthy; cbn [negb] in Hone.
      -- destruct (findMatches items (trim (toLowerCase text)) (default 0%Q (score l))
                     labels) as [e|matches] eqn:Hfind;
           cbn [mbind Res_bind] in Hone; [discriminate|].
         injection Hone as <-.
         apply fold_addLabelMatch_items in Hin as [Hin|(m & Hm & ->)]; [now left|].
         right. exists l, text, matches, m. split; [now left|]. now repeat split.
      -- injection Hone as <-. now left.
    * injection Hone as <-. now left.
  + right. exists l', text, ms, m. split; [now right | exact Hrec].
Qed.

(** In a list without two elements of the same key, the elements that
  share one key are at most one. *)
Lemma one_per_key {A B} (f : A -> B) (p : A -> bool) (key : B) (l : list A) :
List.NoDup (map f l) ->
(forall x, In x l -> p x = true -> f x = key) ->
(length (List.filter p l) <= 1)%nat.
Proof.
induction l as [|x l IH]; intros Hnd Hkey; [cbn; lia|].
cbn [map] in Hnd. apply List.NoDup_cons_iff in Hnd as [Hfresh Hnd].
cbn [List.filter]. destruct (p x) eqn:Hx.
- assert (Hnone : List.filter p l = []).
  { destruct (List.filter p l) as [|y rest] eqn:Hfilter; [reflexivity | exfalso].
    assert (Hy : In y (List.filter p l)) by (rewrite Hfilter; now left).
    apply (proj1 (filter_In _ _ _)) in Hy as [Hy Hpy].
    apply Hfresh. apply in_map_iff. exists y. split; [|exact Hy].
    rewrite (Hkey x (or_introl eq_refl) Hx). apply Hkey; [now right | exact Hpy]. }
  rewrite Hnone. cbn. lia.
- apply IH; [exact Hnd|]. intros y Hy. apply Hkey. now right.
Qed.

Lemma filter_map_length {A B} (g : A -> B) (p : B -> bool) (l : list A) :
length (List.filter p (map g l)) = length (List.filter (fun x => p (g x)) l).
Proof.
induction l as [|x l IH]; [reflexivity|]. cbn [map List.filter].
destruct (p (g x)); cbn [length]; now rewrite IH.
Qed.

(** A label match of the result comes from a label match of the scan
  with that description. *)
Lemma labelMatchFor_outItem d item :
labelMatchFor d (outItem item) = true ->
isLabelType (Item.matchType item) /\ Item.originalLabel item = d.
Proof.
unfold labelMatchFor, outItem. cbn [OutItem.matchType OutItem.originalLabel].
intros H. split.
- unfold isLabelType. destruct (Item.matchType item); auto; discriminate H.
- assert (Hd : (if truthy (Item.originalLabel item)
                then Some (Item.originalLabel item) else None) = Some d).
  { destruct (Item.matchType item); try discriminate H;
      now apply bool_decide_eq_true in H. }
  destruct (truthy (Item.originalLabel item)); [now injection Hd | discriminate Hd].
Qed.

(** What the scan records as label matches under a description whose
  normalised text is a dictionary key. *)
Lemma scan_exact_only items labels options st d weight item :
obj_get (trim (toLowerCase d)) items = Some weight ->
scan items labels options = inr st ->
In item (detectedItems st) ->
isLabelType (Item.matchType item) -> Item.originalLabel item = d ->
Item.matchType item = exact
/\ Item.item item = trim (toLowerCase d)
/\ exists l, In l labels /\ description l = Some d
             /\ Item.points item
                = Math_round (times weight (default 0%Q (score l))).
Proof.
intros Hkey Hscan Hin Hty Hd. unfold scan in Hscan.
destruct (forEachLabel_items _ _ _ _ _ item Hscan Hin)
  as [Hbefore|(l & text & matches & m & Hl & Htext & _ & Hfind & Hm & Hitem)].
- exfalso.
  assert (Hkind : isTextType (Item.matchType item)).
  { destruct (optTextAnnotations options) as [textAnnotations|]; [|destruct Hbefore].
    destruct (fold_addTextMatch_items _ _ _ Hbefore) as [Hnone|Hfrom];
      [destruct Hnone|].
    exact (processTextAnnotations_types _ _ Hfrom). }
  destruct Hkind as [E|E], Hty as [E'|[E'|E']]; congruence.
- subst item. cbn [Item.originalLabel] in Hd. subst text.
  unfold findMatches in Hfind. rewrite Hkey in Hfind.
  assert (Hone : matches = [Match.mk (trim (toLowerCase d)) exact 1.0
                              (Math_round (times weight (default 0%Q (score l))))])
    by congruence.
  subst matches. destruct Hm as [<-|[]].
  cbn [Item.matchType Item.item Item.points Match.matchType Match.keyword
       Match.adjustedPoints].
  split; [reflexivity|]. split; [reflexivity|].
  exists l. split; [exact Hl|]. split; [exact Htext | reflexivity].
Qed.

(** C3: a label whose lower-cased, trimmed text is a dictionary key gets
  exactly one match from [findMatches]: the exact one, with match score
  1.0 and [Math.round(weight * confidence)] points, the product being
  that of two doubles (no product overflowing); and in what
  [calculateRating] returns, the label matches recorded with that
  description are at most one (the deduplication key is shared by all
  the labels of that text), an exact match for the label text with the
  points of one such label: nothing semantic or partial is recorded
  with it. *)
Theorem exact_match_short_circuit
  (items : list (string * Q)) (labels : list Annotation)
  (l : Annotation) (d : string) (weight : Q)
  (Hdescription : description l = Some d)
  (Hkey : obj_get (trim (toLowerCase d)) items = Some weight)
  (Hfinite : forall l', l' = l \/ In l' labels ->
               overflows (double weight * double (default 0%Q (score l'))) = false) :
let labelText := trim (toLowerCase d) in
let confidence := default 0%Q (score l) in
findMatches items labelText confidence labels
= inr [Match.mk labelText exact 1.0 (Math_round (times weight confidence))]
/\ forall options r,
     calculateRating items (LabelArray labels) options = inr r ->
     let recorded := List.filter (labelMatchFor d) (result_detectedItems r) in
     (length recorded <= 1)%nat
     /\ forall o, In o recorded ->
          OutItem.matchType o = exact
          /\ OutItem.item o = labelText
          /\ exists l', In l' labels /\ description l' = Some d
                        /\ OutItem.points o
                           = Math_round (times weight (default 0%Q (score l'))).
Proof.
cbn zeta. split; [unfold findMatches; rewrite Hkey; reflexivity|].
intros options r Hreturns. unfold calculateRating in Hreturns.
destruct (scan items labels options) as [e|st] eqn:Hscan;
  cbn [mbind Res_bind] in Hreturns; [discriminate|].
destruct (calculateContextualAdjustments (detectedItems st) labels) as [e|adjustment];
  cbn [mbind Res_bind] in Hreturns; [discriminate|].
injection Hreturns as <-. cbn [result_detectedItems].
assert (Hexact : forall item, In item (detectedItems st) ->
                   labelMatchFor d (outItem item) = true ->
                   Item.matchType item = exact
                   /\ Item.item item = trim (toLowerCase d)
                   /\ Item.originalLabel item = d
                   /\ exists l', In l' labels /\ description l' = Some d
                                 /\ Item.points item
                                    = Math_round (times weight (default 0%Q (score l')))).
{ intros item Hin Hfor. apply labelMatchFor_outItem in Hfor as [Hty Hd].
  destruct (scan_exact_only _ _ _ _ _ _ _ Hkey Hscan Hin Hty Hd) as (H1 & H2 & H3).
  split; [exact H1|]. split; [exact H2|]. split; [exact Hd | exact H3]. }
split.
- rewrite filter_map_length.
  apply (one_per_key (fun item => keyOf (triple item)) _
           (keyOf (exact, trim (toLowerCase d), d))).
  + destruct (scan_invariant _ _ _ _ Hscan) as (_ & Hnd & _). exact Hnd.
  + intros item Hin Hfor. destruct (Hexact item Hin Hfor) as (Hty & Hitem & Hd & _).
    unfold triple. rewrite Hty, Hitem, Hd. reflexivity.
- intros o Ho. apply (proj1 (filter_In _ _ _)) in Ho as [Ho Hfor].
  apply (proj1 (@in_map_iff _ _ _ _ _)) in Ho as (item & <- & Hin).
  destruct (Hexact item Hin Hfor) as (Hty & Hitem & _ & Hpoints).
  unfold outItem. cbn [OutItem.matchType OutItem.item OutItem.points].
  split; [exact Hty|]. split; [exact Hitem | exact Hpoints].
Qed.

Lemma exact_match_short_circuit_witness :
findMatches performativeItems "matcha" 0.7 [label " Matcha " 0.7; label "MATCHA" 0.9]
= inr [Match.mk "matcha" exact 1.0 11]
/\ exists r,
     calculateRating performativeItems
       (LabelArray [label " Matcha " 0.7; label "MATCHA" 0.9]) noOptions = inr r
     /\ map summary (result_detectedItems r) = [("matcha", exact, 11)]
     /\ (length (List.filter (labelMatchFor " Matcha ") (result_detectedItems r)) <= 1)%nat.
Proof.
destruct (exact_match_short_circuit performativeItems
            [label " Matcha " 0.7; label "MATCHA" 0.9]
            (label " Matcha " 0.7) " Matcha " 15%Q eq_refl eq_refl)
  as (Hfind & Hrecorded).
{ intros l' [->|[<-|[<-|[]]]]; vm_compute; reflexivity. }
split; [exact Hfind|]. eexists.
assert (Hrun : calculateRating performativeItems
                 (LabelArray [label " Matcha " 0.7; label "MATCHA" 0.9]) noOptions
               = inr ?[r]) by (vm_compute; reflexivity).
split; [exact Hrun|]. split; [vm_compute; reflexivity|].
exact (proj1 (Hrecorded noOptions _ Hrun)).
Defined.

(** The final score never exceeds 100. *)
Lemma calculateRating_at_most_100 items labels options r :
calculateRating items labels options = inr r -> result_score r <= 100.
Proof.
unfold calculateRating. destruct labels as [|labels]; [discriminate|].
destruct (scan items labels options) as [e|st]; simpl; [discriminate|].
destruct (calculateContextualAdjustments (detectedItems st) labels) as [e|adj];
  simpl; [discriminate|].
intros [= <-]. simpl. lia.
Qed.

(** C1: the final score is capped above only.  The single label
  "fitness" at confidence 1 scores 4 points, the gym penalty takes 5,
  and the score returned is -1; the label "Bodybuilding" at confidence
  0.9 matches nothing, takes the same penalty, and the score returned
  is -5. *)
Theorem calculateRating_negative_score :
(exists r,
   calculateRating performativeItems (LabelArray [label "fitness" 1.0]) noOptions = inr r
   /\ map summary (result_detectedItems r) = [("fitness", exact, 4)]
   /\ rawScore (metadata r) = -1
   /\ result_score r = -1)
/\ (exists r,
      calculateRating performativeItems (LabelArray [label "Bodybuilding" 0.9]) noOptions
      = inr r
      /\ result_detectedItems r = []
      /\ result_score r = -5).
Proof.
split; eexists; (split; [vm_compute; reflexivity | repeat split]).
Qed.

(** C2, as stated, fails: scenario B does not give points 15 and 12 and
  score 27. *)
Lemma scenario_B_counterexample :
~ exists r,
    calculateRating performativeItems (LabelArray scenarioB) noOptions = inr r
    /\ map summary (result_detectedItems r)
       = [("matcha", exact, 15); ("tote bag", exact, 12)]
    /\ result_score r = 27.
Proof.
intros (r & Hr & _ & Hscore). vm_compute in Hr.
injection Hr as <-. discriminate Hscore.
Qed.

(** C2, as the code has it: scenario B gives two exact matches, matcha
  with 15 points and tote bag with 18 (the weight the dictionary holds
  for it); no synergy rule fires; two categories are represented (+3)
  and both items are high-confidence (+4); the score is 40. *)
Theorem scenario_B_score :
exists r,
  calculateRating performativeItems (LabelArray scenarioB) noOptions = inr r
  /\ map summary (result_detectedItems r)
     = [("matcha", exact, 15); ("tote bag", exact, 18)]
  /\ obj_get "tote bag" performativeItems = Some 18%Q
  /\ synergyBonus ["matcha"; "tote bag"] = (0, [])
  /\ categoriesRepresented ["matcha"; "tote bag"] = ["beverages"; "fashion"]
  /\ rawScore (metadata r) = 15 + 18 + 3 + 4
  /\ result_score r = 40.
Proof. eexists. split; [vm_compute; reflexivity | repeat split]. Qed.

Lemma each_triple_contributes_once_witness :
exists r,
  calculateRating performativeItems
    (LabelArray [label "matcha" 1.0; label "matcha" 1.0])
    (mkOptions (Some [mkAnnotation (Some "Matcha") None])) = inr r
  /\ map summary (result_detectedItems r)
     = [("matcha", text, 15); ("matcha", exact, 15)]
  /\ exists st adjustment,
       scan performativeItems [label "matcha" 1.0; label "matcha" 1.0]
         (mkOptions (Some [mkAnnotation (Some "Matcha") None])) = inr st
       /\ calculateContextualAdjustments (detectedItems st)
            [label "matcha" 1.0; label "matcha" 1.0] = inr adjustment
       /\ List.NoDup (map triple (detectedItems st))
       /\ rawScore (metadata r) = sumPoints (detectedItems st) + fst adjustment
       /\ result_detectedItems r = map outItem (detectedItems st).
Proof.
eexists. split; [vm_compute; reflexivity|]. split; [reflexivity|].
apply (each_triple_contributes_once performativeItems
         [label "matcha" 1.0; label "matcha" 1.0]
         (mkOptions (Some [mkAnnotation (Some "Matcha") None]))).
vm_compute. reflexivity.
Defined.



End ScoringProperties.

(* ===================================================================== *)
(** * More on the edit distance *)
(* ===================================================================== *)

Section DistanceBounds.
Import JSString RatingService.

Lemma distanceTable_le_max str1 str2 (i : nat) :
  forall j, (distanceTable str1 str2 i j <= Nat.max i j)%nat.
Proof.
  induction i as [|i IHi]; intros j.
  - rewrite distanceTable_0. lia.
  - induction j as [|j IHj]; [rewrite distanceTable_S_0; lia|].
    rewrite distanceTable_S_S. specialize (IHi j).
    destruct (same_unit _ _); lia.
Qed.

Lemma distanceTable_ge_diff str1 str2 (i : nat) :
  forall j, (i - j <= distanceTable str1 str2 i j
             /\ j - i <= distanceTable str1 str2 i j)%nat.
Proof.
  induction i as [|i IHi]; intros j.
  - rewrite distanceTable_0. lia.
  - induction j as [|j IHj]; [rewrite distanceTable_S_0; lia|].
    rewrite distanceTable_S_S.
    pose proof (IHi j). pose proof (IHi (S j)).
    destruct (same_unit _ _); lia.
Qed.

(** A zero entry means the two prefixes have the same length and the
    same units. *)
Lemma distanceTable_zero str1 str2 (i : nat) :
  forall j, distanceTable str1 str2 i j = 0%nat ->
            i = j /\ forall k, (k < i)%nat -> charAt str2 k = charAt str1 k.
Proof.
  induction i as [|i IHi]; intros j.
  - rewrite distanceTable_0. intros ->. split; [reflexivity | lia].
  - destruct j as [|j]; [rewrite distanceTable_S_0; discriminate|].
    rewrite distanceTable_S_S. unfold same_unit.
    case_bool_decide as Hsame; [|lia].
    intros Hzero. destruct (IHi j Hzero) as (-> & Hunits).
    split; [reflexivity|]. intros k Hk.
    destruct (decide (k = j)) as [->|Hne]; [exact Hsame | apply Hunits; lia].
Qed.

Lemma distanceTable_diagonal str (i : nat) : distanceTable str str i i = 0%nat.
Proof.
  induction i as [|i IH]; [reflexivity|].
  rewrite distanceTable_S_S. unfold same_unit. now rewrite bool_decide_eq_true_2.
Qed.

(** Strings of one length with the same unit at every index are equal. *)
Lemma string_by_units (a : string) : forall b,
  String.length a = String.length b ->
  (forall k, (k < String.length a)%nat -> charAt a k = charAt b k) -> a = b.
Proof.
  induction a as [|x a IH]; intros [|y b] Hlen Hunits; try discriminate; [reflexivity|].
  simpl in Hlen. f_equal.
  - specialize (Hunits 0%nat). simpl in Hunits. unfold charAt in Hunits. simpl in Hunits.
    injection (Hunits ltac:(lia)) as ->. reflexivity.
  - apply IH; [lia|]. intros k Hk.
    specialize (Hunits (S k)). unfold charAt in *. simpl in Hunits.
    apply Hunits. lia.
Qed.

Lemma distance_between (a b : string) :
  (Nat.max (String.length a) (String.length b)
   - Nat.min (String.length a) (String.length b)
   <= levenshteinDistance a b
   <= Nat.max (String.length a) (String.length b))%nat.
Proof.
  rewrite levenshteinDistance_table.
  pose proof (distanceTable_le_max a b (String.length b) (String.length a)).
  pose proof (distanceTable_ge_diff a b (String.length b) (String.length a)).
  lia.
Qed.

Lemma distance_zero (a b : string) : levenshteinDistance a b = 0%nat <-> a = b.
Proof.
  rewrite levenshteinDistance_table. split.
  - intros Hzero. apply distanceTable_zero in Hzero as (Hlen & Hunits).
    apply string_by_units; [congruence|].
    intros k Hk. symmetry. apply Hunits. lia.
  - intros ->. apply distanceTable_diagonal.
Qed.

Lemma similarity_between (a b : string) :
  (0 <= calculateStringSimilarity a b <= 1)%Q.
Proof.
  unfold calculateStringSimilarity.
  set (longer := if (String.length b <? String.length a)%nat then a else b).
  set (shorter := if (String.length b <? String.length a)%nat then b else a).
  destruct (Nat.eqb_spec (String.length longer) 0) as [Hempty|Hlen].
  - split; discriminate.
  - pose proof (distance_between longer shorter) as [_ Hup].
    assert (Hmax : Nat.max (String.length longer) (String.length shorter)
                   = String.length longer).
    { unfold longer, shorter.
      destruct (Nat.ltb_spec (String.length b) (String.length a)); lia. }
    rewrite Hmax in Hup.
    assert (Hpos : (0 < inject_Z (Z.of_nat (String.length longer)))%Q).
    { change 0%Q with (inject_Z 0). rewrite <- Zlt_Qlt. lia. }
    split.
    + apply Qle_shift_div_l; [exact Hpos|]. rewrite Qmult_0_l.
      change 0%Q with (inject_Z 0). rewrite <- Zle_Qle. lia.
    + apply Qle_shift_div_r; [exact Hpos|]. rewrite Qmult_1_l.
      rewrite <- Zle_Qle. lia.
Qed.

End DistanceBounds.

Section DistanceProperties.
Import JSString RatingService.

(** X1: the edit distance lies between the difference of the two lengths
  and the larger of them. *)
Theorem levenshteinDistance_bounds (a b : string) :
(Nat.max (String.length a) (String.length b)
 - Nat.min (String.length a) (String.length b)
 <= levenshteinDistance a b
 <= Nat.max (String.length a) (String.length b))%nat.
Proof.
apply distance_between.
Qed.

(** X2: the edit distance is 0 exactly for equal strings. *)
Theorem levenshteinDistance_zero_iff (a b : string) :
levenshteinDistance a b = 0%nat <-> a = b.
Proof.
apply distance_zero.
Qed.

(** X3: the similarity is a number between 0 and 1. *)
Theorem calculateStringSimilarity_range (a b : string) :
(0 <= calculateStringSimilarity a b <= 1)%Q.
Proof.
apply similarity_between.
Qed.

(** X4: the similarity is 1 exactly for equal strings. *)
Theorem calculateStringSimilarity_one_iff (a b : string) :
(calculateStringSimilarity a b == 1)%Q <-> a = b.
Proof.
unfold calculateStringSimilarity.
set (longer := if (String.length b <? String.length a)%nat then a else b).
set (shorter := if (String.length b <? String.length a)%nat then b else a).
assert (Hsame : longer = shorter <-> a = b).
{ unfold longer, shorter. destruct (_ <? _)%nat; split; congruence. }
assert (Hle : (String.length shorter <= String.length longer)%nat).
{ unfold longer, shorter.
  destruct (Nat.ltb_spec (String.length b) (String.length a)); lia. }
destruct (Nat.eqb_spec (String.length longer) 0) as [Hempty|Hlen].
- split; [intros _ | intros _; reflexivity]. apply Hsame.
  destruct longer; [|discriminate]. destruct shorter; [reflexivity | simpl in Hle; lia].
- rewrite <- Hsame, <- (distance_zero longer shorter).
  assert (Hpos : ~ (inject_Z (Z.of_nat (String.length longer)) == 0)%Q).
  { change 0%Q with (inject_Z 0). rewrite inject_Z_injective. lia. }
  split.
  + intros Hone.
    assert (E : (inject_Z (Z.of_nat (String.length longer)
                           - Z.of_nat (levenshteinDistance longer shorter))
                 == inject_Z (Z.of_nat (String.length longer)))%Q).
    { rewrite <- (Qmult_div_r _ _ Hpos), Hone. apply Qmult_1_r. }
    apply (proj1 (inject_Z_injective _ _)) in E. lia.
  + intros ->. rewrite Z.sub_0_r. unfold Qdiv. now apply Qmult_inv_r.
Qed.

End DistanceProperties.

(* ===================================================================== *)
(** * The shape of what [findMatches] returns *)
(* ===================================================================== *)

Section MatchLists.
Import JSString JSObject RatingService.

Lemma Qgtb_lt (x y : Q) : Qgtb x y = true -> (y < x)%Q.
Proof.
  unfold Qgtb. intros H. apply Qnot_le_lt. intros Hle.
  apply Qle_bool_iff in Hle. rewrite Hle in H. discriminate.
Qed.

Lemma Qgtb_false_le (x y : Q) : Qgtb x y = false -> (x <= y)%Q.
Proof.
  unfold Qgtb. intros H. apply Qle_bool_iff.
  destruct (Qle_bool x y); [reflexivity | discriminate].
Qed.

Lemma insertByScore_sorted m sorted :
  Sorted notHigher sorted -> Sorted notHigher (insertByScore m sorted).
Proof.
  induction sorted as [|m' rest IH]; intros Hs; simpl.
  - repeat constructor.
  - destruct (Qgtb (Match.matchScore m') (Match.matchScore m)) eqn:Hcmp.
    + inversion Hs as [|? ? Hrest Hhd]; subst. constructor; [now apply IH|].
      destruct rest as [|m'' rest]; simpl.
      * constructor. unfold notHigher. now apply Qlt_le_weak, Qgtb_lt.
      * destruct (Qgtb (Match.matchScore m'') (Match.matchScore m)).
        -- constructor. now inversion Hhd.
        -- constructor. unfold notHigher. now apply Qlt_le_weak, Qgtb_lt.
    + constructor; [exact Hs|]. constructor. now apply Qgtb_false_le.
Qed.

Lemma sortByScore_sorted ms : Sorted notHigher (sortByScore ms).
Proof.
  induction ms as [|m ms IH]; simpl; [constructor | now apply insertByScore_sorted].
Qed.

Lemma take_sorted {A} (R : A -> A -> Prop) n : forall l,
  Sorted R l -> Sorted R (take n l).
Proof.
  induction n as [|n IH]; intros [|x l] Hs; simpl; try constructor.
  - apply IH. now inversion Hs.
  - inversion Hs as [|? ? _ Hhd]; subst.
    destruct n, l; simpl; constructor. now inversion Hhd.
Qed.

Lemma In_obj_get {V} (k : string) (v : V) (o : list (string * V)) :
  In (k, v) o -> obj_get k o <> None.
Proof.
  induction o as [|[k0 v0] o IH]; simpl; [tauto|].
  intros [[= -> ->]|Hin].
  - now rewrite String.eqb_refl.
  - destruct (String.eqb k k0); [discriminate | now apply IH].
Qed.

(** What [getSemanticMatches] keeps has a positive weight in the
    dictionary. *)
Lemma collectMappings_points items labelText allLabels mappings : forall ms m,
  collectMappings items labelText allLabels mappings = inr ms ->
  In m ms -> sem_points m = default 0%Q (obj_get (sem_keyword m) items).
Proof.
  induction mappings as [|mapping rest IH]; intros ms m; simpl.
  - intros [= <-] [].
  - destruct (match condition mapping with
              | Some c => c labelText allLabels
              | None => inr true
              end) as [e|holds]; simpl; [discriminate|].
    destruct (collectMappings items labelText allLabels rest) as [e|more];
      simpl; [discriminate|].
    intros [= <-]. destruct holds.
    + intros [<-|Hin]; [reflexivity | now apply (IH more)].
    + now apply (IH more).
Qed.

Lemma getSemanticMatches_keys items labelText allLabels ms m :
  getSemanticMatches items labelText allLabels = inr ms ->
  In m ms -> obj_get (sem_keyword m) items <> None.
Proof.
  unfold getSemanticMatches.
  destruct (match obj_get labelText semanticMap with
            | Some mappings =>
                collectMappings items labelText (map describe allLabels) mappings
            | None => _
            end) as [e|all] eqn:Hall; simpl; [discriminate|].
  intros [= <-] Hin. apply list_elem_of_In, list_elem_of_filter in Hin as [Hpos Hin].
  apply list_elem_of_In in Hin.
  assert (Hpts : sem_points m = default 0%Q (obj_get (sem_keyword m) items)).
  { destruct (obj_get labelText semanticMap) as [mappings|].
    - eapply collectMappings_points; eauto.
    - destruct (inherited labelText); [discriminate|].
      injection Hall as <-. destruct Hin. }
  intros Hnone. rewrite Hnone in Hpts. simpl in Hpts. rewrite Hpts in Hpos.
  discriminate Hpos.
Qed.

Lemma obj_get_In {V} (k : string) (v : V) (o : list (string * V)) :
  obj_get k o = Some v -> In (k, v) o.
Proof.
  induction o as [|[k0 v0] o IH]; simpl; [discriminate|].
  destruct (String.eqb_spec k k0) as [->|Hne].
  - intros [= ->]. now left.
  - intros H. right. now apply IH.
Qed.

Lemma semanticMap_shadowedOrEmpty : forallb shadowedOrEmpty semanticMap = true.
Proof. vm_compute. reflexivity. Qed.

Lemma collectMappings_keywords items labelText allLabels mappings : forall ms m,
  collectMappings items labelText allLabels mappings = inr ms ->
  In m ms -> exists mapping, In mapping mappings /\ sem_keyword m = map_keyword mapping.
Proof.
  induction mappings as [|mapping rest IH]; intros ms m; simpl.
  - intros [= <-] [].
  - destruct (match condition mapping with
              | Some c => c labelText allLabels
              | None => inr true
              end) as [e|holds]; simpl; [discriminate|].
    destruct (collectMappings items labelText allLabels rest) as [e|more];
      simpl; [discriminate|].
    intros [= <-]. destruct holds.
    + intros [<-|Hin]; [exists mapping; split; [now left | reflexivity]|].
      destruct (IH more m eq_refl Hin) as (mp & Hmp & Hk).
      exists mp. split; [now right | exact Hk].
    + intros Hin. destruct (IH more m eq_refl Hin) as (mp & Hmp & Hk).
      exists mp. split; [now right | exact Hk].
Qed.

(** On the installed dictionary a label is a key, or the semantic pass
    finds nothing for it. *)
Lemma findMatches_kinds labelText allLabels :
  obj_get labelText performativeItems <> None
  \/ forall sem, getSemanticMatches performativeItems labelText allLabels = inr sem ->
                 sem = [].
Proof.
  destruct (obj_get labelText performativeItems) as [w|] eqn:Hdict;
    [left; discriminate | right].
  intros sem Hsem. destruct sem as [|m sem]; [reflexivity | exfalso].
  assert (Hin : In m (m :: sem)) by now left.
  pose proof (getSemanticMatches_keys _ _ _ _ _ Hsem Hin) as Hkey.
  unfold getSemanticMatches in Hsem.
  destruct (obj_get labelText semanticMap) as [mappings|] eqn:Hmap.
  - destruct (collectMappings performativeItems labelText (map describe allLabels)
                mappings) as [e|all] eqn:Hall; [discriminate|].
    cbn [mbind Res_bind] in Hsem. injection Hsem as Hsem.
    assert (Hboth : m ∈ filter (fun m => Qgtb (sem_points m) 0 = true) all)
      by (rewrite Hsem; now apply list_elem_of_In).
    apply list_elem_of_filter in Hboth as [Hpos Hm]. apply list_elem_of_In in Hm.
    rewrite (collectMappings_points _ _ _ _ _ _ Hall Hm) in Hpos.
    destruct (collectMappings_keywords _ _ _ _ _ _ Hall Hm) as (mapping & Hmp & Hk).
    pose proof semanticMap_shadowedOrEmpty as Htable.
    rewrite forallb_forall in Htable.
    specialize (Htable _ (obj_get_In _ _ _ Hmap)). unfold shadowedOrEmpty in Htable.
    cbn [fst snd] in Htable. unfold obj_has in Htable. rewrite Hdict in Htable.
    cbn [orb] in Htable. rewrite forallb_forall in Htable.
    specialize (Htable _ Hmp). rewrite <- Hk, Hpos in Htable. discriminate.
  - destruct (inherited labelText); [discriminate|].
    cbn [mbind Res_bind] in Hsem. injection Hsem as Hsem. discriminate Hsem.
Qed.

(** Without candidates from the semantic pass no semantic match is returned. *)
Lemma no_semantic_without_candidates items labelText confidence allLabels matches :
  (obj_get labelText items <> None
   \/ forall sem, getSemanticMatches items labelText allLabels = inr sem -> sem = []) ->
  findMatches items labelText confidence allLabels = inr matches ->
  forall m, In m matches -> Match.matchType m <> semantic.
Proof.
  intros Hkinds Hreturns m Hin. unfold findMatches in Hreturns.
  destruct (obj_get labelText items) as [weight|].
  - injection Hreturns as <-. destruct Hin as [<-|[]]. discriminate.
  - destruct Hkinds as [Hexact|Hnone]; [congruence|].
    destruct (getSemanticMatches items labelText allLabels)
      as [e|sem] eqn:Hsem; cbn [mbind Res_bind] in Hreturns; [congruence|].
    rewrite (Hnone sem eq_refl) in Hreturns.
    cbn [map length Nat.eqb] in Hreturns.
    injection Hreturns as <-. apply In_take, In_sortByScore in Hin.
    unfold partialMatches in Hin.
    apply (proj1 (@in_flat_map _ _ _ _ _)) in Hin as (kv & _ & Hin).
    destruct (Qgtb _ 0.5); [|destruct Hin].
    destruct Hin as [<-|[]]. discriminate.
Qed.

End MatchLists.

Section MatchProperties.
Import JSString JSObject RatingService.

(** X5: [findMatches] returns at most three matches, best match score
  first. *)
Theorem findMatches_top_three
  (items : list (string * Q)) (labelText : string) (confidence : Q)
  (allLabels : list Annotation) (matches : list Match.t)
  (Hreturns : findMatches items labelText confidence allLabels = inr matches) :
(length matches <= 3)%nat /\ Sorted notHigher matches.
Proof.
unfold findMatches in Hreturns.
destruct (obj_get labelText items) as [weight|].
- injection Hreturns as <-. split; [simpl; lia | repeat constructor].
- destruct (getSemanticMatches items labelText allLabels) as [e|sem];
    simpl in Hreturns; [discriminate|].
  injection Hreturns as <-. split.
  + rewrite length_take. lia.
  + apply take_sorted, sortByScore_sorted.
Qed.

Lemma findMatches_top_three_witness :
exists matches,
  findMatches performativeItems "cat" 1.0 [] = inr matches
  /\ map Match.keyword matches = ["hat"; "cap"; "car"]
  /\ (length matches <= 3)%nat /\ Sorted notHigher matches.
Proof.
eexists. split; [vm_compute; reflexivity|]. split; [reflexivity|].
apply (findMatches_top_three performativeItems "cat" 1.0 []).
vm_compute. reflexivity.
Defined.

(** X6: the matches [findMatches] returns for one label are all of one
  kind, every keyword is a key of the dictionary, an exact match is
  the label itself, and a partial match has a similarity above 0.5. *)
Theorem findMatches_one_strategy
  (items : list (string * Q)) (labelText : string) (confidence : Q)
  (allLabels : list Annotation) (matches : list Match.t)
  (Hreturns : findMatches items labelText confidence allLabels = inr matches) :
(forall m m', In m matches -> In m' matches ->
              Match.matchType m = Match.matchType m')
/\ (forall m, In m matches ->
      obj_get (Match.keyword m) items <> None
      /\ (Match.matchType m = exact -> Match.keyword m = labelText)
      /\ (Match.matchType m = partial -> (0.5 < Match.matchScore m)%Q)).
Proof.
unfold findMatches in Hreturns.
destruct (obj_get labelText items) as [weight|] eqn:Hexact.
- injection Hreturns as <-. split.
  + intros m m' [<-|[]] [<-|[]]. reflexivity.
  + intros m [<-|[]]. simpl. rewrite Hexact. repeat split; discriminate.
- destruct (getSemanticMatches items labelText allLabels) as [e|sem] eqn:Hsem;
    simpl in Hreturns; [discriminate|].
  injection Hreturns as <-.
  destruct (Nat.eqb_spec (length (map (fun m => Match.mk (sem_keyword m) semantic
                (sem_score m) (Math_round (times (times (sem_points m) confidence) (sem_score m))))
                sem)) 0) as [Hnone|Hsome].
  + assert (Hall : forall m,
               In m (take 3 (sortByScore (partialMatches items labelText confidence))) ->
               Match.matchType m = partial
               /\ obj_get (Match.keyword m) items <> None
               /\ (0.5 < Match.matchScore m)%Q).
    { intros m Hin. apply In_take, In_sortByScore in Hin.
      unfold partialMatches in Hin.
      apply (proj1 (@in_flat_map _ _ _ _ _)) in Hin as ([keyword points] & Hkv & Hin).
      cbn [fst snd] in Hin.
      destruct (Qgtb (calculateStringSimilarity labelText keyword) 0.5) eqn:Hsim;
        [|destruct Hin].
      destruct Hin as [<-|[]]. simpl. split; [reflexivity|].
      split; [eapply In_obj_get; eauto|].
      apply Qgtb_lt in Hsim. exact Hsim. }
    split.
    * intros m m' Hm Hm'. destruct (Hall m Hm) as (-> & _).
      now destruct (Hall m' Hm') as (-> & _).
    * intros m Hm. destruct (Hall m Hm) as (Hty & Hkey & Hscore).
      split; [exact Hkey|]. rewrite Hty. split; [discriminate | intros _; exact Hscore].
  + assert (Hall : forall m,
               In m (take 3 (sortByScore
                      (map (fun m => Match.mk (sem_keyword m) semantic (sem_score m)
                              (Math_round (times (times (sem_points m) confidence) (sem_score m))))
                           sem))) ->
               Match.matchType m = semantic
               /\ obj_get (Match.keyword m) items <> None).
    { intros m Hin. apply In_take, In_sortByScore in Hin.
      apply (proj1 (@in_map_iff _ _ _ _ _)) in Hin as (s & <- & Hs). simpl.
      split; [reflexivity|]. eapply getSemanticMatches_keys; eauto. }
    split.
    * intros m m' Hm Hm'. destruct (Hall m Hm) as (-> & _).
      now destruct (Hall m' Hm') as (-> & _).
    * intros m Hm. destruct (Hall m Hm) as (Hty & Hkey).
      split; [exact Hkey|]. rewrite Hty. split; discriminate.
Qed.

Lemma findMatches_one_strategy_witness :
exists matches,
  findMatches performativeItems "boot" 0.9 [] = inr matches
  /\ map Match.keyword matches = ["boots"; "book"]
  /\ (forall m m', In m matches -> In m' matches ->
                   Match.matchType m = Match.matchType m').
Proof.
eexists. split; [vm_compute; reflexivity|]. split; [reflexivity|].
apply (findMatches_one_strategy performativeItems "boot" 0.9 []).
vm_compute. reflexivity.
Defined.

(** X7: on the dictionary the constructor installs, [findMatches] never
  returns a semantic match: every generic label of the semantic table
  is either a dictionary key itself, so the exact match returns first,
  or maps only to keywords the dictionary does not hold. *)
Theorem findMatches_never_semantic
  (labelText : string) (confidence : Q) (allLabels : list Annotation)
  (matches : list Match.t)
  (Hreturns : findMatches performativeItems labelText confidence allLabels
              = inr matches) :
forall m, In m matches -> Match.matchType m <> semantic.
Proof.
exact (no_semantic_without_candidates performativeItems labelText confidence
         allLabels matches (findMatches_kinds labelText allLabels) Hreturns).
Qed.

Lemma findMatches_never_semantic_witness :
exists matches,
  findMatches performativeItems "singer" 0.9 [label "Music" 0.8] = inr matches
  /\ matches = []
  /\ forall m, In m matches -> Match.matchType m <> semantic.
Proof.
eexists. split; [vm_compute; reflexivity|]. split; [reflexivity|].
apply (findMatches_never_semantic "singer" 0.9 [label "Music" 0.8]).
vm_compute. reflexivity.
Defined.

End MatchProperties.

(* ===================================================================== *)
(** * What the text pattern matcher reports, and what is kept of it *)
(* ===================================================================== *)

Section TextItems.
Import JSString RatingService.

Lemma distinctStrings_NoDup l : distinctStrings l = true -> List.NoDup l.
Proof.
  induction l as [|s l IH]; simpl; [constructor|].
  intros H. apply andb_prop in H as [Hnot Hrest]. constructor; [|now apply IH].
  intros Hin. apply negb_true_iff in Hnot.
  assert (existsb (String.eqb s) l = true) as Hex.
  { apply existsb_exists. exists s. split; [exact Hin | apply String.eqb_refl]. }
  congruence.
Qed.

Lemma textPatterns_distinct : List.NoDup (map fst textPatterns).
Proof. apply distinctStrings_NoDup. vm_compute. reflexivity. Qed.

Lemma flat_map_nothing {A B} (f : A -> list B) l :
  (forall x, In x l -> f x = []) -> flat_map f l = [].
Proof.
  induction l as [|x l IH]; intros H; simpl; [reflexivity|].
  rewrite (H x) by now left. apply IH. intros y Hy. apply H. now right.
Qed.

(** The matcher over any phrase table: only the phrases found in the
    whole text give an item. *)
Lemma text_items_of_table (patterns : list (string * Z)) textAnnotations :
  flat_map
    (fun entry =>
       let pattern := fst entry in
       let points := snd entry in
       if includes (allTextOf textAnnotations) pattern
       then [Item.mk pattern points 0.9 text
               ("Text: " ++ dquote ++ pattern ++ dquote) None]
       else
         let patternWords := split " " pattern in
         if (length patternWords =? 1)%nat
         then flat_map
                (fun annotation =>
                   let text := toLowerCase (descriptionOrEmpty annotation) in
                   if includes text pattern
                      && (String.length text <=? String.length pattern + 3)%nat
                   then [Item.mk pattern (Math_round (inject_Z points * 0.8)) 0.8
                           text_partial
                           ("Text: " ++ dquote
                              ++ interpolate (description annotation) ++ dquote)
                           None]
                   else [])
                textAnnotations
         else [])
    patterns
  = map textItem
      (List.filter (fun entry => includes (allTextOf textAnnotations) (fst entry))
                   patterns).
Proof.
  match goal with |- flat_map ?f _ = _ => set (report := f) end.
  induction patterns as [|[pattern points] patterns IH]; [reflexivity|].
  change (flat_map report ((pattern, points) :: patterns))
    with (report (pattern, points) ++ flat_map report patterns)%list.
  rewrite IH. unfold report at 1. cbn [List.filter fst snd]. cbv zeta.
  destruct (includes (allTextOf textAnnotations) pattern) eqn:Hall; [reflexivity|].
  destruct (length (split " " pattern) =? 1)%nat; [|reflexivity].
  rewrite flat_map_nothing; [reflexivity|].
  intros annotation Hann.
  destruct (includes (toLowerCase (descriptionOrEmpty annotation)) pattern) eqn:Hone;
    [|reflexivity].
  exfalso. unfold allTextOf in Hall.
  rewrite (span_in_allText pattern (descriptionOrEmpty annotation)) in Hall;
    [discriminate | now apply in_map | exact Hone].
Qed.

Lemma NoDup_filter_names (p : string * Z -> bool) (patterns : list (string * Z)) :
  List.NoDup (map fst patterns) ->
  List.NoDup (map (fun entry => Item.item (textItem entry)) (List.filter p patterns)).
Proof.
  induction patterns as [|entry patterns IH]; simpl; [constructor|].
  intros Hnd. inversion Hnd as [|? ? Hnotin Hnd']; subst.
  destruct (p entry); [|now apply IH]. simpl. constructor; [|now apply IH].
  intros Hin. apply Hnotin.
  apply (proj1 (@in_map_iff _ _ _ _ _)) in Hin as (e & He & Hin).
  apply filter_In in Hin as [Hin _]. simpl in He. rewrite <- He. now apply in_map.
Qed.

(** No phrase is reported twice. *)
Lemma processTextAnnotations_names textAnnotations :
  List.NoDup (map Item.item (processTextAnnotations textAnnotations)).
Proof.
  unfold processTextAnnotations. fold (allTextOf textAnnotations).
  generalize textPatterns_distinct. generalize textPatterns. intros patterns Hnd.
  rewrite text_items_of_table, map_map. now apply NoDup_filter_names.
Qed.

Lemma text_key_injective (a b : string) : "text:" ++ a = "text:" ++ b -> a = b.
Proof. intros H. now injection H. Qed.

(** Items with pairwise distinct names, none of them used yet, are all
    recorded, in order. *)
Lemma fold_addTextMatch_all ms : forall st,
  List.NoDup (map Item.item ms) ->
  (forall m, In m ms -> "text:" ++ Item.item m ∉ usedKeywords st) ->
  let st' := fold_left addTextMatch ms st in
  detectedItems st' = (detectedItems st ++ ms)%list
  /\ totalScore st' = totalScore st + sumPoints ms
  /\ (forall k, k ∈ usedKeywords st' <->
                k ∈ usedKeywords st \/ exists m, In m ms /\ k = "text:" ++ Item.item m).
Proof.
  induction ms as [|m ms IH]; intros st Hnd Hfresh; cbv zeta.
  - simpl. rewrite app_nil_r. repeat split; [lia | now left |].
    intros [H|(m & [] & _)]. exact H.
  - inversion Hnd as [|? ? Hnotin Hnd']; subst.
    set (st1 := {| totalScore := totalScore st + Item.points m;
                   usedKeywords := {["text:" ++ Item.item m]} ∪ usedKeywords st;
                   detectedItems := (detectedItems st ++ [m])%list |}).
    assert (Hstep : fold_left addTextMatch (m :: ms) st = fold_left addTextMatch ms st1).
    { cbn [fold_left]. f_equal. unfold addTextMatch.
      now rewrite bool_decide_eq_false_2 by (apply Hfresh; now left). }
    rewrite Hstep.
    destruct (IH st1 Hnd') as (Hitems & Hscore & Hused).
    { intros m' Hm'. unfold st1. cbn [usedKeywords].
      intros Hin. apply elem_of_union in Hin as [Hin|Hin].
      - apply elem_of_singleton in Hin. apply text_key_injective in Hin.
        apply Hnotin. rewrite <- Hin. now apply in_map.
      - apply (Hfresh m'); [now right | exact Hin]. }
    cbv zeta in Hitems, Hscore, Hused. rewrite Hitems, Hscore.
    change (sumPoints (m :: ms)) with (Item.points m + sumPoints ms).
    split; [unfold st1; cbn [detectedItems]; now rewrite <- app_assoc|].
    split; [unfold st1; cbn [totalScore]; lia|].
    intros k. rewrite Hused. unfold st1. cbn [usedKeywords].
    rewrite elem_of_union, elem_of_singleton. split.
    + intros [[->|H]|(m' & Hm' & ->)].
      * right. exists m. split; [now left | reflexivity].
      * now left.
      * right. exists m'. split; [now right | reflexivity].
    + intros [H|(m' & [<-|Hm'] & ->)].
      * left. now right.
      * left. now left.
      * right. exists m'. split; [exact Hm' | reflexivity].
Qed.

(** The label pass only appends label matches. *)
Lemma fold_addLabelMatch_appends description labelText confidence ms : forall st,
  (forall m, In m ms -> isLabelType (Match.matchType m)) ->
  exists more,
    detectedItems (fold_left (addLabelMatch description labelText confidence) ms st)
    = (detectedItems st ++ more)%list
    /\ forall d, In d more -> isLabelType (Item.matchType d).
Proof.
  induction ms as [|m ms IH]; intros st Hty; simpl.
  - exists []. split; [now rewrite app_nil_r | intros d []].
  - destruct (IH (addLabelMatch description labelText confidence st m)) as (more & Hmore & Hk).
    { intros m' Hm'. apply Hty. now right. }
    rewrite Hmore. unfold addLabelMatch. case_bool_decide.
    + exists more. split; [reflexivity | exact Hk].
    + cbn [detectedItems]. eexists (_ :: more). rewrite <- app_assoc. split; [reflexivity|].
      intros d [<-|Hd]; [cbn [Item.matchType]; apply Hty; now left | now apply Hk].
Qed.

Lemma forEachLabel_appends items labels rest : forall st st',
  forEachLabel items labels rest st = inr st' ->
  exists more,
    detectedItems st' = (detectedItems st ++ more)%list
    /\ forall d, In d more -> isLabelType (Item.matchType d).
Proof.
  induction rest as [|l rest IH]; intros st st'; simpl.
  - intros [= <-]. exists []. split; [now rewrite app_nil_r | intros d []].
  - destruct (processLabel items labels st l) as [e|st1] eqn:Hone;
      cbn [mbind Res_bind]; [discriminate|].
    intros Hrest. destruct (IH st1 st' Hrest) as (more & Hmore & Hk).
    assert (exists first, detectedItems st1 = (detectedItems st ++ first)%list
                          /\ forall d, In d first -> isLabelType (Item.matchType d))
      as (first & Hfirst & Hkf).
    { unfold processLabel in Hone. destruct (description l) as [d|].
      - destruct (negb (truthy d)).
        + injection Hone as <-. exists []. split; [now rewrite app_nil_r | intros ? []].
        + destruct (findMatches items (trim (toLowerCase d)) (default 0%Q (score l)) labels)
            as [e|matches] eqn:Hfind; cbn [mbind Res_bind] in Hone; [discriminate|].
          injection Hone as <-. apply fold_addLabelMatch_appends.
          intros m Hm. eapply findMatches_types; eauto.
      - injection Hone as <-. exists []. split; [now rewrite app_nil_r | intros ? []]. }
    exists (first ++ more)%list. rewrite Hmore, Hfirst, <- app_assoc. split; [reflexivity|].
    intros d Hd. apply in_app_iff in Hd as [Hd|Hd]; [now apply Hkf | now apply Hk].
Qed.

End TextItems.

Section TextProperties.
Import JSString RatingService.

(** X8: [processTextAnnotations] returns, in the order of the text
  dictionary, one [text] item for each phrase that occurs in the
  lower-cased concatenation of the spans, and nothing else: no
  [text-partial] item is ever returned. *)
Theorem processTextAnnotations_exactly (textAnnotations : list Annotation) :
processTextAnnotations textAnnotations
= map textItem
    (List.filter (fun entry => includes (allTextOf textAnnotations) (fst entry))
                 textPatterns).
Proof.
unfold processTextAnnotations. fold (allTextOf textAnnotations).
generalize textPatterns. intros patterns. apply text_items_of_table.
Qed.

(** X9: when [calculateRating]'s scan returns, the detected items begin
  with all the items of the text matcher, each one kept, in the
  matcher's order; the label matches follow. *)
Theorem scan_keeps_every_text_item
  (items : list (string * Q)) (labels textAnnotations : list Annotation) (st : Scan)
  (Hreturns : scan items labels (mkOptions (Some textAnnotations)) = inr st) :
exists labelItems,
  detectedItems st = (processTextAnnotations textAnnotations ++ labelItems)%list
  /\ forall d, In d labelItems -> isLabelType (Item.matchType d).
Proof.
unfold scan in Hreturns. cbn [optTextAnnotations] in Hreturns.
apply forEachLabel_appends in Hreturns as (labelItems & Hitems & Hkinds).
exists labelItems. split; [|exact Hkinds]. rewrite Hitems. f_equal.
destruct (fold_addTextMatch_all (processTextAnnotations textAnnotations) (mkScan 0 ∅ []))
  as (Hall & _).
- apply processTextAnnotations_names.
- intros m _. cbn [usedKeywords]. apply not_elem_of_empty.
- exact Hall.
Qed.

Lemma scan_keeps_every_text_item_witness :
exists st labelItems,
  scan performativeItems [label "Book" 0.9]
    (mkOptions (Some [mkAnnotation (Some "The New Yorker") None;
                      mkAnnotation (Some "A24") None])) = inr st
  /\ map Item.item (detectedItems st) = ["new yorker"; "the new yorker"; "a24"; "book"]
  /\ detectedItems st
     = (processTextAnnotations [mkAnnotation (Some "The New Yorker") None;
                                mkAnnotation (Some "A24") None] ++ labelItems)%list
  /\ forall d, In d labelItems -> isLabelType (Item.matchType d).
Proof.
eexists. 
assert (Hscan : scan performativeItems [label "Book" 0.9]
    (mkOptions (Some [mkAnnotation (Some "The New Yorker") None;
                      mkAnnotation (Some "A24") None])) = inr ?[st])
  by (vm_compute; reflexivity).
destruct (scan_keeps_every_text_item _ _ _ _ Hscan) as (labelItems & Hitems & Hkinds).
exists labelItems. split; [exact Hscan|]. split; [vm_compute; reflexivity|].
split; [exact Hitems | exact Hkinds].
Defined.

End TextProperties.

(* ===================================================================== *)
(** * Bounds on the contextual adjustment and on the score *)
(* ===================================================================== *)

Section Adjustments.
Import JSString JSObject RatingService.

Lemma Math_round_integer (z : Z) : Math_round (inject_Z z) = z.
Proof.
  unfold Math_round, Qfloor. simpl.
  symmetry. apply Z.div_unique with (r := 5); lia.
Qed.

Lemma Math_round_nonneg (x : Q) : (0 <= x)%Q -> 0 <= Math_round x.
Proof.
  intros Hx. unfold Math_round. change 0 with (Qfloor 0).
  apply Qfloor_resp_le. rewrite <- (Qplus_0_r 0).
  apply Qplus_le_compat; [exact Hx | discriminate].
Qed.

(** A pass over bonus rules moves the running adjustment by no more
    than the rules can add or take. *)
Lemma fold_rules_bounds {R} (applies : R -> bool) (amount : R -> Z)
    (reason : R -> string) (rules : list R) : forall acc : Z * list string,
  let acc' := fold_left (fun acc r =>
                           if applies r
                           then (fst acc + amount r, snd acc ++ [reason r])%list
                           else acc) rules acc in
  fst acc + mostTaken amount rules <= fst acc' <= fst acc + mostAdded amount rules.
Proof.
  induction rules as [|r rules IH]; intros acc; cbv zeta.
  - simpl. lia.
  - cbn [fold_left mostTaken mostAdded fold_right].
    destruct (applies r).
    + specialize (IH (fst acc + amount r, (snd acc ++ [reason r])%list)).
      cbv zeta in IH. cbn [fst] in IH. fold (mostTaken amount rules) in *.
      fold (mostAdded amount rules) in *. lia.
    + specialize (IH acc). cbv zeta in IH. fold (mostTaken amount rules) in *.
      fold (mostAdded amount rules) in *. lia.
Qed.

Lemma synergyBonus_bounds itemNames : 0 <= fst (synergyBonus itemNames) <= 62.
Proof.
  unfold synergyBonus.
  pose proof (fold_rules_bounds (fun s => hasAllItems itemNames (fst (fst s)))
                (fun s => snd (fst s)) snd synergies (0, [])) as H.
  cbv zeta in H. exact H.
Qed.

Lemma penaltyTotal_bounds allLabelTexts acc :
  fst acc - 12 <= fst (penaltyTotal allLabelTexts acc) <= fst acc.
Proof.
  unfold penaltyTotal.
  pose proof (fold_rules_bounds (fun p => penaltyCondition allLabelTexts (fst (fst p)))
                (fun p => snd (fst p)) snd contextPenalties acc) as H.
  cbv beta zeta in H. change (mostTaken _ contextPenalties) with (-12) in H.
  change (mostAdded _ contextPenalties) with 0 in H. lia.
Qed.

(** [labelTexts] fails exactly on a label without a description. *)
Lemma labelTexts_fails allLabels :
  (exists l, In l allLabels /\ description l = None) ->
  exists e, labelTexts allLabels = inl e.
Proof.
  induction allLabels as [|l0 rest IH]; intros (l & Hin & Hnone); [destruct Hin|].
  simpl. destruct (description l0) as [d|] eqn:Hd; [|eexists; reflexivity].
  destruct Hin as [->|Hin]; [congruence|].
  destruct IH as (e & He); [now exists l|]. rewrite He. now exists e.
Qed.

Lemma adjustment_between detectedItems allLabels adjustment reason :
  calculateContextualAdjustments detectedItems allLabels = inr (adjustment, reason) ->
  -12 <= adjustment <= 72.
Proof.
  intros Hreturns.
  unfold calculateContextualAdjustments in Hreturns.
  destruct (labelTexts allLabels) as [e|texts]; cbn [mbind Res_bind] in Hreturns;
    [discriminate|].
  cbv zeta in Hreturns.
  pose proof (synergyBonus_bounds (map Item.item detectedItems)) as Hsyn.
  pose proof (penaltyTotal_bounds texts (synergyBonus (map Item.item detectedItems)))
    as Hpen.
  set (three := (3 <=? _)%nat) in Hreturns.
  set (two := (_ =? 2)%nat) in Hreturns.
  set (confident := (2 <=? _)%nat) in Hreturns.
  clearbody three two confident.
  injection Hreturns as Hadj _. rewrite Math_round_integer in Hadj. subst adjustment.
  destruct three, two, confident; cbn [fst]; lia.
Qed.

End Adjustments.

Section AdjustmentProperties.
Import JSString JSObject RatingService.

(** X10: whenever [calculateContextualAdjustments] returns, the
  adjustment is between -12 (all three penalties, nothing else) and 72
  (all synergies, three categories, two high-confidence items). *)
Theorem contextual_adjustment_bounds
  (detectedItems : list Item.t) (allLabels : list Annotation)
  (adjustment : Z) (reason : string)
  (Hreturns : calculateContextualAdjustments detectedItems allLabels
              = inr (adjustment, reason)) :
-12 <= adjustment <= 72.
Proof.
exact (adjustment_between _ _ _ _ Hreturns).
Qed.

Lemma contextual_adjustment_bounds_witness :
calculateContextualAdjustments [] [label "Gym suit" 0.9; label "Xbox" 0.9]
= inr (-12, "Traditional gym culture detected; Gaming culture detected; Corporate aesthetic detected")
/\ -12 <= -12 <= 72.
Proof.
split; [vm_compute; reflexivity|].
apply (contextual_adjustment_bounds [] [label "Gym suit" 0.9; label "Xbox" 0.9] (-12)
         "Traditional gym culture detected; Gaming culture detected; Corporate aesthetic detected").
vm_compute. reflexivity.
Defined.

(** X11: a label without a description makes [calculateRating] throw,
  whatever else the input holds. *)
Theorem calculateRating_throws_on_missing_description
  (items : list (string * Q)) (labels : list Annotation) (options : Options)
  (l : Annotation) (Hin : In l labels) (Hmissing : description l = None) :
exists e, calculateRating items (LabelArray labels) options = inl e.
Proof.
unfold calculateRating.
destruct (scan items labels options) as [e|st]; cbn [mbind Res_bind];
  [now exists e|].
unfold calculateContextualAdjustments.
destruct (labelTexts_fails labels) as (e & He); [now exists l|].
rewrite He. now exists e.
Qed.

Lemma calculateRating_throws_on_missing_description_witness :
exists e,
  calculateRating performativeItems
    (LabelArray [mkAnnotation (Some "matcha") None;
                 mkAnnotation None (Some 0.95%Q);
                 label "tote bag" 0.88]) noOptions = inl e.
Proof.
apply (calculateRating_throws_on_missing_description performativeItems _ noOptions
         (mkAnnotation None (Some 0.95%Q))); [right; left; reflexivity | reflexivity].
Defined.

End AdjustmentProperties.

(* ===================================================================== *)
(** * The range of the score *)
(* ===================================================================== *)

Section Points.
Import JSString JSObject RatingService.

Lemma textPatterns_nonneg entry : In entry textPatterns -> 0 <= snd entry.
Proof.
  assert (Hall : forallb (fun entry => 0 <=? snd entry) textPatterns = true)
    by (vm_compute; reflexivity).
  intros Hin. apply Z.leb_le.
  exact (proj1 (forallb_forall _ textPatterns) Hall entry Hin).
Qed.

Lemma semanticMap_scores_nonneg labelText mappings mapping :
  obj_get labelText semanticMap = Some mappings -> In mapping mappings ->
  (0 <= map_score mapping)%Q.
Proof.
  assert (Hall : forallb (fun entry =>
                            forallb (fun mapping => Qle_bool 0 (map_score mapping))
                                    (snd entry)) semanticMap = true)
    by (vm_compute; reflexivity).
  intros Hget Hin. apply obj_get_In in Hget.
  pose proof (proj1 (forallb_forall _ semanticMap) Hall _ Hget) as Hentry.
  cbn [snd] in Hentry. apply Qle_bool_iff.
  exact (proj1 (forallb_forall _ mappings) Hentry mapping Hin).
Qed.

Lemma collectMappings_scores items labelText allLabels mappings : forall ms m,
  collectMappings items labelText allLabels mappings = inr ms ->
  In m ms -> exists mapping, In mapping mappings /\ sem_score m = map_score mapping.
Proof.
  induction mappings as [|mapping rest IH]; intros ms m; simpl.
  - intros [= <-] [].
  - destruct (match condition mapping with
              | Some c => c labelText allLabels
              | None => inr true
              end) as [e|holds]; simpl; [discriminate|].
    destruct (collectMappings items labelText allLabels rest) as [e|more];
      simpl; [discriminate|].
    intros [= <-]. destruct holds.
    + intros [<-|Hin]; [exists mapping; split; [now left | reflexivity]|].
      destruct (IH more m eq_refl Hin) as (mp & Hmp & Hk).
      exists mp. split; [now right | exact Hk].
    + intros Hin. destruct (IH more m eq_refl Hin) as (mp & Hmp & Hk).
      exists mp. split; [now right | exact Hk].
Qed.

Lemma getSemanticMatches_nonneg items labelText allLabels ms m :
  getSemanticMatches items labelText allLabels = inr ms -> In m ms ->
  (0 <= sem_points m)%Q /\ (0 <= sem_score m)%Q.
Proof.
  unfold getSemanticMatches.
  destruct (obj_get labelText semanticMap) as [mappings|] eqn:Hmap.
  - destruct (collectMappings items labelText (map describe allLabels) mappings)
      as [e|all] eqn:Hall; cbn [mbind Res_bind]; [discriminate|].
    intros [= <-] Hin.
    apply list_elem_of_In, list_elem_of_filter in Hin as [Hpos Hin].
    apply list_elem_of_In in Hin. split.
    + apply Qlt_le_weak. now apply Qgtb_lt.
    + destruct (collectMappings_scores _ _ _ _ _ _ Hall Hin) as (mapping & Hmp & ->).
      eapply semanticMap_scores_nonneg; eauto.
  - destruct (inherited labelText); cbn [mbind Res_bind]; [discriminate|].
    intros [= <-] [].
Qed.

(** Rounding to a double keeps the sign. *)
Lemma pow2_pos (e : Z) : (0 < pow2 e)%Q.
Proof.
  unfold pow2. destruct (Z.leb_spec 0 e).
  - change 0%Q with (inject_Z 0). rewrite <- Zlt_Qlt. apply Z.pow_pos_nonneg; lia.
  - apply Qinv_lt_0_compat. change 0%Q with (inject_Z 0). rewrite <- Zlt_Qlt.
    apply Z.pow_pos_nonneg; lia.
Qed.

Lemma roundEven_nonneg (x : Q) : (0 <= x)%Q -> 0 <= roundEven x.
Proof.
  intros Hx. assert (Hfloor : 0 <= Qfloor x).
  { change 0 with (Qfloor 0). now apply Qfloor_resp_le. }
  unfold roundEven. destruct (_ ?= _)%Q; [destruct (Z.even _)| |]; lia.
Qed.

Lemma double_nonneg (q : Q) : (0 <= q)%Q -> (0 <= double q)%Q.
Proof.
  intros Hq. unfold double. destruct (Qeq_bool q 0); [apply Qle_refl|].
  cbv zeta. generalize (Z.max (binade (Qabs q) - 52) (-1074)). intros e.
  pose proof (pow2_pos e) as Hpos.
  apply Qmult_le_0_compat; [|now apply Qlt_le_weak].
  change 0%Q with (inject_Z 0). rewrite <- Zle_Qle. apply roundEven_nonneg.
  apply Qle_shift_div_l; [exact Hpos|]. now rewrite Qmult_0_l.
Qed.

Lemma times_nonneg (x y : Q) : (0 <= x)%Q -> (0 <= y)%Q -> (0 <= times x y)%Q.
Proof.
  intros Hx Hy. unfold times.
  apply double_nonneg, Qmult_le_0_compat; now apply double_nonneg.
Qed.

(** With weights and a confidence that are not negative, no match
    carries negative points. *)
Lemma findMatches_points_nonneg items labelText confidence allLabels matches :
  (forall k w, In (k, w) items -> (0 <= w)%Q) -> (0 <= confidence)%Q ->
  findMatches items labelText confidence allLabels = inr matches ->
  forall m, In m matches -> 0 <= Match.adjustedPoints m.
Proof.
  intros Hweights Hconf. unfold findMatches.
  destruct (obj_get labelText items) as [weight|] eqn:Hget.
  - intros [= <-] m [<-|[]]. cbn [Match.adjustedPoints].
    apply Math_round_nonneg, times_nonneg; [|exact Hconf].
    eapply Hweights, obj_get_In, Hget.
  - destruct (getSemanticMatches items labelText allLabels) as [e|sem] eqn:Hsem;
      cbn [mbind Res_bind]; [discriminate|].
    intros [= <-] m Hin. apply In_take, In_sortByScore in Hin.
    destruct (length _ =? 0)%nat.
    + unfold partialMatches in Hin.
      apply (proj1 (@in_flat_map _ _ _ _ _)) in Hin as ([keyword points] & Hkv & Hin).
      cbn [fst snd] in Hin.
      destruct (Qgtb (calculateStringSimilarity labelText keyword) 0.5);
        [|destruct Hin].
      destruct Hin as [<-|[]]. cbn [Match.adjustedPoints].
      apply Math_round_nonneg, times_nonneg;
        [apply times_nonneg; [eapply Hweights, Hkv | exact Hconf]
        | apply similarity_between].
    + apply (proj1 (@in_map_iff _ _ _ _ _)) in Hin as (sm & <- & Hsm).
      cbn [Match.adjustedPoints].
      destruct (getSemanticMatches_nonneg _ _ _ _ _ Hsem Hsm) as [Hp Hs].
      apply Math_round_nonneg, times_nonneg;
        [apply times_nonneg; [exact Hp | exact Hconf] | exact Hs].
Qed.

Lemma fold_addTextMatch_points ms : forall st,
  (forall m, In m ms -> 0 <= Item.points m) ->
  (forall d, In d (detectedItems st) -> 0 <= Item.points d) ->
  forall d, In d (detectedItems (fold_left addTextMatch ms st)) -> 0 <= Item.points d.
Proof.
  induction ms as [|m ms IH]; intros st Hms Hst; [exact Hst|].
  cbn [fold_left]. apply IH; [intros m' Hm'; apply Hms; now right|].
  unfold addTextMatch. case_bool_decide; [exact Hst|]. cbn [detectedItems].
  intros d Hd. apply in_app_iff in Hd as [Hd|[<-|[]]]; [now apply Hst|].
  apply Hms. now left.
Qed.

Lemma fold_addLabelMatch_points description labelText confidence ms : forall st,
  (forall m, In m ms -> 0 <= Match.adjustedPoints m) ->
  (forall d, In d (detectedItems st) -> 0 <= Item.points d) ->
  forall d,
    In d (detectedItems (fold_left (addLabelMatch description labelText confidence) ms st)) ->
    0 <= Item.points d.
Proof.
  induction ms as [|m ms IH]; intros st Hms Hst; [exact Hst|].
  cbn [fold_left]. apply IH; [intros m' Hm'; apply Hms; now right|].
  unfold addLabelMatch. case_bool_decide; [exact Hst|]. cbn [detectedItems].
  intros d Hd. apply in_app_iff in Hd as [Hd|[<-|[]]]; [now apply Hst|].
  cbn [Item.points]. apply Hms. now left.
Qed.

Lemma forEachLabel_points items labels rest : forall st st',
  (forall k w, In (k, w) items -> (0 <= w)%Q) ->
  (forall l c, In l rest -> score l = Some c -> (0 <= c)%Q) ->
  forEachLabel items labels rest st = inr st' ->
  (forall d, In d (detectedItems st) -> 0 <= Item.points d) ->
  forall d, In d (detectedItems st') -> 0 <= Item.points d.
Proof.
  induction rest as [|l rest IH]; intros st st' Hweights Hscores; cbn [forEachLabel].
  - now intros [= <-].
  - destruct (processLabel items labels st l) as [e|st1] eqn:Hone;
      cbn [mbind Res_bind]; [discriminate|].
    intros Hrest Hst. apply (IH st1 st' Hweights); [|exact Hrest|].
    { intros l' c Hl'. apply Hscores. now right. }
    unfold processLabel in Hone. destruct (description l) as [text|].
    + destruct (negb (truthy text)); [now injection Hone as <-|].
      destruct (findMatches items (trim (toLowerCase text)) (default 0%Q (score l)) labels)
        as [e|matches] eqn:Hfind; cbn [mbind Res_bind] in Hone; [discriminate|].
      injection Hone as <-. apply fold_addLabelMatch_points; [|exact Hst].
      eapply findMatches_points_nonneg; [exact Hweights | | exact Hfind].
      destruct (score l) as [c|] eqn:Hc; cbn [default];
        [apply (Hscores l c); [now left | exact Hc] | discriminate].
    + now injection Hone as <-.
Qed.

Lemma processTextAnnotations_points textAnnotations m :
  In m (processTextAnnotations textAnnotations) -> 0 <= Item.points m.
Proof.
  unfold processTextAnnotations. fold (allTextOf textAnnotations).
  pose proof textPatterns_nonneg as Htable. revert Htable.
  generalize textPatterns. intros patterns Htable Hin.
  rewrite text_items_of_table in Hin.
  apply (proj1 (@in_map_iff _ _ _ _ _)) in Hin as (entry & <- & Hentry).
  apply (proj1 (filter_In _ _ _)) in Hentry as [Hentry _].
  cbn [textItem Item.points]. now apply Htable.
Qed.

Lemma sumPoints_nonneg ds :
  (forall d, In d ds -> 0 <= Item.points d) -> 0 <= sumPoints ds.
Proof.
  induction ds as [|d ds IH]; intros Hall; [reflexivity|].
  change (sumPoints (d :: ds)) with (Item.points d + sumPoints ds).
  pose proof (Hall d ltac:(now left)). pose proof (IH ltac:(intros; apply Hall; now right)).
  lia.
Qed.

Lemma performativeItems_nonneg k w : In (k, w) performativeItems -> (0 <= w)%Q.
Proof.
  assert (Hall : forallb (fun entry => Qle_bool 0 (snd entry)) performativeItems = true)
    by (vm_compute; reflexivity).
  intros Hin. apply Qle_bool_iff.
  exact (proj1 (forallb_forall _ performativeItems) Hall (k, w) Hin).
Qed.

End Points.

Section ScoreRange.
Import JSString JSObject RatingService.

(** X12: with dictionary weights and label confidences that are not
  negative, no detected item carries negative points and the score
  [calculateRating] returns lies between -12 and 100; the raw score is
  the sum of the points plus an adjustment of -12 at least. *)
Theorem calculateRating_score_range
  (items : list (string * Q)) (labels : list Annotation) (options : Options)
  (r : RatingResult)
  (Hweights : forall k w, In (k, w) items -> (0 <= w)%Q)
  (Hscores : forall l c, In l labels -> score l = Some c -> (0 <= c)%Q)
  (Hreturns : calculateRating items (LabelArray labels) options = inr r) :
-12 <= result_score r <= 100
/\ -12 <= rawScore (metadata r)
/\ forall d, In d (result_detectedItems r) -> 0 <= OutItem.points d.
Proof.
unfold calculateRating in Hreturns.
destruct (scan items labels options) as [e|st] eqn:Hscan;
  cbn [mbind Res_bind] in Hreturns; [discriminate|].
destruct (calculateContextualAdjustments (detectedItems st) labels)
  as [e|[adjustment reason]] eqn:Hadj; cbn [mbind Res_bind] in Hreturns; [discriminate|].
injection Hreturns as <-.
cbn [result_score rawScore metadata result_detectedItems fst].
pose proof (adjustment_between _ _ _ _ Hadj) as Hbounds.
destruct (scan_invariant _ _ _ _ Hscan) as (Htotal & _).
assert (Hpoints : forall d, In d (detectedItems st) -> 0 <= Item.points d).
{ unfold scan in Hscan.
  eapply forEachLabel_points; [exact Hweights | exact Hscores | exact Hscan |].
  destruct (optTextAnnotations options) as [textAnnotations|]; [|intros d []].
  apply fold_addTextMatch_points; [|intros d []].
  intros m. apply processTextAnnotations_points. }
pose proof (sumPoints_nonneg _ Hpoints) as Hsum.
split; [lia|]. split; [lia|].
intros d Hd. apply (proj1 (@in_map_iff _ _ _ _ _)) in Hd as (d0 & <- & Hd0).
unfold outItem. cbn [OutItem.points]. now apply Hpoints.
Qed.

Lemma calculateRating_score_range_witness :
exists r,
  calculateRating performativeItems
    (LabelArray [label "Bodybuilding" 0.9; label "Xbox" 0.8; label "Business" 0.7])
    noOptions = inr r
  /\ result_score r = -12
  /\ (-12 <= result_score r <= 100
      /\ -12 <= rawScore (metadata r)
      /\ forall d, In d (result_detectedItems r) -> 0 <= OutItem.points d).
Proof.
eexists.
assert (Hrun : calculateRating performativeItems
                 (LabelArray [label "Bodybuilding" 0.9; label "Xbox" 0.8;
                              label "Business" 0.7]) noOptions = inr ?[r])
  by (vm_compute; reflexivity).
split; [exact Hrun|]. split; [vm_compute; reflexivity|].
apply (calculateRating_score_range performativeItems
         [label "Bodybuilding" 0.9; label "Xbox" 0.8; label "Business" 0.7]
         noOptions _ performativeItems_nonneg).
- intros l c [<-|[<-|[<-|[]]]] [= <-]; discriminate.
- exact Hrun.
Defined.

End ScoreRange.

(* ===================================================================== *)
(** * The verdict *)
(* ===================================================================== *)

Section Verdict.
Import JSString JSObject RatingService.

Lemma scoreRanges_value : scoreRanges = [100; 95; 85; 75; 65; 55; 45; 35; 25; 15; 5; 0].
Proof. vm_compute. reflexivity. Qed.

Lemma generateMessage_threshold (score : Z) :
  exists threshold,
    In threshold (map fst scoreMessages)
    /\ generateMessage score = messageAt threshold
    /\ (0 <= score ->
        threshold <= score
        /\ forall t, In t (map fst scoreMessages) -> t <= score -> t <= threshold)
    /\ (score < 0 -> threshold = 0).
Proof.
  unfold generateMessage. rewrite scoreRanges_value. cbn [List.find].
  repeat (match goal with
          | |- context [Z.leb ?t score] =>
              destruct (Z.leb_spec t score); cbv iota;
              [exists t; split; [cbn; tauto|]; split; [reflexivity|];
               split; [|lia]; intros _; split; [lia|];
               intros t' Hin; cbn in Hin; intuition lia|]
          end).
  exists 0. split; [cbn; tauto|]. split; [reflexivity|]. split; [lia | reflexivity].
Qed.

End Verdict.

Section VerdictProperties.
Import JSString JSObject RatingService.

(** X13: for every integer score [generateMessage] returns a message of
  the table, never [undefined]: that of the greatest threshold not
  above the score, and for a negative score that of threshold 0. *)
Theorem generateMessage_bracket (score : Z) :
exists threshold text,
  In (threshold, text) scoreMessages
  /\ generateMessage score = text
  /\ (0 <= score ->
      threshold <= score
      /\ forall t, In t (map fst scoreMessages) -> t <= score -> t <= threshold)
  /\ (score < 0 -> threshold = 0).
Proof.
destruct (generateMessage_threshold score) as (threshold & Hin & Hmsg & Hrest).
exists threshold, (messageAt threshold). split; [|split; [exact Hmsg | exact Hrest]].
clear Hmsg Hrest. cbn in Hin.
repeat (destruct Hin as [<-|Hin]; [cbn; tauto|]). destruct Hin.
Qed.

Lemma generateMessage_bracket_witness :
(exists threshold,
   In (threshold, generateMessage 42) scoreMessages
   /\ threshold <= 42
   /\ forall t, In t (map fst scoreMessages) -> t <= 42 -> t <= threshold)
/\ In (0, generateMessage (-5)) scoreMessages.
Proof.
split.
- destruct (generateMessage_bracket 42) as (threshold & text & Hin & <- & Hup & _).
  exists threshold. split; [exact Hin|]. apply Hup. lia.
- destruct (generateMessage_bracket (-5)) as (threshold & text & Hin & <- & _ & Hneg).
  rewrite <- (Hneg ltac:(lia)). exact Hin.
Defined.

End VerdictProperties.

(* ===================================================================== *)
(** * What a call of [analyzeImage] does to the provider and the breaker *)
(* ===================================================================== *)

Section RetryRuns.
Import JSString VisionService.

Ltac run_M :=
  unfold sleep in *;
  unfold mbind, M_bind, bind, mret, M_ret, ret, throw, try_catch, get, modify in *.

Variable provider : nat -> Reply.

(** Nothing [transformError] returns is recognised by it again. *)
Lemma transformError_twice e : transformError (transformError e) = serviceError.
Proof.
  unfold transformError at 2.
  repeat (match goal with
          | |- context [if includes (message e) ?c then _ else _] =>
              destruct (includes (message e) c)
          end);
    vm_compute; reflexivity.
Qed.

(** One attempt: one provider call, the time of the reply or of the
    timeout, and the analysis or a transformed error. *)
Lemma attemptOnce_cases s :
  let reply := provider (calls s) in
  exists result,
    attemptOnce provider s
    = (result, advance (Z.min (latency reply) (timeout s)) (count_call s))
    /\ ((exists response, succeeds (timeout s) reply response
                          /\ result = inr (analysisOf response))
        \/ (fails (timeout s) reply /\ exists e, result = inl (transformError e))).
Proof.
  cbv zeta. unfold attemptOnce, raceAnnotate, succeeds, fails. run_M. simpl.
  destruct (Z.ltb_spec (latency (provider (calls s))) (timeout s)) as [Hfast|Hslow].
  - rewrite Z.min_l by lia.
    destruct (settlement (provider (calls s))) as [response|e] eqn:Hsettle; simpl.
    + eexists. split; [reflexivity|]. left. exists response. now repeat split.
    + eexists. split; [reflexivity|]. right. split; [left; now exists e | now exists e].
  - rewrite Z.min_r by lia. simpl. eexists. split; [reflexivity|].
    right. split; [now right | eexists; reflexivity].
Qed.

Lemma succeeds_not_fails tmo reply response :
  succeeds tmo reply response -> fails tmo reply -> False.
Proof.
  intros [Hs Hl] [(e & He)|Hlate]; [congruence | lia].
Qed.

(** The loop never rejects: it returns a result, or runs out with a
    transformed error (with [lastError] when it made no attempt); and
    it leaves the breaker and the configuration alone. *)
Lemma retryLoop_outcome fuel : forall attempt lastError s,
  let out := retryLoop (attemptOnce provider) fuel attempt lastError s in
  ((exists a, fst out = inr (inr a))
   \/ (fuel = 0%nat /\ fst out = inr (inl lastError))
   \/ (exists e, fst out = inr (inl (Some (transformError e)))))
  /\ circuitBreaker (snd out) = circuitBreaker s
  /\ sameConfig s (snd out).
Proof.
  induction fuel as [|fuel IH]; intros attempt lastError s; cbv zeta.
  - simpl. run_M. simpl. split; [right; left; now split|]. now repeat split.
  - destruct (attemptOnce_cases s) as (result & Hone & Hresult). simpl. run_M.
    rewrite Hone. destruct Hresult as [(response & _ & ->)|(_ & e & ->)].
    + simpl. split; [left; eexists; reflexivity|]. now repeat split.
    + rewrite transformed_error_is_retryable.
      cbn [maxRetries retryDelay advance count_call].
      destruct (attempt <? maxRetries s);
        match goal with
        | |- context [retryLoop _ fuel (attempt + 1) ?le ?s2] =>
            destruct (IH (attempt + 1) le s2) as (Hres & Hcb & Hcfg)
        end;
        cbv zeta in Hres, Hcb, Hcfg; unfold sameConfig in *; simpl in *.
      all: split; [|split; [rewrite Hcb; reflexivity | exact Hcfg]].
      all: destruct Hres as [Ha|[[-> Hlast]|He]];
        [left; exact Ha | right; right; exists e; exact Hlast | right; right; exact He].
Qed.

Lemma seq_from_one {A} (f : nat -> A) n :
  map f (seq 1 n) = map (fun i => f (S i)) (seq 0 n).
Proof. now rewrite <- seq_shift, map_map. Qed.

Lemma sumZ_cons x l : sumZ (x :: l) = x + sumZ l.
Proof. reflexivity. Qed.

(** One iteration of the loop. *)
Lemma retryLoop_step {A} (fn : M A) fuel attempt lastError s :
  retryLoop fn (S fuel) attempt lastError s
  = match fn s with
    | (inr r, s') => (inr (inr r), s')
    | (inl error, s') =>
        if isNonRetryableError error then (inl error, s')
        else retryLoop fn fuel (attempt + 1) (Some error)
               (if attempt <? maxRetries s'
                then log_sleep (retryDelay s' * 2 ^ (attempt - 1))
                       (advance (retryDelay s' * 2 ^ (attempt - 1)) s')
                else s')
    end.
Proof.
  simpl. run_M. destruct (fn s) as [[error|r] s']; [|reflexivity].
  destruct (isNonRetryableError error); [reflexivity|].
  now destruct (attempt <? maxRetries s').
Qed.

Lemma delays_step (delay attempt : Z) n :
  map (fun i => delay * 2 ^ (attempt - 1 + Z.of_nat i)) (seq 0 (S n))
  = delay * 2 ^ (attempt - 1)
    :: map (fun i => delay * 2 ^ (attempt + 1 - 1 + Z.of_nat i)) (seq 0 n).
Proof.
  change (seq 0 (S n)) with (0%nat :: seq 1 n). cbn [map].
  rewrite seq_from_one. f_equal; [do 2 f_equal; lia|].
  apply map_ext. intros i. do 2 f_equal. lia.
Qed.

Lemma attemptTimes_step tmo first n :
  attemptTimes provider tmo first (S n)
  = Z.min (latency (provider first)) tmo :: attemptTimes provider tmo (S first) n.
Proof.
  unfold attemptTimes. change (seq 0 (S n)) with (0%nat :: seq 1 n). cbn [map].
  rewrite seq_from_one, Nat.add_0_r. f_equal.
  apply map_ext. intros i. do 3 f_equal. lia.
Qed.

(** The loop entered at [attempt] when the provider's next [j]
    replies fail and the one after them succeeds. *)
Lemma retryLoop_first_success response j : forall fuel attempt lastError s,
  (j < fuel)%nat ->
  (forall i, (i < j)%nat -> fails (timeout s) (provider (calls s + i)%nat)) ->
  succeeds (timeout s) (provider (calls s + j)%nat) response ->
  attempt + Z.of_nat j <= maxRetries s ->
  let out := retryLoop (attemptOnce provider) fuel attempt lastError s in
  fst out = inr (inr (analysisOf response))
  /\ calls (snd out) = (calls s + j + 1)%nat
  /\ sleeps (snd out)
     = (sleeps s ++ map (fun i => retryDelay s * 2 ^ (attempt - 1 + Z.of_nat i))
                        (seq 0 j))%list
  /\ clock (snd out)
     = clock s + sumZ (attemptTimes provider (timeout s) (calls s) (S j))
       + sumZ (map (fun i => retryDelay s * 2 ^ (attempt - 1 + Z.of_nat i)) (seq 0 j)).
Proof.
  induction j as [|j IH]; intros fuel attempt lastError s Hfuel Hfail Hok Hmax; cbv zeta;
    (destruct fuel as [|fuel]; [lia|]);
    destruct (attemptOnce_cases s) as (result & Hone & Hresult);
    rewrite retryLoop_step, Hone.
  - rewrite Nat.add_0_r in Hok.
    destruct Hresult as [(response' & Hok' & ->)|(Hbad & _)];
      [|destruct (succeeds_not_fails _ _ _ Hok Hbad)].
    assert (response' = response) as -> by (destruct Hok, Hok'; congruence).
    rewrite attemptTimes_step. unfold attemptTimes, sumZ. simpl. rewrite app_nil_r.
    repeat split; lia.
  - destruct Hresult as [(response' & Hok' & _)|(_ & e & ->)].
    { specialize (Hfail 0%nat ltac:(lia)). rewrite Nat.add_0_r in Hfail.
      destruct (succeeds_not_fails _ _ _ Hok' Hfail). }
    rewrite transformed_error_is_retryable.
    cbn [maxRetries retryDelay advance count_call].
    destruct (Z.ltb_spec attempt (maxRetries s)) as [_|]; [|lia].
    match goal with
    | |- context [retryLoop _ fuel (attempt + 1) ?le ?s2] =>
        destruct (IH fuel (attempt + 1) le s2) as (Hres & Hcalls & Hsleeps & Hclock)
    end.
    + lia.
    + intros i Hi. cbn [calls timeout log_sleep advance count_call].
      replace (S (calls s) + i)%nat with (calls s + S i)%nat by lia.
      apply Hfail. lia.
    + cbn [calls timeout log_sleep advance count_call].
      replace (S (calls s) + j)%nat with (calls s + S j)%nat by lia. exact Hok.
    + cbn [maxRetries log_sleep advance count_call]. lia.
    + cbv zeta in Hres, Hcalls, Hsleeps, Hclock.
      cbn [calls timeout sleeps clock retryDelay log_sleep advance count_call]
        in Hcalls, Hsleeps, Hclock.
      rewrite Hres, Hcalls, Hsleeps, Hclock, delays_step, (attemptTimes_step _ _ (S j)).
      rewrite !sumZ_cons, <- app_assoc. cbn [app].
      repeat split; lia.
Qed.

(** The loop entered at [attempt] with exactly the iterations up to
    [maxRetries] left, when every reply fails. *)
Lemma retryLoop_all_fail fuel : forall attempt lastError s,
  (forall i, (i < fuel)%nat -> fails (timeout s) (provider (calls s + i)%nat)) ->
  attempt + Z.of_nat fuel = maxRetries s + 1 ->
  let out := retryLoop (attemptOnce provider) fuel attempt lastError s in
  ((fuel = 0%nat /\ fst out = inr (inl lastError))
   \/ (exists e, fst out = inr (inl (Some (transformError e)))))
  /\ calls (snd out) = (calls s + fuel)%nat
  /\ sleeps (snd out)
     = (sleeps s ++ map (fun i => retryDelay s * 2 ^ (attempt - 1 + Z.of_nat i))
                        (seq 0 (fuel - 1)))%list
  /\ clock (snd out)
     = clock s + sumZ (attemptTimes provider (timeout s) (calls s) fuel)
       + sumZ (map (fun i => retryDelay s * 2 ^ (attempt - 1 + Z.of_nat i))
                   (seq 0 (fuel - 1))).
Proof.
  induction fuel as [|fuel IH]; intros attempt lastError s Hfail Hmax; cbv zeta.
  - simpl. run_M. unfold attemptTimes, sumZ. simpl. rewrite app_nil_r.
    split; [left; now split|]. repeat split; lia.
  - destruct (attemptOnce_cases s) as (result & Hone & Hresult).
    rewrite retryLoop_step, Hone.
    destruct Hresult as [(response' & Hok' & _)|(_ & e & ->)].
    { specialize (Hfail 0%nat ltac:(lia)). rewrite Nat.add_0_r in Hfail.
      destruct (succeeds_not_fails _ _ _ Hok' Hfail). }
    rewrite transformed_error_is_retryable.
    cbn [maxRetries retryDelay advance count_call].
    destruct (Z.ltb_spec attempt (maxRetries s)) as [Hmore|Hlast];
      match goal with
      | |- context [retryLoop _ fuel (attempt + 1) ?le ?s2] =>
          destruct (IH (attempt + 1) le s2) as (Hres & Hcalls & Hsleeps & Hclock);
            [intros i Hi; cbn [calls timeout log_sleep advance count_call];
             replace (S (calls s) + i)%nat with (calls s + S i)%nat by lia;
             apply Hfail; lia
            | cbn [maxRetries log_sleep advance count_call]; lia |]
      end;
      cbv zeta in Hres, Hcalls, Hsleeps, Hclock;
      cbn [calls timeout sleeps clock retryDelay log_sleep advance count_call]
        in Hcalls, Hsleeps, Hclock;
      rewrite Hcalls, Hsleeps, Hclock, attemptTimes_step;
      (split; [right; destruct Hres as [[_ ->]|He]; [now exists e | exact He]|]);
      (split; [lia|]); rewrite sumZ_cons.
    + destruct fuel as [|fuel]; [lia|].
      replace (S (S fuel) - 1)%nat with (S fuel) by lia.
      replace (S fuel - 1)%nat with fuel by lia.
      rewrite delays_step, sumZ_cons, <- app_assoc. cbn [app].
      split; [reflexivity | lia].
    + assert (fuel = 0%nat) as -> by lia. cbn [Nat.sub seq map].
      rewrite app_nil_r. split; [reflexivity | unfold sumZ; simpl; lia].
Qed.

Lemma backoff_from_one delay n :
  map (fun i => delay * 2 ^ (1 - 1 + Z.of_nat i)) (seq 0 n) = backoff delay n.
Proof. unfold backoff. apply map_ext. intros i. do 2 f_equal. Qed.

(** [executeWithRetry] on the attempt of [analyzeImage]: a result, the
    generic service error, or the [TypeError] of a loop that made no
    attempt; the breaker and the configuration are as before. *)
Lemma executeWithRetry_outcome s :
  let out := executeWithRetry (attemptOnce provider) s in
  ((exists a, fst out = inr a)
   \/ fst out = inl serviceError
   \/ (maxRetries s <= 0
       /\ fst out = inl (mkError "Cannot read properties of undefined (reading 'message')"
                                 None)))
  /\ circuitBreaker (snd out) = circuitBreaker s
  /\ sameConfig s (snd out).
Proof.
  cbv zeta. unfold executeWithRetry. run_M.
  destruct (retryLoop_outcome (Z.to_nat (maxRetries s)) 1 None s) as (Hres & Hcb & Hcfg).
  cbv zeta in Hres, Hcb, Hcfg.
  destruct (retryLoop (attemptOnce provider) (Z.to_nat (maxRetries s)) 1 None s)
    as [[e|[last|a]] s1]; cbn [fst snd] in *.
  - destruct Hres as [(a & Ha)|[(_ & Ha)|(e' & Ha)]]; discriminate.
  - destruct Hres as [(a & Ha)|[(Hfuel & Ha)|(e' & Ha)]]; [discriminate| |];
      injection Ha as ->; cbn [fst snd]; (split; [|now split]).
    + right. right. split; [lia | reflexivity].
    + right. left. now rewrite transformError_twice.
  - split; [left; now exists a | now split].
Qed.

(** A call let through to the request. *)
Lemma analyzeImage_let_through s cb st content :
  checkCircuitBreaker (clock s) (circuitBreaker s) = (cb, st) ->
  st <> OPEN -> client s = true ->
  analyzeImage provider (IsBuffer content) s
  = match executeWithRetry (attemptOnce provider) (set_circuitBreaker cb s) with
    | (inr result, s1) =>
        (inr result, set_circuitBreaker (recordSuccess (circuitBreaker s1)) s1)
    | (inl error, s1) =>
        (inl error, set_circuitBreaker (recordFailure (clock s1) (circuitBreaker s1)) s1)
    end.
Proof.
  intros Hcheck Hst Hclient. unfold analyzeImage. run_M. rewrite Hcheck.
  destruct st; [|  |congruence]; cbn [snd]; rewrite Hclient; cbn [negb];
    now destruct (executeWithRetry (attemptOnce provider) (set_circuitBreaker cb s))
      as [[e|a] s1].
Qed.

(** A call stopped before the request. *)
Lemma analyzeImage_stopped s cb st image :
  checkCircuitBreaker (clock s) (circuitBreaker s) = (cb, st) ->
  st = OPEN \/ client s = false \/ image = NotBuffer ->
  exists e, analyzeImage provider image s = (inl e, set_circuitBreaker cb s)
            /\ In e [circuitOpenError; mkError "Vision client not initialized" None;
                     mkError "Invalid image buffer provided" None].
Proof.
  intros Hcheck Hstop. unfold analyzeImage. run_M. rewrite Hcheck.
  destruct st; cbn [snd].
  1,2: destruct (client s); cbn [negb];
    [destruct image; [destruct Hstop as [|[|]]; discriminate|] |];
    eexists; (split; [reflexivity|]); cbn [In]; auto.
  eexists. split; [reflexivity|]. now left.
Qed.

Lemma checked_or_stopped s image :
  let (cb, st) := checkCircuitBreaker (clock s) (circuitBreaker s) in
  (st <> OPEN /\ client s = true /\ exists content, image = IsBuffer content)
  \/ (st = OPEN \/ client s = false \/ image = NotBuffer).
Proof.
  destruct (checkCircuitBreaker (clock s) (circuitBreaker s)) as [cb st].
  destruct st; [| |now right; left]; (destruct (client s); [|now right; right; left]);
    (destruct image as [content|]; [|now right; right; right]);
    left; (split; [discriminate|]); (split; [reflexivity|]); now exists content.
Qed.

(** The breaker methods keep the invariant. *)
Ltac breaker_cases cb :=
  destruct cb as [[] fc ft rt lt sc hs]; cbn;
  repeat (match goal with
          | |- context [Z.leb ?a ?b] => destruct (Z.leb_spec a b)
          end; cbn);
  intuition (try discriminate; try lia).

Lemma checkCircuitBreaker_invariant now cb :
  0 < halfOpenSuccessThreshold cb ->
  breakerInvariant cb -> breakerInvariant (fst (checkCircuitBreaker now cb)).
Proof. unfold breakerInvariant, checkCircuitBreaker. breaker_cases cb. Qed.

Lemma recordSuccess_invariant cb :
  0 < failureThreshold cb ->
  breakerInvariant cb -> breakerInvariant (recordSuccess cb).
Proof. unfold breakerInvariant, recordSuccess. breaker_cases cb. Qed.

Lemma recordFailure_invariant now cb :
  breakerInvariant cb -> breakerInvariant (recordFailure now cb).
Proof. unfold breakerInvariant, recordFailure. breaker_cases cb. Qed.

Lemma checkCircuitBreaker_thresholds now cb :
  failureThreshold (fst (checkCircuitBreaker now cb)) = failureThreshold cb
  /\ halfOpenSuccessThreshold (fst (checkCircuitBreaker now cb))
     = halfOpenSuccessThreshold cb
  /\ resetTimeout (fst (checkCircuitBreaker now cb)) = resetTimeout cb.
Proof. unfold checkCircuitBreaker. breaker_cases cb. Qed.

Lemma recordSuccess_thresholds cb :
  failureThreshold (recordSuccess cb) = failureThreshold cb
  /\ halfOpenSuccessThreshold (recordSuccess cb) = halfOpenSuccessThreshold cb
  /\ resetTimeout (recordSuccess cb) = resetTimeout cb.
Proof. unfold recordSuccess. breaker_cases cb. Qed.

End RetryRuns.

Section RetryProperties.
Import JSString VisionService.

(** X14: whatever the provider does, [analyzeImage] rejects with one of
  five errors only: circuit open, client not initialised, invalid
  buffer, the generic service error, or the [TypeError] of a service
  configured with no attempt at all.  The specific errors of
  [transformError] (timeout, authentication, quota, permission) never
  reach the caller: the error of an attempt is transformed a second
  time when the retries run out. *)
Theorem analyzeImage_rejections
  (provider : nat -> Reply) (image : ImageArg) (s s' : St) (e : JsError)
  (Hrejects : analyzeImage provider image s = (inl e, s')) :
In e rejections
/\ ~ In (code e) [Some "VISION_TIMEOUT"; Some "VISION_AUTH_ERROR";
                  Some "VISION_QUOTA_ERROR"; Some "VISION_PERMISSION_ERROR"].
Proof.
assert (Hin : In e rejections).
{ pose proof (checked_or_stopped s image) as Hcase.
  destruct (checkCircuitBreaker (clock s) (circuitBreaker s)) as [cb st] eqn:Hcheck.
  destruct Hcase as [(Hst & Hclient & content & ->)|Hstop].
  - rewrite (analyzeImage_let_through provider s cb st content Hcheck Hst Hclient)
      in Hrejects.
    destruct (executeWithRetry_outcome provider (set_circuitBreaker cb s))
      as (Hres & _). cbv zeta in Hres.
    destruct (executeWithRetry (attemptOnce provider) (set_circuitBreaker cb s))
      as [[e1|a] s1]; [|discriminate].
    injection Hrejects as -> _. cbn [fst] in Hres.
    destruct Hres as [(a & Ha)|[Ha|(_ & Ha)]]; [discriminate| |];
      injection Ha as ->; unfold rejections;
      repeat (first [left; reflexivity | right]).
  - destruct (analyzeImage_stopped provider s cb st image Hcheck Hstop)
      as (e1 & Hone & He1).
    rewrite Hone in Hrejects. injection Hrejects as -> _.
    unfold rejections. cbn [In] in He1 |- *. tauto. }
split; [exact Hin|].
cbn in Hin. destruct Hin as [<-|[<-|[<-|[<-|[<-|[]]]]]]; cbn;
  intros [H|[H|[H|[H|[]]]]]; discriminate H.
Qed.

Lemma analyzeImage_rejections_witness :
exists s',
  analyzeImage (fun _ => hangs) (IsBuffer []) (newService 0) = (inl serviceError, s')
  /\ In serviceError rejections
  /\ ~ In (code serviceError) [Some "VISION_TIMEOUT"; Some "VISION_AUTH_ERROR";
                               Some "VISION_QUOTA_ERROR"; Some "VISION_PERMISSION_ERROR"].
Proof.
eexists. 
assert (Hrun : analyzeImage (fun _ => hangs) (IsBuffer []) (newService 0)
               = (inl serviceError, ?[s'])) by (vm_compute; reflexivity).
split; [exact Hrun|].
exact (analyzeImage_rejections (fun _ => hangs) (IsBuffer []) (newService 0) _
         serviceError Hrun).
Defined.

(** X15: a call reports to the breaker exactly once when it reaches the
  request, a success when it resolves and a failure (stamped with the
  time the call ends) when it rejects; a call stopped before the
  request (circuit open, no client, no buffer) reports nothing and
  calls the provider not once. *)
Theorem analyzeImage_reports_once
  (provider : nat -> Reply) (image : ImageArg) (s : St)
  (cb : CircuitBreaker) (st : CircuitState)
  (Hcheck : checkCircuitBreaker (clock s) (circuitBreaker s) = (cb, st)) :
let out := analyzeImage provider image s in
(st <> OPEN -> client s = true -> (exists content, image = IsBuffer content) ->
 circuitBreaker (snd out)
 = match fst out with
   | inr _ => recordSuccess cb
   | inl _ => recordFailure (clock (snd out)) cb
   end)
/\ (st = OPEN \/ client s = false \/ image = NotBuffer ->
    snd out = set_circuitBreaker cb s /\ exists e, fst out = inl e).
Proof.
cbv zeta. split.
- intros Hst Hclient (content & ->).
  rewrite (analyzeImage_let_through provider s cb st content Hcheck Hst Hclient).
  destruct (executeWithRetry_outcome provider (set_circuitBreaker cb s))
    as (_ & Hcb & _). cbv zeta in Hcb.
  destruct (executeWithRetry (attemptOnce provider) (set_circuitBreaker cb s))
    as [[e1|a] s1]; cbn [fst snd] in *; rewrite Hcb; reflexivity.
- intros Hstop.
  destruct (analyzeImage_stopped provider s cb st image Hcheck Hstop) as (e & -> & _).
  split; [reflexivity | now exists e].
Qed.

Lemma analyzeImage_reports_once_witness :
let s := newService 0 in
(circuitBreaker (snd (analyzeImage (fun _ => unavailable) (IsBuffer []) s))
 = recordFailure 3360 initialCircuitBreaker)
/\ (snd (analyzeImage (fun _ => unavailable) NotBuffer s) = s).
Proof.
intros s.
destruct (analyzeImage_reports_once (fun _ => unavailable) (IsBuffer []) s
            initialCircuitBreaker CLOSED eq_refl) as (Hreached & _).
destruct (analyzeImage_reports_once (fun _ => unavailable) NotBuffer s
            initialCircuitBreaker CLOSED eq_refl) as (_ & Hstopped).
split.
- exact (Hreached ltac:(discriminate) eq_refl (ex_intro _ [] eq_refl)).
- exact (proj1 (Hstopped (or_intror (or_intror eq_refl)))).
Defined.

(** X16: when the provider's next [j] replies fail (a rejection of any
  kind, or no reply within the timeout), [j] below [maxRetries], and
  the one after them answers in time, [analyzeImage] resolves with the
  labels and text of that answer after [j + 1] provider calls, having
  slept [retryDelay * 2^0, ..., retryDelay * 2^(j-1)] between them; the
  call takes the time of its attempts plus those delays and is
  reported to the breaker as a success. *)
Theorem analyzeImage_first_success
  (provider : nat -> Reply) (content : list Byte.byte) (s : St)
  (cb : CircuitBreaker) (st : CircuitState) (j : nat) (response : AnnotateResponse)
  (Hcheck : checkCircuitBreaker (clock s) (circuitBreaker s) = (cb, st))
  (Hallowed : st <> OPEN) (Hclient : client s = true)
  (Hwithin : Z.of_nat j < maxRetries s)
  (Hfail : forall i, (i < j)%nat -> fails (timeout s) (provider (calls s + i)%nat))
  (Hanswer : succeeds (timeout s) (provider (calls s + j)%nat) response) :
let out := analyzeImage provider (IsBuffer content) s in
fst out = inr (analysisOf response)
/\ calls (snd out) = (calls s + j + 1)%nat
/\ sleeps (snd out) = (sleeps s ++ backoff (retryDelay s) j)%list
/\ clock (snd out)
   = clock s + sumZ (attemptTimes provider (timeout s) (calls s) (S j))
     + sumZ (backoff (retryDelay s) j)
/\ circuitBreaker (snd out) = recordSuccess cb.
Proof.
cbv zeta. rewrite (analyzeImage_let_through provider s cb st content Hcheck Hallowed Hclient).
destruct (executeWithRetry_outcome provider (set_circuitBreaker cb s)) as (_ & Hcb & _).
cbv zeta in Hcb. revert Hcb.
unfold executeWithRetry, mbind, M_bind, bind, mret, M_ret, ret, throw, get.
destruct (retryLoop_first_success provider response j
            (Z.to_nat (maxRetries (set_circuitBreaker cb s))) 1 None
            (set_circuitBreaker cb s))
  as (Hres & Hcalls & Hsleeps & Hclock);
  [cbn [maxRetries set_circuitBreaker]; lia | exact Hfail | exact Hanswer
   | cbn [maxRetries set_circuitBreaker]; lia |].
cbv zeta in Hres, Hcalls, Hsleeps, Hclock.
rewrite backoff_from_one in Hsleeps, Hclock.
destruct (retryLoop (attemptOnce provider)
            (Z.to_nat (maxRetries (set_circuitBreaker cb s))) 1 None
            (set_circuitBreaker cb s)) as [r s1].
cbn [fst snd] in Hres, Hcalls, Hsleeps, Hclock. subst r.
cbn [fst snd calls sleeps clock circuitBreaker set_circuitBreaker].
intros ->. cbn [circuitBreaker set_circuitBreaker].
cbn [calls sleeps clock timeout retryDelay set_circuitBreaker]
  in Hcalls, Hsleeps, Hclock.
repeat split; assumption.
Qed.

Lemma analyzeImage_first_success_witness :
let out := analyzeImage (recoversAfter 2) (IsBuffer []) (newService 0) in
fst out = inr (analysisOf oneLabel)
/\ calls (snd out) = 3%nat
/\ sleeps (snd out) = [1000; 2000]
/\ clock (snd out) = 0 + (120 + 120 + 250) + (1000 + 2000)
/\ circuitBreaker (snd out) = recordSuccess initialCircuitBreaker.
Proof.
apply (analyzeImage_first_success (recoversAfter 2) [] (newService 0)
         initialCircuitBreaker CLOSED 2 oneLabel eq_refl).
- discriminate.
- reflexivity.
- simpl. lia.
- intros [|[|i]] Hi; [left; eexists; reflexivity | left; eexists; reflexivity | lia].
- split; [reflexivity | simpl; lia].
Defined.

(** X17: when none of the provider's next [maxRetries] replies is an
  answer in time, [analyzeImage] calls the provider [maxRetries]
  times, sleeping [retryDelay * 2^(k-1)] after the [k]-th attempt but
  the last, rejects with the generic service error whatever the
  provider's errors were, and is reported to the breaker as one
  failure. *)
Theorem analyzeImage_exhausts_retries
  (provider : nat -> Reply) (content : list Byte.byte) (s : St)
  (cb : CircuitBreaker) (st : CircuitState)
  (Hcheck : checkCircuitBreaker (clock s) (circuitBreaker s) = (cb, st))
  (Hallowed : st <> OPEN) (Hclient : client s = true)
  (Hretries : 0 < maxRetries s)
  (Hfail : forall i, (i < Z.to_nat (maxRetries s))%nat ->
                     fails (timeout s) (provider (calls s + i)%nat)) :
let out := analyzeImage provider (IsBuffer content) s in
let attempts := Z.to_nat (maxRetries s) in
fst out = inl serviceError
/\ calls (snd out) = (calls s + attempts)%nat
/\ sleeps (snd out) = (sleeps s ++ backoff (retryDelay s) (attempts - 1))%list
/\ clock (snd out)
   = clock s + sumZ (attemptTimes provider (timeout s) (calls s) attempts)
     + sumZ (backoff (retryDelay s) (attempts - 1))
/\ circuitBreaker (snd out) = recordFailure (clock (snd out)) cb.
Proof.
cbv zeta. rewrite (analyzeImage_let_through provider s cb st content Hcheck Hallowed Hclient).
destruct (executeWithRetry_outcome provider (set_circuitBreaker cb s)) as (_ & Hcb & _).
cbv zeta in Hcb. revert Hcb.
unfold executeWithRetry, mbind, M_bind, bind, mret, M_ret, ret, throw, get.
destruct (retryLoop_all_fail provider
            (Z.to_nat (maxRetries (set_circuitBreaker cb s))) 1 None
            (set_circuitBreaker cb s))
  as (Hres & Hcalls & Hsleeps & Hclock);
  [exact Hfail | cbn [maxRetries set_circuitBreaker]; lia |].
cbv zeta in Hres, Hcalls, Hsleeps, Hclock.
rewrite backoff_from_one in Hsleeps, Hclock.
destruct (retryLoop (attemptOnce provider)
            (Z.to_nat (maxRetries (set_circuitBreaker cb s))) 1 None
            (set_circuitBreaker cb s)) as [r s1].
cbn [fst snd] in Hres, Hcalls, Hsleeps, Hclock.
cbn [calls sleeps clock timeout retryDelay maxRetries set_circuitBreaker]
  in Hres, Hcalls, Hsleeps, Hclock.
destruct Hres as [(Hnone & _)|(e & ->)]; [lia|].
cbn [fst snd calls sleeps clock circuitBreaker set_circuitBreaker].
intros ->. cbn [circuitBreaker set_circuitBreaker].
rewrite transformError_twice. repeat split; assumption.
Qed.

Lemma analyzeImage_exhausts_retries_witness :
let out := analyzeImage (fun _ => hangs) (IsBuffer []) (newService 0) in
fst out = inl serviceError
/\ calls (snd out) = 3%nat
/\ sleeps (snd out) = [1000; 2000]
/\ clock (snd out) = 0 + (30000 + 30000 + 30000) + (1000 + 2000)
/\ circuitBreaker (snd out) = recordFailure (clock (snd out)) initialCircuitBreaker.
Proof.
apply (analyzeImage_exhausts_retries (fun _ => hangs) [] (newService 0)
         initialCircuitBreaker CLOSED eq_refl).
- discriminate.
- reflexivity.
- simpl. lia.
- intros i _. right. simpl. lia.
Defined.

(** X18: [executeWithRetry] by itself does not retry an error it
  classifies as non-retryable (the message contains, or the code is,
  UNAUTHENTICATED, PERMISSION_DENIED, INVALID_ARGUMENT or
  QUOTA_EXCEEDED): the function is called once, there is no sleep, and
  the error is rethrown as it is. *)
Theorem executeWithRetry_non_retryable
  {A : Type} (fn : M A) (s s1 : St) (e : JsError)
  (Hretries : 0 < maxRetries s)
  (Hfn : fn s = (inl e, s1))
  (Hclass : isNonRetryableError e = true) :
executeWithRetry fn s = (inl e, s1).
Proof.
exact (executeWithRetry_fail_fast fn s e s1 Hretries Hfn Hclass).
Qed.

Lemma executeWithRetry_non_retryable_witness :
let e := mkError "UNAUTHENTICATED: Invalid credentials" (Some "UNAUTHENTICATED") in
let s1 := advance 80 (count_call (newService 0)) in
executeWithRetry (raceAnnotate (fun _ => unauthenticated)) (newService 0) = (inl e, s1)
/\ calls s1 = 1%nat /\ sleeps s1 = [].
Proof.
intros e s1. split; [|split; reflexivity].
apply (executeWithRetry_non_retryable (raceAnnotate (fun _ => unauthenticated))
         (newService 0) s1 e).
- simpl. lia.
- reflexivity.
- reflexivity.
Defined.

(** X19: every call of [analyzeImage] keeps the breaker's invariant and
  its three settings: the failure count is never negative; a CLOSED
  breaker has fewer failures than the threshold and no successes
  counted; an OPEN one has a failure time; a HALF_OPEN one has a
  failure time and fewer successes than its threshold. *)
Theorem analyzeImage_keeps_breaker_invariant
  (provider : nat -> Reply) (image : ImageArg) (s : St)
  (Hft : 0 < failureThreshold (circuitBreaker s))
  (Hhs : 0 < halfOpenSuccessThreshold (circuitBreaker s))
  (Hinv : breakerInvariant (circuitBreaker s)) :
let cb' := circuitBreaker (snd (analyzeImage provider image s)) in
breakerInvariant cb'
/\ failureThreshold cb' = failureThreshold (circuitBreaker s)
/\ halfOpenSuccessThreshold cb' = halfOpenSuccessThreshold (circuitBreaker s)
/\ resetTimeout cb' = resetTimeout (circuitBreaker s).
Proof.
cbv zeta.
pose proof (checkCircuitBreaker_invariant (clock s) (circuitBreaker s) Hhs Hinv) as Hchecked.
pose proof (checkCircuitBreaker_thresholds (clock s) (circuitBreaker s))
  as (Hft' & Hhs' & Hrt').
pose proof (checked_or_stopped s image) as Hcase.
destruct (checkCircuitBreaker (clock s) (circuitBreaker s)) as [cb st] eqn:Hcheck.
cbn [fst] in Hchecked, Hft', Hhs', Hrt'.
destruct Hcase as [(Hst & Hclient & content & ->)|Hstop].
- rewrite (analyzeImage_let_through provider s cb st content Hcheck Hst Hclient).
  destruct (executeWithRetry_outcome provider (set_circuitBreaker cb s))
    as (_ & Hcb & _). cbv zeta in Hcb.
  destruct (executeWithRetry (attemptOnce provider) (set_circuitBreaker cb s))
    as [[e1|a] s1]; cbn [fst snd circuitBreaker set_circuitBreaker] in *;
    rewrite Hcb.
  + pose proof (recordFailure_thresholds (clock s1) cb) as (F1 & F2 & F3).
    split; [now apply recordFailure_invariant|]. repeat split; congruence.
  + pose proof (recordSuccess_thresholds cb) as (F1 & F2 & F3).
    split; [apply recordSuccess_invariant; [lia | assumption]|].
    repeat split; congruence.
- destruct (analyzeImage_stopped provider s cb st image Hcheck Hstop) as (e & -> & _).
  cbn [snd circuitBreaker set_circuitBreaker].
  split; [exact Hchecked | repeat split; assumption].
Qed.

Lemma analyzeImage_keeps_breaker_invariant_witness :
breakerInvariant initialCircuitBreaker
/\ let cb' := circuitBreaker
                (snd (analyzeImage (fun _ => unavailable) (IsBuffer [])
                        (runCalls (fun _ => unavailable) 4 (newService 0)))) in
   state cb' = OPEN
   /\ breakerInvariant cb'
   /\ failureThreshold cb' = 5
   /\ halfOpenSuccessThreshold cb' = 2
   /\ resetTimeout cb' = 60000.
Proof.
split; [repeat split; simpl; lia|].
split; [vm_compute; reflexivity|].
apply (analyzeImage_keeps_breaker_invariant (fun _ => unavailable) (IsBuffer [])
         (runCalls (fun _ => unavailable) 4 (newService 0))).
- vm_compute. reflexivity.
- vm_compute. reflexivity.
- vm_compute. repeat split; discriminate.
Defined.

End RetryProperties.

(* ===================================================================== *)
(** * The dictionary: updates seen by the matcher, and its statistics *)
(* ===================================================================== *)

Section Dictionary.
Import JSString JSObject RatingService.

Lemma Qle_bool_trans (s a b : Q) :
  (a <= b)%Q -> Qle_bool s a = true -> Qle_bool s b = true.
Proof.
  intros Hab Hsa. apply Qle_bool_iff. apply Qle_bool_iff in Hsa.
  now apply Qle_trans with a.
Qed.

(** Each weight falls in exactly one of the four ranges. *)
Lemma one_range (s : Q) :
  (Nat.b2n (Qle_bool s 5) + Nat.b2n (Qgtb s 5 && Qle_bool s 10)
   + Nat.b2n (Qgtb s 10 && Qle_bool s 15) + Nat.b2n (Qgtb s 15) = 1)%nat.
Proof.
  unfold Qgtb.
  destruct (Qle_bool s 5) eqn:H5.
  - rewrite (Qle_bool_trans s 5 10), (Qle_bool_trans s 5 15);
      [reflexivity | discriminate | exact H5 | discriminate | exact H5].
  - destruct (Qle_bool s 10) eqn:H10.
    + rewrite (Qle_bool_trans s 10 15); [reflexivity | discriminate | exact H10].
    + now destruct (Qle_bool s 15).
Qed.

Lemma countScores_cons p s scores :
  countScores p (s :: scores) = (Nat.b2n (p s) + countScores p scores)%nat.
Proof. unfold countScores. cbn [List.filter]. now destruct (p s). Qed.

Lemma ranges_partition scores :
  (countScores (fun s => Qle_bool s 5) scores
   + countScores (fun s => Qgtb s 5 && Qle_bool s 10) scores
   + countScores (fun s => Qgtb s 10 && Qle_bool s 15) scores
   + countScores (fun s => Qgtb s 15) scores = length scores)%nat.
Proof.
  induction scores as [|s scores IH]; [reflexivity|].
  rewrite !countScores_cons. cbn [length]. pose proof (one_range s). lia.
Qed.

Lemma Qltb_lt (x y : Q) : Qltb x y = true -> (x < y)%Q.
Proof.
  unfold Qltb. intros H. apply Qnot_le_lt. intros Hle.
  apply Qle_bool_iff in Hle. rewrite Hle in H. discriminate.
Qed.

Lemma Qltb_false_le (x y : Q) : Qltb x y = false -> (y <= x)%Q.
Proof.
  unfold Qltb. intros H. apply Qle_bool_iff.
  destruct (Qle_bool y x); [reflexivity | discriminate].
Qed.

(** The running maximum and minimum of [Math.max] and [Math.min]. *)
Lemma running_max rest : forall s,
  let hi := fold_left (fun m x => if Qltb m x then x else m) rest s in
  In hi (s :: rest) /\ forall x, In x (s :: rest) -> (x <= hi)%Q.
Proof.
  induction rest as [|y rest IH]; intros s; cbv zeta.
  - cbn. split; [now left|]. intros x [<-|[]]. apply Qle_refl.
  - cbn [fold_left]. destruct (IH (if Qltb s y then y else s)) as (Hin & Hle).
    cbv zeta in Hin, Hle. split.
    + destruct Hin as [Hin|Hin]; [|now right; right].
      rewrite <- Hin. destruct (Qltb s y); [right; now left | now left].
    + pose proof (Hle _ (or_introl eq_refl)) as Hfirst.
      intros x [<-|[<-|Hx]]; [| |apply Hle; now right].
      * destruct (Qltb s y) eqn:Hlt; [|exact Hfirst].
        eapply Qle_trans; [apply Qlt_le_weak, Qltb_lt, Hlt | exact Hfirst].
      * destruct (Qltb s y) eqn:Hlt; [exact Hfirst|].
        eapply Qle_trans; [apply Qltb_false_le, Hlt | exact Hfirst].
Qed.

Lemma running_min rest : forall s,
  let lo := fold_left (fun m x => if Qltb x m then x else m) rest s in
  In lo (s :: rest) /\ forall x, In x (s :: rest) -> (lo <= x)%Q.
Proof.
  induction rest as [|y rest IH]; intros s; cbv zeta.
  - cbn. split; [now left|]. intros x [<-|[]]. apply Qle_refl.
  - cbn [fold_left]. destruct (IH (if Qltb y s then y else s)) as (Hin & Hle).
    cbv zeta in Hin, Hle. split.
    + destruct Hin as [Hin|Hin]; [|now right; right].
      rewrite <- Hin. destruct (Qltb y s); [right; now left | now left].
    + pose proof (Hle _ (or_introl eq_refl)) as Hfirst.
      intros x [<-|[<-|Hx]]; [| |apply Hle; now right].
      * destruct (Qltb y s) eqn:Hlt; [|exact Hfirst].
        eapply Qle_trans; [exact Hfirst | apply Qlt_le_weak, Qltb_lt, Hlt].
      * destruct (Qltb y s) eqn:Hlt; [exact Hfirst|].
        eapply Qle_trans; [exact Hfirst | apply Qltb_false_le, Hlt].
Qed.

(** An assignment removes no key. *)
Lemma obj_replace_length {V} (k : string) (v : V) (o : list (string * V)) :
  length (obj_replace k v o) = length o.
Proof.
  induction o as [|[k0 v0] o IH]; [reflexivity|]. cbn [obj_replace].
  destruct (String.eqb k k0); cbn [length]; [reflexivity | now rewrite IH].
Qed.

Lemma obj_insert_index_length {V} (n : N) (k : string) (v : V) (o : list (string * V)) :
  length (obj_insert_index n k v o) = S (length o).
Proof.
  induction o as [|[k0 v0] o IH]; [reflexivity|]. cbn [obj_insert_index].
  destruct (array_index k0) as [n0|]; [|reflexivity].
  destruct (n0 <? n)%N; cbn [length]; [now rewrite IH | reflexivity].
Qed.

Lemma obj_set_length {V} (k : string) (v : V) (o : list (string * V)) :
  (length o <= length (obj_set k v o))%nat.
Proof.
  unfold obj_set. destruct (String.eqb k "__proto__"); [lia|].
  destruct (obj_has k o); [rewrite obj_replace_length; lia|].
  destruct (array_index k);
    [rewrite obj_insert_index_length | rewrite length_app; cbn [length]]; lia.
Qed.

Lemma obj_set_has {V} (k k' : string) (v : V) (o : list (string * V)) :
  obj_has k o = true -> obj_has k (obj_set k' v o) = true.
Proof.
  destruct (String.eqb_spec k' "__proto__") as [->|Hproto];
    [now rewrite obj_set_proto|].
  unfold obj_has. rewrite obj_get_set by exact Hproto.
  now destruct (String.eqb k k').
Qed.

Lemma mergeEntries_keeps entries : forall items,
  (length items <= length (mergeEntries entries items))%nat
  /\ forall k, obj_has k items = true -> obj_has k (mergeEntries entries items) = true.
Proof.
  unfold mergeEntries.
  induction entries as [|entry entries IH]; intros items; cbn [fold_left];
    [split; [lia | tauto]|].
  destruct (IH (obj_set (toLowerCase (fst entry)) (snd entry) items)) as (Hlen & Hhas).
  pose proof (obj_set_length (toLowerCase (fst entry)) (snd entry) items).
  split; [lia|]. intros k Hk. now apply Hhas, obj_set_has.
Qed.

End Dictionary.

Section DictionaryProperties.
Import JSString JSObject RatingService.

(** X20: after [updatePerformativeItems], also one that stopped at an
  invalid weight, has left a dictionary of finite numbers (no [NaN]
  was stored), a label whose text is the lower-cased key of an entry
  assigned by the loop is matched exactly, with
  [Math.round(weight * confidence)] points for the weight of the last
  such entry, the product being that of two doubles (and not
  overflowing); the key [__proto__] is the exception.  The dictionary
  updated is one on which [hasOwnProperty] is the inherited method. *)
Theorem updated_keyword_matches_exactly
  (entries : list (string * JsValue)) (items items' : list (string * Q))
  (k : string) (w confidence : Q) (allLabels : list Annotation)
  (Hmethod : obj_get "hasOwnProperty" items = None)
  (Hupdated : numbers (snd (updatePerformativeItems (ObjectOf entries) (stored items)))
              = Some items')
  (Hlast : lastWeight k (validPrefix entries) = Some (JsNumber w))
  (Hk : k <> "__proto__")
  (Hfinite : overflows (double w * double confidence) = false) :
findMatches items' k confidence allLabels
= inr [Match.mk k exact 1.0 (Math_round (times w confidence))].
Proof.
apply numbers_stored in Hupdated.
assert (Hget : obj_get k (stored items') = Some (JsNumber w)).
{ rewrite <- Hupdated. unfold updatePerformativeItems.
  rewrite updateLoop_effect. cbn [snd].
  rewrite mergeEntries_get by exact Hk. rewrite Hlast. reflexivity. }
rewrite obj_get_stored in Hget. unfold findMatches.
destruct (obj_get k items') as [w'|]; [|discriminate Hget].
cbn [fmap option_fmap option_map] in Hget. injection Hget as ->. reflexivity.
Qed.

Lemma updated_keyword_matches_exactly_witness :
obj_get "fidget spinner" performativeItems = None
/\ exists items',
     numbers (snd (updatePerformativeItems
                     (ObjectOf [("Fidget Spinner", JsNumber 3);
                                ("fidget spinner", JsNumber 50);
                                ("matcha", JsNumber 101); ("lava lamp", JsNumber 9)])
                     (stored performativeItems))) = Some items'
     /\ findMatches items' "fidget spinner" 0.57 []
        = inr [Match.mk "fidget spinner" exact 1.0 28].
Proof.
split; [vm_compute; reflexivity|]. eexists.
assert (Hupdated :
          numbers (snd (updatePerformativeItems
                          (ObjectOf [("Fidget Spinner", JsNumber 3);
                                     ("fidget spinner", JsNumber 50);
                                     ("matcha", JsNumber 101); ("lava lamp", JsNumber 9)])
                          (stored performativeItems))) = Some ?[items'])
  by (vm_compute; reflexivity).
split; [exact Hupdated|].
apply (updated_keyword_matches_exactly
         [("Fidget Spinner", JsNumber 3); ("fidget spinner", JsNumber 50);
          ("matcha", JsNumber 101); ("lava lamp", JsNumber 9)]
         performativeItems _ "fidget spinner" 50 0.57 []).
- vm_compute. reflexivity.
- exact Hupdated.
- vm_compute. reflexivity.
- discriminate.
- vm_compute. reflexivity.
Defined.

(** X21: on a dictionary of numeric weights (none of them [NaN]) the
  four ranges of [getStatistics] partition the dictionary: their
  counts add up to [totalItems], the number of keys; and [maxScore]
  and [minScore] are weights of the dictionary that bound all the
  others (none only for the empty dictionary). *)
Theorem getStatistics_partition (items : list (string * Q)) :
let stats := getStatistics items in
let ranges := scoreDistribution stats in
(low ranges + medium ranges + high ranges + veryHigh ranges = totalItems stats)%nat
/\ totalItems stats = length items
/\ match maxScore stats, minScore stats with
   | Some hi, Some lo =>
       In hi (map snd items) /\ In lo (map snd items)
       /\ forall k w, In (k, w) items -> (lo <= w <= hi)%Q
   | None, None => items = []
   | _, _ => False
   end.
Proof.
cbv zeta. unfold getStatistics.
cbn [scoreDistribution totalItems low medium high veryHigh maxScore minScore].
split; [apply ranges_partition|]. split; [apply length_map|].
destruct items as [|[k0 w0] items]; [reflexivity|].
cbn [map snd Math_max Math_min].
destruct (running_max (map snd items) w0) as (Hhi & Hmax).
destruct (running_min (map snd items) w0) as (Hlo & Hmin).
cbv zeta in Hhi, Hmax, Hlo, Hmin.
split; [exact Hhi|]. split; [exact Hlo|].
intros k w Hin.
assert (Hw : In w (w0 :: map snd items)).
{ change (w0 :: map snd items) with (map snd ((k0, w0) :: items)).
  apply in_map_iff. now exists (k, w). }
split; [now apply Hmin | now apply Hmax].
Qed.

(** X22: [updatePerformativeItems] removes no key, whatever its argument
  and whether it throws or not: every key of the dictionary is a key
  afterwards, the count [validateConfiguration] reports does not go
  down, and a configuration that was valid stays valid. *)
Theorem update_removes_no_key
  (newItems : NewItemsArg) (items : list (string * JsValue)) :
let items' := snd (updatePerformativeItems newItems items) in
(forall k, obj_has k items = true -> obj_has k items' = true)
/\ (performativeItemsCount (validateConfiguration items)
    <= performativeItemsCount (validateConfiguration items'))%nat
/\ (isValid (validateConfiguration items) = true ->
    isValid (validateConfiguration items') = true).
Proof.
cbv zeta.
assert (Hkeeps : (length items <= length (snd (updatePerformativeItems newItems items)))%nat
                 /\ forall k, obj_has k items = true ->
                              obj_has k (snd (updatePerformativeItems newItems items)) = true).
{ destruct newItems as [|entries]; cbn [updatePerformativeItems snd]; [split; [lia | tauto]|].
  rewrite updateLoop_effect. cbn [snd]. apply mergeEntries_keeps. }
destruct Hkeeps as (Hlen & Hhas).
split; [exact Hhas|]. unfold validateConfiguration.
cbn [performativeItemsCount isValid]. split; [exact Hlen|].
intros Hvalid. apply andb_true_iff in Hvalid as [Hitems Hmessages].
apply andb_true_iff. split; [|exact Hmessages].
apply Nat.ltb_lt. apply Nat.ltb_lt in Hitems. lia.
Qed.

Lemma update_removes_no_key_witness :
let items' :=
  snd (updatePerformativeItems
         (ObjectOf [("Lava Lamp", JsNumber 9); ("Cold Brew", JsNaN);
                    ("matcha", JsNumber 101)])
         (stored performativeItems)) in
obj_has "matcha" items' = true
/\ performativeItemsCount (validateConfiguration items')
   = S (S (performativeItemsCount (validateConfiguration (stored performativeItems))))
/\ isValid (validateConfiguration items') = true.
Proof.
intros items'.
destruct (update_removes_no_key
            (ObjectOf [("Lava Lamp", JsNumber 9); ("Cold Brew", JsNaN);
                       ("matcha", JsNumber 101)])
            (stored performativeItems)) as (Hhas & _ & Hvalid).
split; [apply Hhas; vm_compute; reflexivity|].
split; [vm_compute; reflexivity|].
apply Hvalid. vm_compute. reflexivity.
Defined.

End DictionaryProperties.

(* ===================================================================== *)
(** * When [calculateRating] returns and when it throws *)
(* ===================================================================== *)

Section Throws.
Import JSString JSObject RatingService.

Lemma textHas_safe terms : safeCondition (textHas terms).
Proof. intros text allLabels _. eexists. reflexivity. Qed.

Lemma musicContext_safe : safeCondition musicContext.
Proof.
  intros text allLabels Hall. unfold musicContext.
  induction Hall as [|described rest (d & ->) _ IH]; cbn [musicContext_some].
  - now exists false.
  - destruct (existsb _ _); [now exists true | exact IH].
Qed.

Lemma semanticMapLiteral_safe :
  Forall (fun entry => safeMappings (snd entry)) semanticMapLiteral.
Proof.
  unfold semanticMapLiteral.
  repeat match goal with
         | |- Forall _ [] => constructor
         | |- Forall _ (_ :: _) => constructor
         | |- safeMappings _ => unfold safeMappings; cbn [snd]
         | |- forall c, _ = Some c -> _ =>
             intros c Hc; cbn [condition] in Hc; try discriminate Hc;
             injection Hc as <-; (apply textHas_safe || apply musicContext_safe)
         end.
Qed.

(** What an object literal holds under a key was written in the literal. *)
Lemma fold_obj_set_origin {V} (k : string) (v : V) (l : list (string * V)) : forall o,
  obj_get k (fold_left (fun o kv => obj_set (fst kv) (snd kv) o) l o) = Some v ->
  (exists entry, In entry l /\ snd entry = v) \/ obj_get k o = Some v.
Proof.
  induction l as [|entry l IH]; intros o; cbn [fold_left]; [now right|].
  intros Hget. destruct (IH _ Hget) as [(entry' & Hin & Hv)|Hhere].
  - left. exists entry'. split; [now right | exact Hv].
  - destruct (String.eqb_spec (fst entry) "__proto__") as [Hproto|Hproto].
    + rewrite Hproto, obj_set_proto in Hhere. now right.
    + rewrite obj_get_set in Hhere by exact Hproto.
      destruct (String.eqb k (fst entry)); [|now right].
      injection Hhere as <-. left. exists entry. split; [now left | reflexivity].
Qed.

Lemma semanticMap_safe labelText mappings :
  obj_get labelText semanticMap = Some mappings -> safeMappings mappings.
Proof.
  unfold semanticMap, of_literal. intros Hget.
  apply fold_obj_set_origin in Hget as [(entry & Hin & <-)|Hget]; [|discriminate Hget].
  exact (proj1 (List.Forall_forall _ _) semanticMapLiteral_safe entry Hin).
Qed.

Lemma collectMappings_returns items labelText allLabels mappings :
  Forall (fun described => exists d, described = inl d) allLabels ->
  safeMappings mappings ->
  exists ms, collectMappings items labelText allLabels mappings = inr ms.
Proof.
  intros Hall Hsafe. induction Hsafe as [|mapping rest Hone _ IH];
    cbn [collectMappings]; [now eexists|].
  destruct IH as (more & ->).
  destruct (condition mapping) as [c|]; cbn [mbind Res_bind].
  - destruct (Hone c eq_refl labelText allLabels Hall) as (holds & ->).
    cbn [mbind Res_bind]. now eexists.
  - now eexists.
Qed.

Lemma describe_described (labels : list Annotation) :
  (forall l, In l labels -> exists d, description l = Some d /\ d <> "") ->
  Forall (fun described => exists d, described = inl d) (map describe labels).
Proof.
  intros Hall. apply List.Forall_forall. intros described Hin.
  apply (proj1 (@in_map_iff _ _ _ _ _)) in Hin as (l & <- & Hl).
  destruct (Hall l Hl) as (d & Hd & Hne). exists d. unfold describe. rewrite Hd.
  unfold truthy. destruct (String.eqb_spec d ""); [contradiction | reflexivity].
Qed.

Lemma getSemanticMatches_returns items labelText (allLabels : list Annotation) :
  (forall l, In l allLabels -> exists d, description l = Some d /\ d <> "") ->
  inherited labelText = false ->
  exists ms, getSemanticMatches items labelText allLabels = inr ms.
Proof.
  intros Hall Hplain. unfold getSemanticMatches.
  destruct (obj_get labelText semanticMap) as [mappings|] eqn:Hmap.
  - destruct (collectMappings_returns items labelText (map describe allLabels) mappings)
      as (ms & ->); [now apply describe_described | eapply semanticMap_safe, Hmap|].
    cbn [mbind Res_bind]. now eexists.
  - rewrite Hplain. cbn [mbind Res_bind]. now eexists.
Qed.

Lemma findMatches_returns items labelText confidence (allLabels : list Annotation) :
  (forall l, In l allLabels -> exists d, description l = Some d /\ d <> "") ->
  inherited labelText = false ->
  exists matches, findMatches items labelText confidence allLabels = inr matches.
Proof.
  intros Hall Hplain. unfold findMatches.
  destruct (obj_get labelText items); [now eexists|].
  destruct (getSemanticMatches_returns items labelText allLabels Hall Hplain) as (ms & ->).
  cbn [mbind Res_bind]. now eexists.
Qed.

Lemma forEachLabel_returns items labels rest : forall st,
  (forall l, In l labels -> exists d, description l = Some d /\ d <> "") ->
  (forall l d, In l rest -> description l = Some d ->
               inherited (trim (toLowerCase d)) = false) ->
  exists st', forEachLabel items labels rest st = inr st'.
Proof.
  induction rest as [|l rest IH]; intros st Hall Hplain; cbn [forEachLabel];
    [now eexists|].
  assert (exists st1, processLabel items labels st l = inr st1) as (st1 & ->).
  { unfold processLabel. destruct (description l) as [d|] eqn:Hd; [|now eexists].
    destruct (negb (truthy d)); [now eexists|].
    destruct (findMatches_returns items (trim (toLowerCase d)) (default 0%Q (score l))
                labels Hall) as (matches & ->);
      [apply (Hplain l d); [now left | exact Hd]|].
    cbn [mbind Res_bind]. now eexists. }
  cbn [mbind Res_bind]. apply IH; [exact Hall|].
  intros l' d' Hl'. apply Hplain. now right.
Qed.

Lemma labelTexts_returns allLabels :
  (forall l, In l allLabels -> exists d, description l = Some d /\ d <> "") ->
  exists texts, labelTexts allLabels = inr texts.
Proof.
  induction allLabels as [|l rest IH]; intros Hall; cbn [labelTexts]; [now eexists|].
  destruct (Hall l ltac:(now left)) as (d & -> & _).
  destruct IH as (texts & ->); [intros l' Hl'; apply Hall; now right|].
  cbn [mbind Res_bind]. now eexists.
Qed.

(** One label on which the loop body throws ends the loop with an
    exception, whatever came before. *)
Lemma forEachLabel_throws items labels rest l : forall st,
  In l rest ->
  (forall st, exists e, processLabel items labels st l = inl e) ->
  exists e, forEachLabel items labels rest st = inl e.
Proof.
  induction rest as [|l0 rest IH]; intros st Hin Hthrows; [destruct Hin|].
  cbn [forEachLabel]. destruct Hin as [->|Hin].
  - destruct (Hthrows st) as (e & ->). now exists e.
  - destruct (processLabel items labels st l0) as [e|st1]; cbn [mbind Res_bind];
      [now exists e | now apply IH].
Qed.

Lemma inherited_not_semantic labelText :
  inherited labelText = true -> obj_get labelText semanticMap = None.
Proof.
  unfold inherited. intros Hinh. apply orb_true_iff in Hinh as [H|H];
    apply String.eqb_eq in H; subst labelText; vm_compute; reflexivity.
Qed.

End Throws.

Section ThrowProperties.
Import JSString JSObject RatingService.

(** X23: [calculateRating] returns a rating whenever every label has a
  non-empty description and no label reads, lower-cased and trimmed,
  [constructor] or [__proto__]; neither the dictionary nor the text
  annotations can make it throw.  The dictionary is one on which
  [this.performativeItems.hasOwnProperty] is the inherited method, as
  on every dictionary the class can hold: its keys are those of the
  constructor's literal and lower-cased ones. *)
Theorem calculateRating_returns
  (items : list (string * Q)) (labels : list Annotation) (options : Options)
  (Hmethod : obj_get "hasOwnProperty" items = None)
  (Hdescribed : forall l, In l labels -> exists d, description l = Some d /\ d <> "")
  (Hplain : forall l d, In l labels -> description l = Some d ->
                        inherited (trim (toLowerCase d)) = false) :
exists r, calculateRating items (LabelArray labels) options = inr r.
Proof.
unfold calculateRating, scan.
destruct (forEachLabel_returns items labels labels
            (match optTextAnnotations options with
             | Some textAnnotations =>
                 fold_left addTextMatch (processTextAnnotations textAnnotations)
                   (mkScan 0 ∅ [])
             | None => mkScan 0 ∅ []
             end) Hdescribed Hplain) as (st & Hst).
cbv zeta. rewrite Hst. cbn [mbind Res_bind].
unfold calculateContextualAdjustments.
destruct (labelTexts_returns labels Hdescribed) as (texts & ->).
cbn [mbind Res_bind]. now eexists.
Qed.

Lemma calculateRating_returns_witness :
exists r,
  calculateRating performativeItems
    (LabelArray [label "Matcha" 0.9; label "Singer" 0.8; mkAnnotation (Some "Person") None])
    (mkOptions (Some [mkAnnotation None None])) = inr r.
Proof.
apply (calculateRating_returns performativeItems
         [label "Matcha" 0.9; label "Singer" 0.8; mkAnnotation (Some "Person") None]
         (mkOptions (Some [mkAnnotation None None]))).
- vm_compute. reflexivity.
- intros l [<-|[<-|[<-|[]]]]; eexists; (split; [reflexivity | discriminate]).
- intros l d [<-|[<-|[<-|[]]]] [= <-]; vm_compute; reflexivity.
Defined.

(** X24: a label that reads [constructor] or [__proto__] (in any letter
  case, blanks around it) makes [calculateRating] throw, unless the
  dictionary has that key: the semantic table finds the inherited
  property and calls [forEach] on it. *)
Theorem calculateRating_throws_on_inherited_label
  (items : list (string * Q)) (labels : list Annotation) (options : Options)
  (l : Annotation) (d : string)
  (Hin : In l labels) (Hd : description l = Some d)
  (Hinherited : inherited (trim (toLowerCase d)) = true)
  (Hnokey : obj_get (trim (toLowerCase d)) items = None) :
exists e, calculateRating items (LabelArray labels) options = inl e.
Proof.
unfold calculateRating, scan. cbv zeta.
destruct (forEachLabel_throws items labels labels l
            (match optTextAnnotations options with
             | Some textAnnotations =>
                 fold_left addTextMatch (processTextAnnotations textAnnotations)
                   (mkScan 0 ∅ [])
             | None => mkScan 0 ∅ []
             end) Hin) as (e & ->); [|now exists e].
intros st. unfold processLabel. rewrite Hd.
assert (Htruthy : truthy d = true).
{ unfold truthy. destruct (String.eqb_spec d "") as [->|]; [discriminate Hinherited|].
  reflexivity. }
rewrite Htruthy. cbn [negb]. unfold findMatches. rewrite Hnokey.
unfold getSemanticMatches.
rewrite (inherited_not_semantic _ Hinherited), Hinherited.
cbn [mbind Res_bind]. now eexists.
Qed.

Lemma calculateRating_throws_on_inherited_label_witness :
calculateRating performativeItems
  (LabelArray [label "Matcha" 0.9; label " Constructor " 0.8]) noOptions
= inl (TypeError "semanticMap[labelText].forEach is not a function").
Proof.
destruct (calculateRating_throws_on_inherited_label performativeItems
            [label "Matcha" 0.9; label " Constructor " 0.8] noOptions
            (label " Constructor " 0.8) " Constructor ") as (e & He).
- right. now left.
- reflexivity.
- vm_compute. reflexivity.
- vm_compute. reflexivity.
- vm_compute. reflexivity.
Defined.

End ThrowProperties.
